(** * rollerupper: GenericComparator, RollerUpper and ImmutableRollerUpper

    A shallow embedding of [rollerupper.py] and the properties of its
    grouping tree.

    Python objects of the module live in two places:
    - the values found in data items and used as grouping keys and names
      ([pyval]) are immutable and compared by [==], which on this universe is
      structural equality;
    - [RollerUpper] instances are mutable and are identified by their
      address in a store ([heap]); a method that assigns [self.children]
      updates the store, and two references to one instance see the same
      update.

    What the module takes from its environment is a parameter of the
    model: the interpreter that runs a grouping snippet ([py_exec]) and the
    order in which a dictionary yields its entries ([dict_items]).  The
    methods that recurse through the children of an instance take a bound
    on the depth of the recursion ([fuel]). *)

From Stdlib Require Import ZArith String Ascii List DecimalString.
From stdpp Require Import base tactics option list strings sorting.

Local Open Scope string_scope.
Local Open Scope list_scope.

(** ** The universe of values *)

(** [None], integers, strings and record-like objects.  An object carries
    the text [str()] gives for it and its attributes.  Python's [bool] is a
    subclass of [int] with [True == 1] and [False == 0] (and equal hashes):
    where the module passes a boolean as a value it is represented by
    [PInt 1] or [PInt 0]. *)
#[warnings="-register-all"]
Inductive pyval : Type :=
  | PNone
  | PInt (n : Z)
  | PStr (s : string)
  | PObj (text : string) (attrs : list (string * pyval)).

Definition pyval_eq_dec : ∀ x y : pyval, {x = y} + {x ≠ y}.
Proof.
  fix IH 1.
  intros [| n | s | t l] [| n' | s' | t' l']; try (right; discriminate).
  - left; reflexivity.
  - destruct (Z.eq_dec n n') as [->|]; [left; reflexivity | right; congruence].
  - destruct (string_dec s s') as [->|]; [left; reflexivity | right; congruence].
  - destruct (string_dec t t') as [->|]; [| right; congruence].
    assert ({l = l'} + {l ≠ l'}) as [->|].
    { revert l'. induction l as [|[a v] l IHl]; intros [|[a' v'] l'];
        try (right; discriminate); [left; reflexivity |].
      destruct (string_dec a a') as [->|]; [| right; congruence].
      destruct (IH v v') as [->|]; [| right; congruence].
      destruct (IHl l') as [->|]; [left; reflexivity | right; congruence]. }
    + left; reflexivity.
    + right; congruence.
Defined.

#[global] Instance pyval_eq_decision : EqDecision pyval := pyval_eq_dec.

(** [x == y] and [x != y] on values. *)
Definition py_eq (x y : pyval) : bool := bool_decide (x = y).
Definition py_ne (x y : pyval) : bool := negb (py_eq x y).

(** [str(x)]. *)
Definition py_str (x : pyval) : string :=
  match x with
  | PNone => "None"
  | PInt n => NilZero.string_of_int (Z.to_int n)
  | PStr s => s
  | PObj text _ => text
  end.

(** ** Exceptions and results *)

(** [Stuck] has no Python counterpart: it marks the use of an address at
    which there is no instance.  [OutOfFuel] says that the recursion budget
    of the model ran out. *)
Inductive exn : Type :=
| ConfigurationError (msg : string)
| AttributeError
| TypeError
| KeyError
| Stuck
| OutOfFuel.

Inductive res (A : Type) : Type :=
| Ok (a : A)
| Raise (e : exn).
Arguments Ok {A} a.
Arguments Raise {A} e.

#[global] Instance res_ret : MRet res := @Ok.
#[global] Instance res_bind : MBind res := λ A B f m,
  match m with Ok a => f a | Raise e => Raise e end.

(** [getattr(o, name)]: only objects expose attributes in this universe. *)
Fixpoint assoc (name : string) (l : list (string * pyval)) : option pyval :=
  match l with
  | [] => None
  | (a, v) :: l' => if String.eqb a name then Some v else assoc name l'
  end.

Definition pyval_getattr (o : pyval) (name : string) : res pyval :=
  match o with
  | PObj _ attrs =>
      match assoc name attrs with
      | Some v => Ok v
      | None => Raise AttributeError
      end
  | _ => Raise AttributeError
  end.

(** Objects that expose named fields. *)
Class HasAttr (O : Type) := getattr : O → string → res pyval.
#[global] Instance pyval_has_attr : HasAttr pyval := pyval_getattr.

(** ** The natural ordering of values *)

(** [x < y] and [x > y]: integers by value, strings lexicographically by
    character code; values of other or of different kinds are not ordered
    and the comparison raises. *)
Definition py_lt (x y : pyval) : res bool :=
  match x, y with
  | PInt a, PInt b => Ok (a <? b)%Z
  | PStr s, PStr t => Ok (String.ltb s t)
  | _, _ => Raise TypeError
  end.

Definition py_gt (x y : pyval) : res bool :=
  match x, y with
  | PInt a, PInt b => Ok (b <? a)%Z
  | PStr s, PStr t => Ok (String.ltb t s)
  | _, _ => Raise TypeError
  end.

(** Comparison of two lists [k1 < k2] as Python does it: the first pair of
    elements that are not [==] decides by [<]; when one list is a prefix of
    the other the shorter is the smaller. *)
Fixpoint list_lt (k1 k2 : list pyval) : res bool :=
  match k1, k2 with
  | [], [] => Ok false
  | [], _ :: _ => Ok true
  | _ :: _, [] => Ok false
  | x :: k1', y :: k2' => if py_eq x y then list_lt k1' k2' else py_lt x y
  end.

Fixpoint list_gt (k1 k2 : list pyval) : res bool :=
  match k1, k2 with
  | [], [] => Ok false
  | [], _ :: _ => Ok false
  | _ :: _, [] => Ok true
  | x :: k1', y :: k2' => if py_eq x y then list_gt k1' k2' else py_gt x y
  end.

Definition list_eq (k1 k2 : list pyval) : bool := bool_decide (k1 = k2).

(** ** GenericComparator *)

Module GenericComparator.
Section Comparator.
Context {O : Type} `{HasAttr O}.
Variable fieldnames : list string.

(** [_key]: the configured fields of [o], in the configured order. *)
Fixpoint _key_of (fs : list string) (o : O) : res (list pyval) :=
  match fs with
  | [] => Ok []
  | x :: fs' => v ← getattr o x; k ← _key_of fs' o; Ok (v :: k)
  end.

Definition _key (o : O) : res (list pyval) := _key_of fieldnames o.

(** [_yield_field_values] is a generator: the pairs it yields, in their
    order, and the exception that ends it when a field cannot be read. *)
Fixpoint _yield_field_values_of (fs : list string) (o1 o2 : O)
    : list (pyval * pyval) * option exn :=
  match fs with
  | [] => ([], None)
  | fieldname :: fs' =>
      match getattr o1 fieldname with
      | Raise e => ([], Some e)
      | Ok o1val =>
          match getattr o2 fieldname with
          | Raise e => ([], Some e)
          | Ok o2val =>
              let rest := _yield_field_values_of fs' o1 o2 in
              ((o1val, o2val) :: rest.1, rest.2)
          end
      end
  end.

Definition _yield_field_values (o1 o2 : O)
    : list (pyval * pyval) * option exn :=
  _yield_field_values_of fieldnames o1 o2.

Definition eq (o1 o2 : O) : res bool :=
  k1 ← _key o1; k2 ← _key o2; Ok (list_eq k1 k2).

Definition ne (o1 o2 : O) : res bool :=
  k1 ← _key o1; k2 ← _key o2; Ok (negb (list_eq k1 k2)).

Definition lt (o1 o2 : O) : res bool :=
  k1 ← _key o1; k2 ← _key o2; list_lt k1 k2.

Definition gt (o1 o2 : O) : res bool :=
  k1 ← _key o1; k2 ← _key o2; list_gt k1 k2.
End Comparator.
End GenericComparator.

(** ** The store of RollerUpper instances *)

Abbreviation addr := nat (only parsing).

Inductive pyclass : Type := ClsRollerUpper | ClsImmutableRollerUpper.

(** An instance: its class and its four attributes.  [data] and [children]
    hold lists; [children] may also hold [None].  The lists are kept by
    value: the module updates a list in place ([append], [extend], [sort])
    only between its creation and the end of the same call, so which list
    object an attribute holds cannot be observed through the module's
    operations.  Which instance a reference denotes can, and instances are
    kept by address. *)
Record node : Type := Node {
    cls : pyclass;
    name : pyval;
    key : pyval;
    data : list pyval;
    children : option (list addr)
  }.

Abbreviation heap := (list node) (only parsing).

#[global] Instance pyclass_eq_decision : EqDecision pyclass.
Proof. solve_decision. Defined.
#[global] Instance node_eq_decision : EqDecision node.
Proof. solve_decision. Defined.
#[global] Instance exn_eq_decision : EqDecision exn.
Proof. solve_decision. Defined.
#[global] Instance res_eq_decision {A} `{EqDecision A} : EqDecision (res A).
Proof. solve_decision. Defined.

(** ** Computations on the store *)

(** A method call runs from a store to a result, or an exception, and the
    store it leaves behind. *)
Definition M (A : Type) : Type := heap → res A * heap.

Definition ret {A} (a : A) : M A := λ h, (Ok a, h).
Definition raise {A} (e : exn) : M A := λ h, (Raise e, h).
Definition bind {A B} (m : M A) (f : A → M B) : M B := λ h,
  match m h with
  | (Ok a, h') => f a h'
  | (Raise e, h') => (Raise e, h')
  end.
Definition lift {A} (r : res A) : M A := λ h, (r, h).

#[global] Instance M_ret : MRet M := @ret.
#[global] Instance M_bind : MBind M := λ A B f m, bind m f.

(** Allocation of a new instance, at an address not in use. *)
Definition alloc (n : node) : M addr := λ h, (Ok (length h), h ++ [n]).

Definition get_node (a : addr) : M node := λ h,
  match h !! a with
  | Some n => (Ok n, h)
  | None => (Raise Stuck, h)
  end.

(** [self.children = v]. *)
Definition set_kids (n : node) (v : option (list addr)) : node :=
  Node (cls n) (name n) (key n) (data n) v.

Definition set_children (a : addr) (v : option (list addr)) : M unit := λ h,
  match h !! a with
  | Some n => (Ok tt, <[a := set_kids n v]> h)
  | None => (Raise Stuck, h)
  end.

(** A [for] loop over a list. *)
Fixpoint for_each {A} (f : A → M unit) (l : list A) : M unit :=
  match l with
  | [] => ret tt
  | x :: l' => f x;; for_each f l'
  end.

(** Modelled from the spec: [asrt] is called by the module and defined
    nowhere in it; by the spec a violated check of the constructor or of
    [find] is a ConfigurationError, raised at once. *)
Definition asrt (cond : bool) (msg : string) : M unit :=
  if cond then ret tt else raise (ConfigurationError msg).

(** Truth value of a list argument that may be [None]: [None] and the empty
    list are false. *)
Definition truthy {A} (l : option (list A)) : bool :=
  match l with
  | Some (_ :: _) => true
  | _ => false
  end.

(** [x == None] for an argument that is a list or [None]. *)
Definition is_None {A} (l : option A) : bool :=
  match l with None => true | Some _ => false end.

(** ** RollerUpper.__init__ *)

(** [self.data.extend(c.data)] for each child, from an empty list. *)
Fixpoint collect_data (cs : list addr) : M (list pyval) :=
  match cs with
  | [] => ret []
  | c :: cs' =>
      n ← get_node c;
      rest ← collect_data cs';
      ret (data n ++ rest)
  end.

(** The constructor, for an instance of class [c].  The attributes are
    assigned in the order of the source: [data] given sets [data] and
    clears [children]; [children] given then sets [children] and derives
    [data] from the children. *)
Definition __init__ (c : pyclass) (name key : pyval)
    (data : option (list pyval)) (children : option (list addr)) : M addr :=
  asrt (negb (is_None data && is_None children))
       "data or children must be specified";;
  asrt (negb (truthy data && truthy children))
       "data or children must be specified, not both";;
  match children with
  | Some cs =>
      d ← collect_data cs;
      alloc (Node c name key d (Some cs))
  | None =>
      match data with
      | Some d => alloc (Node c name key d None)
      | None => raise Stuck      (* excluded by the first check *)
      end
  end.

Definition RollerUpper_init := __init__ ClsRollerUpper.

(** [ImmutableRollerUpper.__init__] takes no [key]. *)
Definition ImmutableRollerUpper_init (name : pyval)
    (data : option (list pyval)) (children : option (list addr)) : M addr :=
  __init__ ClsImmutableRollerUpper name PNone data children.

(** ** Sorting *)

(** [RU_COMPARATOR = GenericComparator(['name'])] compares instances; of
    their attributes [name] and [key] hold values.  ([data] and [children]
    hold lists, which are no values of [pyval]; no comparator of the module
    is configured with them.) *)
Definition node_getattr (n : node) (x : string) : res pyval :=
  if String.eqb x "name" then Ok (name n)
  else if String.eqb x "key" then Ok (key n)
  else if String.eqb x "data" || String.eqb x "children" then Raise Stuck
  else Raise AttributeError.
#[global] Instance node_has_attr : HasAttr node := node_getattr.

Definition RU_COMPARATOR : list string := ["name"].

(** [RollerUpper.__lt__] and [__gt__]. *)
Definition __lt__ (self other : node) : res bool :=
  GenericComparator.lt RU_COMPARATOR self other.
Definition __gt__ (self other : node) : res bool :=
  GenericComparator.gt RU_COMPARATOR self other.

(** [list.sort()] is stable and compares with [<] only.  It is modelled
    by a stable insertion sort: an element is put before the first element
    that is not smaller than it.  When [<] is a strict weak order every
    stable sort gives this list. *)
Section Sort.
Context {A : Type} (lt : A → A → res bool).

Fixpoint insert_by (x : A) (l : list A) : res (list A) :=
  match l with
  | [] => Ok [x]
  | y :: l' =>
      b ← lt y x;
      if b : bool then r ← insert_by x l'; Ok (y :: r) else Ok (x :: l)
  end.

Fixpoint list_sort (l : list A) : res (list A) :=
  match l with
  | [] => Ok []
  | x :: l' => s ← list_sort l'; insert_by x s
  end.
End Sort.

(** [a < b] for two instances given by address. *)
Definition addr_lt (h : heap) (a b : addr) : res bool :=
  match h !! a, h !! b with
  | Some x, Some y => __lt__ x y
  | _, _ => Raise Stuck
  end.

(** [self.children.append(c)]. *)
Definition append_child (self c : addr) : M unit :=
  n ← get_node self;
  match children n with
  | Some cs => set_children self (Some (cs ++ [c]))
  | None => raise AttributeError
  end.

(** [self.children.sort()]: the comparisons read the store. *)
Definition sort_addrs (cs : list addr) : M (list addr) :=
  λ h, (list_sort (addr_lt h) cs, h).

Definition sort_children (self : addr) : M unit :=
  n ← get_node self;
  match children n with
  | Some cs => s ← sort_addrs cs; set_children self (Some s)
  | None => raise AttributeError
  end.

(** ** The dictionary of groups *)

(** [group] maps a grouping value to the list of the items that have it.
    Its entries are kept in the order of their insertion. *)
Definition dict := list (pyval * list pyval).

Definition dict_keys (g : dict) : list pyval := g.*1.

(** [x in l]. *)
Definition py_in (x : pyval) (l : list pyval) : bool := existsb (py_eq x) l.

(** [g[k] = v]: replaces the value of an existing key, or adds an entry. *)
Fixpoint dict_setitem (k : pyval) (v : list pyval) (g : dict) : dict :=
  match g with
  | [] => [(k, v)]
  | (k', v') :: g' =>
      if py_eq k k' then (k', v) :: g' else (k', v') :: dict_setitem k v g'
  end.

(** [g[k].append(d)]. *)
Fixpoint dict_append (k d : pyval) (g : dict) : res dict :=
  match g with
  | [] => Raise KeyError
  | (k', v') :: g' =>
      if py_eq k k' then Ok ((k', v' ++ [d]) :: g')
      else g'' ← dict_append k d g'; Ok ((k', v') :: g'')
  end.

Fixpoint string_mem (c : ascii) (s : string) : bool :=
  match s with
  | EmptyString => false
  | String c' s' => Ascii.eqb c c' || string_mem c s'
  end.

(** The truth value of [name_field]: [None] and the empty string are
    false. *)
Definition name_field_given (name_field : option string) : option string :=
  match name_field with
  | Some "" => None
  | o => o
  end.

Definition nonempty {A} (l : list A) : bool :=
  match l with [] => false | _ :: _ => true end.

(** ** Grouping *)

Section Grouping.
(** [exec('val = d.' + field_name)]: the value the interpreter binds to
    [val] when it runs the snippet on the item [d], or the exception it
    raises.  The snippet is taken to read the item only. *)
Variable py_exec : string → pyval → res pyval.

(** [group.items()]: the entries of the dictionary in the order in which it
    yields them, which is the order of insertion since Python 3.7 and is
    not specified before.  The properties assume only that every entry is
    yielded once. *)
Variable dict_items : dict → dict.

(** The grouping value of an item. *)
Definition do_exec (field_name : string) : bool :=
  string_mem "." field_name || string_mem "(" field_name.

Definition eval_field (field_name : string) (d : pyval) : res pyval :=
  if do_exec field_name then py_exec field_name d
  else getattr d field_name.

(** The first loop of [_group_by]. *)
Fixpoint group_loop (field_name : string) (ds : list pyval) (group : dict)
    : res dict :=
  match ds with
  | [] => Ok group
  | d :: ds' =>
      val ← eval_field field_name d;
      let group :=
        if negb (py_in val (dict_keys group))
        then dict_setitem val [] group else group in
      group ← dict_append val d group;
      group_loop field_name ds' group
  end.

(** The name and the key of the child made for the group of [k]. *)
Definition child_name_key (name_field : option string) (k : pyval)
    : res (pyval * pyval) :=
  match name_field_given name_field with
  | Some nf => key ← getattr k nf; Ok (PStr (py_str key), key)
  | None => Ok (PStr (py_str k), k)
  end.

(** The second loop of [_group_by]; it returns [unknown_data]. *)
Fixpoint children_loop (self : addr) (name_field : option string)
    (items : dict) (unknown_data : list pyval) : M (list pyval) :=
  match items with
  | [] => ret unknown_data
  | (k, v) :: items' =>
      if py_eq k PNone
      then children_loop self name_field items' (unknown_data ++ v)
      else
        nk ← lift (child_name_key name_field k);
        c ← RollerUpper_init nk.1 nk.2 (Some v) None;
        append_child self c;;
        children_loop self name_field items' unknown_data
  end.

(** The body of [_group_by] up to its last statement: the children are
    created and appended, and not yet sorted. *)
Definition build_children (self : addr) (field_name : string)
    (name_field : option string) : M unit :=
  n ← get_node self;
  group ← lift (group_loop field_name (data n) []);
  set_children self (Some []);;
  unknown_data ← children_loop self name_field (dict_items group) [];
  if nonempty unknown_data
  then c ← RollerUpper_init (PStr "Unknown") PNone (Some unknown_data) None;
       append_child self c
  else ret tt.

Definition _group_by (self : addr) (field_name : string)
    (name_field : option string) : M unit :=
  build_children self field_name name_field;;
  sort_children self.

(** [ImmutableRollerUpper.mutable]. *)
Definition mutable (self : addr) : M addr :=
  n ← get_node self;
  RollerUpper_init (name n) PNone (Some (data n)) (children n).

(** [group_hierarchy_by], with the method of the instance's class.  The
    RollerUpper method returns nothing, the ImmutableRollerUpper method
    returns the copy it grouped.  [fuel] bounds the depth of the
    recursion through the children. *)
Fixpoint group_hierarchy_by (fuel : nat) (self : addr) (field_name : string)
    (name_field : option string) : M (option addr) :=
  match fuel with
  | O => raise OutOfFuel
  | S fuel' =>
      n ← get_node self;
      match cls n with
      | ClsRollerUpper =>
          match children n with
          | None => _group_by self field_name name_field;; ret None
          | Some cs =>
              for_each
                (λ c, group_hierarchy_by fuel' c field_name name_field;;
                      ret tt) cs;;
              ret None
          end
      | ClsImmutableRollerUpper =>
          result ← mutable self;
          group_hierarchy_by fuel' result field_name name_field;;
          ret (Some result)
      end
  end.

(** [reset], with the method of the instance's class. *)
Definition reset (self : addr) : M unit :=
  n ← get_node self;
  match cls n with
  | ClsRollerUpper => set_children self None
  | ClsImmutableRollerUpper => ret tt
  end.
End Grouping.

(** ** Searching *)

(** Whether the child [cn] matches: by the text of its name when [name] is
    given, else by its key when [key] is given. *)
Definition matches (name key : pyval) (c : node) : bool :=
  let 'Node _ c_name c_key _ _ := c in
  if py_ne name PNone then String.eqb (py_str c_name) (py_str name)
  else if py_ne key PNone then py_eq c_key key
  else false.

(** The loop of [get_children] over the children [cs]; [recurse] is the
    recursive call [c.get_children(name=name, key=key,
    recursive=recursive)]. *)
Fixpoint get_children_loop (recurse : addr → M addr) (name key : pyval)
    (recursive _first_only : bool) (cs : list addr) (result : list addr)
    : M (list addr) :=
  match cs with
  | [] => ret result
  | c :: cs' =>
      cn ← get_node c;
      let result := if matches name key cn then result ++ [c] else result in
      result ←
        (if recursive && negb (is_None (children cn))
         then r ← recurse c;
              rn ← get_node r;
              match children rn with
              | Some l => ret (result ++ l)
              | None => raise TypeError
              end
         else ret result);
      if _first_only && nonempty result then ret result
      else get_children_loop recurse name key recursive _first_only cs' result
  end.

Fixpoint get_children (fuel : nat) (self : addr) (name key : pyval)
    (recursive _first_only : bool) : M addr :=
  match fuel with
  | O => raise OutOfFuel
  | S fuel' =>
      asrt (negb (py_eq name PNone && py_eq key PNone))
           "must specify name or key";;
      n ← get_node self;
      match children n with
      | None => raise TypeError      (* iterating over None *)
      | Some cs =>
          result ←
            get_children_loop
              (λ c, get_children fuel' c name key recursive false)
              name key recursive _first_only cs [];
          RollerUpper_init name key None (Some result)
      end
  end.

(** A Python boolean as a value. *)
Definition py_bool (b : bool) : pyval := PInt (if b then 1 else 0).

(** [get_child]: its call [self.get_children(name, recursive,
    _first_only=True)] passes [recursive] by position, where [get_children]
    has its parameter [key]. *)
Definition get_child (fuel : nat) (self : addr) (name : pyval)
    (recursive : bool) : M (option addr) :=
  result ← get_children fuel self name (py_bool recursive) true true;
  rn ← get_node result;
  match children rn with
  | Some (c :: _) => ret (Some c)
  | _ => ret None
  end.

(** ** Reading the items and the tree *)


(** [get_all]: the field of every item, in the order of the items. *)
Fixpoint get_all_loop (field_name : string) (ds : list pyval)
    (result : list pyval) : res (list pyval) :=
  match ds with
  | [] => Ok result
  | d :: ds' =>
      val ← getattr d field_name;
      get_all_loop field_name ds' (result ++ [val])
  end.

Definition get_all (self : addr) (field_name : string) : M (list pyval) :=
  n ← get_node self;
  lift (get_all_loop field_name (data n) []).





(** ** __repr__ *)

(** [str(l)] of a list, from the [repr()] of its elements. *)
Definition list_str (l : list string) : string :=
  ("[" ++ String.concat ", " l ++ "]")%string.

(** [str(n)] of a length. *)
Definition len_str {A} (l : list A) : string :=
  py_str (PInt (Z.of_nat (length l))).

Section Repr.
(** [repr(d)] of a data item. *)
Variable py_repr : pyval → string.

(** [str(self.children)] calls [__repr__] on each child, in their order;
    [recurse] is that call. *)
Fixpoint reprs_loop (recurse : addr → M string) (cs : list addr)
    : M (list string) :=
  match cs with
  | [] => ret []
  | c :: cs' =>
      s ← recurse c;
      rest ← reprs_loop recurse cs';
      ret (s :: rest)
  end.

(** [__repr__].  The operands of the concatenation are evaluated from left
    to right.  [max(self.children, [])] compares [[] > self.children]: a
    list and [None] are not ordered and the comparison raises; the empty
    list is not greater than any list, so when [self.children] is a list
    the maximum is [self.children]. *)
Fixpoint __repr__ (fuel : nat) (self : addr) : M string :=
  match fuel with
  | O => raise OutOfFuel
  | S fuel' =>
      n ← get_node self;
      match children n with
      | None => raise TypeError
      | Some cs =>
          rs ← reprs_loop (__repr__ fuel') cs;
          ret ("RollerUpper[name=" ++ py_str (name n) ++
               ",len_children=" ++ len_str cs ++
               ",len_data=" ++ len_str (data n) ++
               ",children=" ++ list_str rs ++
               ",data=" ++ list_str (py_repr <$> data n) ++
               "]")%string
      end
  end.
End Repr.

(** ** Notions used to state the properties *)

(** Exactly one of three propositions holds. *)
Definition exactly_one (P Q R : Prop) : Prop :=
  (P ∧ ¬ Q ∧ ¬ R) ∨ (¬ P ∧ Q ∧ ¬ R) ∨ (¬ P ∧ ¬ Q ∧ R).

(** The first position at which two keys differ exists and the elements
    there are related by [rel]. *)
Definition first_diff_decides (rel : pyval → pyval → res bool)
    (k1 k2 : list pyval) : Prop :=
  ∃ (i : nat) (x y : pyval),
    take i k1 = take i k2 ∧ k1 !! i = Some x ∧ k2 !! i = Some y ∧
    x ≠ y ∧ rel x y = Ok true.

(** Two objects are comparable under a field list when the comparison does
    not raise. *)
Definition comparable {O} `{HasAttr O} (fs : list string) (a b : O) : Prop :=
  ∃ r, GenericComparator.lt fs a b = Ok r.

(** Two states of one instance that differ at most in [children]. *)
Definition same_but_children (n n' : node) : Prop :=
  cls n' = cls n ∧ name n' = name n ∧ key n' = key n ∧ data n' = data n.

(** Every instance of [h] is still there in [h'], with the class, name, key
    and data it had. *)
Definition frame (h h' : heap) : Prop :=
  ∀ (b : addr) (nb : node), h !! b = Some nb →
    ∃ nb', h' !! b = Some nb' ∧ same_but_children nb nb'.

(** A computation that, however it ends, leaves a store in which at most
    [children] attributes have changed and instances have been added. *)
Definition preserves {A} (m : M A) : Prop := ∀ h, frame h (m h).2.

(** The items of the instance at [c], and of a list of children. *)
Definition items_of (h : heap) (c : addr) : list pyval :=
  match h !! c with
  | Some nd => data nd
  | None => []
  end.

Definition children_items (h : heap) (cs : list addr) : list pyval :=
  flat_map (items_of h) cs.

(** Whether the grouping value of the item [d] is [k]. *)
Definition has_value (py_exec : string → pyval → res pyval)
    (field_name : string) (k : pyval) (d : pyval) : bool :=
  bool_decide (eval_field py_exec field_name d = Ok k).

(** What the second loop of [_group_by] creates from the groups, in closed
    form: a leaf for each group whose key is not [None], in the order of the
    groups, and the items of the group of [None]. *)
Fixpoint new_children (name_field : option string) (items : dict)
    : res (list node) :=
  match items with
  | [] => Ok []
  | (k, v) :: items' =>
      if py_eq k PNone then new_children name_field items'
      else
        nk ← child_name_key name_field k;
        rest ← new_children name_field items';
        Ok (Node ClsRollerUpper nk.1 nk.2 v None :: rest)
  end.

Fixpoint unknown_data_of (items : dict) : list pyval :=
  match items with
  | [] => []
  | (k, v) :: items' =>
      if py_eq k PNone then v ++ unknown_data_of items'
      else unknown_data_of items'
  end.

Definition unknown_child (items : dict) : list node :=
  if nonempty (unknown_data_of items)
  then [Node ClsRollerUpper (PStr "Unknown") PNone (unknown_data_of items) None]
  else [].

(** What holds of the dictionary once the items [ds] have been put in: the
    keys are distinct, the group of a key holds the items with that value in
    their order in [ds], and every item is in a group. *)
Definition groups_of (py_exec : string → pyval → res pyval) (fn : string)
    (ds : list pyval) (g : dict) : Prop :=
  NoDup (dict_keys g) ∧
  (∀ k v, (k, v) ∈ g → v = filter (λ d, has_value py_exec fn k d = true) ds) ∧
  (∀ d, d ∈ ds → ∃ k, eval_field py_exec fn d = Ok k ∧ k ∈ dict_keys g) ∧
  flat_map snd g ≡ₚ ds.

(** [a > b] for two instances given by address. *)
Definition addr_gt (h : heap) (a b : addr) : res bool :=
  match h !! a, h !! b with
  | Some x, Some y => __gt__ x y
  | _, _ => Raise Stuck
  end.

(** A list of children is sorted ascending under [RU_COMPARATOR]: no child
    is greater than a child that comes after it. *)
Definition sorted_by_name (h : heap) (cs : list addr) : Prop :=
  StronglySorted (λ a b, addr_gt h a b = Ok false) cs.

(** The children are there and their names are strings. *)
Definition string_named (h : heap) (cs : list addr) : Prop :=
  Forall (λ c, ∃ nd s, h !! c = Some nd ∧ name nd = PStr s) cs.

(** The names of a list of children, as text. *)
Definition names_of (h : heap) (cs : list addr) : list string :=
  (λ c, match h !! c with
        | Some nd => py_str (name nd)
        | None => EmptyString
        end) <$> cs.

(** The store [h] extended by the instances [extra], in which the instance
    at [self] is [n] with the children [kids]. *)
Definition grouped (self : addr) (n : node) (kids : list addr) (h : heap)
    (extra : list node) : heap :=
  <[self := set_kids n (Some kids)]> (h ++ extra).

(** The synthetic child of the items without a grouping value. *)
Definition is_unknown_child (nd : node) : Prop :=
  name nd = PStr "Unknown" ∧ key nd = PNone.

(** The items of [ds] whose grouping value is [None], in their order. *)
Definition null_items (py_exec : string → pyval → res pyval)
    (field_name : string) (ds : list pyval) : list pyval :=
  filter (λ d, has_value py_exec field_name PNone d = true) ds.

(** Every instance with children holds the items of its children: the
    children are there and its items are theirs, taken together, up to
    order. *)
Definition items_match (h : heap) : Prop :=
  ∀ (a : addr) (n : node) (cs : list addr),
    h !! a = Some n → children n = Some cs →
    Forall (λ c, is_Some (h !! c)) cs ∧ data n ≡ₚ children_items h cs.

(** A computation that, when it returns, has kept [items_match]. *)
Definition keeps_items_match {A} (m : M A) : Prop :=
  ∀ h r h', items_match h → m h = (Ok r, h') → items_match h'.

(** The instance at [a] is there and the tree below it is at most [d]
    levels deep (a leaf has depth 0). *)
Fixpoint depth_le (h : heap) (d : nat) (a : addr) : bool :=
  match h !! a with
  | None => false
  | Some n =>
      match children n with
      | None => true
      | Some cs =>
          match d with
          | O => false
          | S d' => forallb (depth_le h d') cs
          end
      end
  end.

(** The matches of a search among the children [cs], and among all their
    descendants when [recursive]: each matching child, followed by the
    matches below it, in the order of the children.  [d] bounds the depth
    searched. *)
Fixpoint find_matches (h : heap) (d : nat) (name key : pyval)
    (recursive : bool) (cs : list addr) : list addr :=
  flat_map
    (λ c, match h !! c with
          | None => []
          | Some cn =>
              (if matches name key cn then [c] else []) ++
              (if recursive
               then match children cn, d with
                    | Some l, S d' => find_matches h d' name key recursive l
                    | _, _ => []
                    end
               else [])
          end) cs.

(** What a search that visits every child returns on a tree of depth at
    most [d] + 1, run from a store that extends [h]: a new instance whose
    children are the matches. *)
Definition search_returns (h : heap) (nm ky : pyval) (rec : bool) (d : nat)
    : Prop :=
  ∀ self n cs tmp,
    h !! self = Some n → children n = Some cs →
    forallb (depth_le h d) cs = true →
    ∃ tmp',
      get_children (S d) self nm ky rec false (h ++ tmp)
      = (Ok (length (h ++ tmp ++ tmp')),
         (h ++ tmp ++ tmp') ++
           [Node ClsRollerUpper nm ky
              (children_items h (find_matches h d nm ky rec cs))
              (Some (find_matches h d nm ky rec cs))]).

(** No instance that has children gets other children. *)
Definition keeps_children (h h' : heap) : Prop :=
  ∀ (a : addr) (n : node) (cs : list addr),
    h !! a = Some n → children n = Some cs →
    ∃ n', h' !! a = Some n' ∧ children n' = Some cs.

(** Every instance that is a leaf in [h] and has children in [h'] has them
    sorted by name, named by strings, and holding its items. *)
Definition leaves_grouped (h h' : heap) : Prop :=
  ∀ (a : addr) (n n' : node) (cs : list addr),
    h !! a = Some n → children n = None →
    h' !! a = Some n' → children n' = Some cs →
    sorted_by_name h' cs ∧ string_named h' cs ∧
    children_items h' cs ≡ₚ data n.

(** A computation that, however it ends, changes no instance: the store it
    leaves is the store it found, with instances added at its end. *)
Definition extends_store {A} (m : M A) : Prop :=
  ∀ h, ∃ t, (m h).2 = h ++ t.

(** Whether the instance at [c] matches the criteria. *)
Definition node_matches (h : heap) (name key : pyval) (c : addr) : bool :=
  match h !! c with
  | Some cn => matches name key cn
  | None => false
  end.

(** The instances below a list of children [cs]: each child, followed by
    the instances below it, in the order of the children.  [d] bounds the
    depth. *)
Fixpoint descendants (h : heap) (d : nat) (cs : list addr) : list addr :=
  flat_map
    (λ c, c :: match h !! c with
               | Some cn =>
                   match children cn, d with
                   | Some l, S d' => descendants h d' l
                   | _, _ => []
                   end
               | None => []
               end) cs.


(** The instance at [a] is a leaf, or there is a leaf below it within
    depth [d]. *)
Fixpoint has_leaf (h : heap) (d : nat) (a : addr) : bool :=
  match h !! a with
  | None => false
  | Some n =>
      match children n with
      | None => true
      | Some cs =>
          match d with
          | O => false
          | S d' => existsb (has_leaf h d') cs
          end
      end
  end.

(** The child that grouping makes for the grouping value [k] of the items
    [ds]: it holds the items with that value, in their order in [ds]. *)
Definition child_of_value (py_exec : string → pyval → res pyval)
    (field_name : string) (name_field : option string) (ds : list pyval)
    (k : pyval) : res node :=
  nk ← child_name_key name_field k;
  Ok (Node ClsRollerUpper nk.1 nk.2
        (filter (λ d, has_value py_exec field_name k d = true) ds) None).

(** The grouping value [k] occurs among the items [ds]. *)
Definition value_occurs (py_exec : string → pyval → res pyval)
    (field_name : string) (ds : list pyval) (k : pyval) : Prop :=
  ∃ d, d ∈ ds ∧ eval_field py_exec field_name d = Ok k.


(** The instance at [b] is the instance at [a] or is below it: it is
    reached from [a] through lists of children. *)
Inductive below (h : heap) : addr → addr → Prop :=
| below_refl (a : addr) : below h a a
| below_step (a : addr) (n : node) (cs : list addr) (c b : addr) :
    h !! a = Some n → children n = Some cs → c ∈ cs → below h c b →
    below h a b.

(** A store that holds RollerUpper instances only, no
    ImmutableRollerUpper. *)
Definition only_rollerupper (h : heap) : Prop :=
  Forall (λ n, cls n = ClsRollerUpper) h.

(** ** Sample data *)

(** An interpreter for the snippets that are chains of attribute names, as
    in [date.year]; other snippets raise.  It serves to run the operations
    on sample data; the properties are proved for every interpreter. *)
Fixpoint split_dots (s cur : string) : list string :=
  match s with
  | EmptyString => [cur]
  | String c s' =>
      if Ascii.eqb c "."
      then cur :: split_dots s' EmptyString
      else split_dots s' (String.append cur (String c EmptyString))
  end.

Definition attr_chain (code : string) (d : pyval) : res pyval :=
  foldl (λ r f, v ← r; getattr v f) (Ok d) (split_dots code EmptyString).

(** A dictionary that yields its entries in the order of their
    insertion. *)
Definition insertion_order (g : dict) : dict := g.

(** Three transactions and a leaf that holds them. *)
Definition tx (id : Z) (year category : pyval) : pyval :=
  PObj "tx" [("id", PInt id); ("year", year); ("category", category)].

Definition sample_items : list pyval :=
  [tx 1 (PInt 2021) (PStr "b"); tx 2 (PInt 2020) PNone;
   tx 3 (PInt 2021) (PStr "a")].

Definition sample_root : node :=
  Node ClsRollerUpper (PStr "root") PNone sample_items None.

Definition sample_store : heap := [sample_root].

(** A tree of three levels: a root, below it a node, below that a leaf
    named "x"; the keys are 0, 1 and 2. *)
Definition nested_store : heap :=
  [Node ClsRollerUpper (PStr "x") (PInt 2) sample_items None;
   Node ClsRollerUpper (PStr "a") (PInt 1) sample_items (Some [0]);
   Node ClsRollerUpper (PStr "root") (PInt 0) sample_items (Some [1])].

(** An ImmutableRollerUpper built from one child that holds the sample
    items, and one built from a child without items. *)
Definition immutable_store : heap :=
  [Node ClsRollerUpper (PStr "c") PNone sample_items None;
   Node ClsImmutableRollerUpper (PStr "n") PNone sample_items (Some [0])].

Definition immutable_empty_store : heap :=
  [Node ClsRollerUpper (PStr "c") PNone [] None;
   Node ClsImmutableRollerUpper (PStr "n") PNone [] (Some [0])].

(** An object with two integer fields. *)
Definition point (a b : Z) : pyval :=
  PObj "point" [("a", PInt a); ("b", PInt b)].

(** * Properties *)

(** ** The ordering of strings *)

Lemma string_compare_refl (s : string) : String.compare s s = Eq.
Proof.
  induction s as [|c s IH]; simpl; [reflexivity |].
  unfold Ascii.compare. rewrite N.compare_refl. exact IH.
Qed.

Lemma string_compare_lt_trans (s t u : string) :
  String.compare s t = Lt → String.compare t u = Lt → String.compare s u = Lt.
Proof.
  revert t u. induction s as [|a s IH]; intros [|b t] [|c u]; simpl;
    try discriminate; try reflexivity.
  destruct (Ascii.compare a b) eqn:Hab; try discriminate;
    destruct (Ascii.compare b c) eqn:Hbc; try discriminate; intros H1 H2.
  - apply Ascii.compare_eq_iff in Hab, Hbc. subst.
    unfold Ascii.compare. rewrite N.compare_refl. eauto.
  - apply Ascii.compare_eq_iff in Hab. subst. rewrite Hbc. reflexivity.
  - apply Ascii.compare_eq_iff in Hbc. subst. rewrite Hab. reflexivity.
  - unfold Ascii.compare in *. rewrite N.compare_lt_iff in Hab, Hbc.
    assert (N_of_ascii a < N_of_ascii c)%N as Hac by lia.
    rewrite <- N.compare_lt_iff in Hac. rewrite Hac. reflexivity.
Qed.

Lemma string_ltb_irrefl (s : string) : String.ltb s s = false.
Proof. unfold String.ltb. rewrite string_compare_refl. reflexivity. Qed.

Lemma string_ltb_trans (s t u : string) :
  String.ltb s t = true → String.ltb t u = true → String.ltb s u = true.
Proof.
  unfold String.ltb. intros H1 H2.
  destruct (String.compare s t) eqn:E1; try discriminate.
  destruct (String.compare t u) eqn:E2; try discriminate.
  rewrite (string_compare_lt_trans _ _ _ E1 E2). reflexivity.
Qed.

Lemma string_ltb_asym (s t : string) :
  String.ltb s t = true → String.ltb t s = false.
Proof.
  unfold String.ltb. rewrite (String.compare_antisym t s).
  destruct (String.compare s t); simpl; congruence.
Qed.

Lemma string_ltb_total (s t : string) :
  s ≠ t → String.ltb s t = true ∨ String.ltb t s = true.
Proof.
  intros Hne. unfold String.ltb. rewrite (String.compare_antisym t s).
  destruct (String.compare s t) eqn:E; simpl; auto.
  apply String.compare_eq_iff in E. contradiction.
Qed.

(** "Not smaller" is transitive on strings. *)
Lemma string_nlt_trans (s t u : string) :
  String.ltb t s = false → String.ltb u t = false → String.ltb u s = false.
Proof.
  intros H1 H2. destruct (String.ltb u s) eqn:E; [| reflexivity].
  destruct (decide (t = s)) as [->|Hts]; [congruence |].
  destruct (string_ltb_total t s Hts) as [H|H]; [congruence |].
  rewrite (string_ltb_trans _ _ _ E H) in H2. discriminate.
Qed.

(** ** GenericComparator is a strict order on comparable keys *)

Lemma py_eq_true (x y : pyval) : py_eq x y = true ↔ x = y.
Proof. unfold py_eq. apply bool_decide_eq_true. Qed.

Lemma py_eq_false (x y : pyval) : py_eq x y = false ↔ x ≠ y.
Proof. unfold py_eq. apply bool_decide_eq_false. Qed.

Lemma py_eq_refl (x : pyval) : py_eq x x = true.
Proof. by apply py_eq_true. Qed.

Lemma py_eq_sym (x y : pyval) : py_eq x y = py_eq y x.
Proof.
  destruct (py_eq y x) eqn:E.
  - apply py_eq_true in E. subst. apply py_eq_refl.
  - apply py_eq_false in E. apply py_eq_false. congruence.
Qed.

Lemma py_gt_lt (x y : pyval) : py_gt x y = py_lt y x.
Proof. by destruct x, y. Qed.

Lemma py_lt_irrefl (x : pyval) : py_lt x x ≠ Ok true.
Proof.
  destruct x; simpl; try discriminate.
  - rewrite Z.ltb_irrefl. discriminate.
  - rewrite string_ltb_irrefl. discriminate.
Qed.

Lemma py_lt_trans (x y z : pyval) :
  py_lt x y = Ok true → py_lt y z = Ok true → py_lt x z = Ok true.
Proof.
  destruct x, y; simpl; try discriminate; destruct z; simpl;
    try discriminate; intros [= H1] [= H2]; f_equal.
  - apply Z.ltb_lt. apply Z.ltb_lt in H1, H2. lia.
  - eapply string_ltb_trans; eauto.
Qed.

Lemma py_lt_asym (x y : pyval) : py_lt x y = Ok true → py_lt y x = Ok false.
Proof.
  destruct x, y; simpl; try discriminate; intros [= H]; f_equal.
  - apply Z.ltb_lt in H. apply Z.ltb_ge. lia.
  - by apply string_ltb_asym.
Qed.

(** Two different values that are ordered at all are ordered one way. *)
Lemma py_lt_total (x y : pyval) (b : bool) :
  x ≠ y → py_lt x y = Ok b → py_lt y x = Ok (negb b).
Proof.
  destruct x, y; simpl; try discriminate; intros Hne [= <-]; f_equal.
  - assert (n ≠ n0) by congruence.
    destruct (Z.ltb_spec n n0), (Z.ltb_spec n0 n); simpl; auto; lia.
  - assert (s ≠ s0) as Hs by congruence.
    destruct (string_ltb_total _ _ Hs) as [E|E]; rewrite E;
      apply string_ltb_asym in E; rewrite E; reflexivity.
Qed.

Lemma list_gt_lt (k1 k2 : list pyval) : list_gt k1 k2 = list_lt k2 k1.
Proof.
  revert k2. induction k1 as [|x k1 IH]; intros [|y k2]; simpl; auto.
  rewrite py_eq_sym, py_gt_lt, IH. reflexivity.
Qed.

Lemma list_lt_irrefl (k : list pyval) : list_lt k k = Ok false.
Proof. induction k; simpl; [done |]. by rewrite py_eq_refl. Qed.

Lemma list_lt_asym (k1 k2 : list pyval) :
  list_lt k1 k2 = Ok true → list_lt k2 k1 = Ok false.
Proof.
  revert k2. induction k1 as [|x k1 IH]; intros [|y k2]; simpl; try done.
  rewrite (py_eq_sym y x). destruct (py_eq x y); [apply IH | apply py_lt_asym].
Qed.

Lemma list_lt_total (k1 k2 : list pyval) (b : bool) :
  k1 ≠ k2 → list_lt k1 k2 = Ok b → list_lt k2 k1 = Ok (negb b).
Proof.
  revert k2 b. induction k1 as [|x k1 IH]; intros [|y k2] b Hne; simpl;
    try done; try (by intros [= <-]).
  rewrite (py_eq_sym y x). destruct (py_eq x y) eqn:E.
  - apply py_eq_true in E. subst. apply IH. congruence.
  - apply py_eq_false in E. by apply py_lt_total.
Qed.

Lemma list_lt_trans (k1 k2 k3 : list pyval) :
  list_lt k1 k2 = Ok true → list_lt k2 k3 = Ok true → list_lt k1 k3 = Ok true.
Proof.
  revert k2 k3. induction k1 as [|x k1 IH]; intros [|y k2] [|z k3]; simpl;
    try done.
  destruct (decide (x = y)) as [->|Hxy]; destruct (decide (y = z)) as [->|Hyz];
    rewrite ?py_eq_refl;
    repeat match goal with
           | H : _ ≠ _ |- _ => apply py_eq_false in H; rewrite ?H
           end; try done.
  - apply IH.
  - intros H1 H2. pose proof (py_lt_trans _ _ _ H1 H2) as H13.
    destruct (py_eq x z) eqn:Exz; [| done].
    apply py_eq_true in Exz. subst. by destruct (py_lt_irrefl z).
Qed.

(** What [list_lt] computes on two keys of one length. *)
Lemma list_lt_first_diff (k1 k2 : list pyval) :
  length k1 = length k2 →
  list_lt k1 k2 = Ok true ↔ first_diff_decides py_lt k1 k2.
Proof.
  revert k2. induction k1 as [|x k1 IH]; intros [|y k2] Hlen; simpl in *;
    try done.
  - split; [done |]. intros (i & a & b & _ & H & _). by destruct i.
  - injection Hlen as Hlen. destruct (py_eq x y) eqn:E.
    + apply py_eq_true in E. subst. rewrite (IH _ Hlen). split.
      * intros (i & a & b & Ht & H1 & H2 & Hne & Hlt).
        exists (S i), a, b. simpl. by rewrite Ht.
      * intros (i & a & b & Ht & H1 & H2 & Hne & Hlt).
        destruct i as [|i]; simpl in *; [congruence |].
        exists i, a, b. repeat split; try done. congruence.
    + apply py_eq_false in E. split.
      * intros H. by exists 0, x, y.
      * intros (i & a & b & Ht & H1 & H2 & Hne & Hlt).
        destruct i as [|i]; simpl in *; congruence.
Qed.

Lemma first_diff_decides_gt (k1 k2 : list pyval) :
  first_diff_decides py_gt k1 k2 ↔ first_diff_decides py_lt k2 k1.
Proof.
  split; intros (i & a & b & Ht & H1 & H2 & Hne & Hlt); exists i, b, a;
    rewrite ?py_gt_lt in *; rewrite <- ?py_gt_lt in *; repeat split; done.
Qed.

Section ComparatorOrder.
Context {O : Type} `{HasAttr O}.
Variable fs : list string.
Import GenericComparator.

Lemma _key_of_length (l : list string) (o : O) (k : list pyval) :
  _key_of l o = Ok k → length k = length l.
Proof.
  revert k. induction l as [|x l IH]; simpl; intros k.
  - by intros [= <-].
  - destruct (getattr o x); simpl; [| done].
    destruct (_key_of l o); simpl; [| done].
    intros [= <-]. simpl. f_equal. by apply IH.
Qed.

Lemma comparable_keys (a b : O) :
  comparable fs a b →
  ∃ ka kb r, _key fs a = Ok ka ∧ _key fs b = Ok kb ∧ list_lt ka kb = Ok r.
Proof.
  intros [r Hr]. unfold lt in Hr.
  destruct (_key fs a) as [ka|]; simpl in Hr; [| done].
  destruct (_key fs b) as [kb|]; simpl in Hr; [| done].
  by exists ka, kb, r.
Qed.

(** C9: for objects a, b, c that are comparable under the field list,
    exactly one of lt(a,b), gt(a,b), eq(a,b) holds; lt and gt hold exactly
    when the first field at which the two keys differ decides so; and lt,
    gt and eq are transitive. *)
Theorem comparator_total_order (a b c : O) :
  comparable fs a b → comparable fs b c → comparable fs a c →
  exactly_one (lt fs a b = Ok true) (gt fs a b = Ok true)
              (eq fs a b = Ok true)
  ∧ (∃ ka kb, _key fs a = Ok ka ∧ _key fs b = Ok kb ∧
       (lt fs a b = Ok true ↔ first_diff_decides py_lt ka kb) ∧
       (gt fs a b = Ok true ↔ first_diff_decides py_gt ka kb))
  ∧ (lt fs a b = Ok true → lt fs b c = Ok true → lt fs a c = Ok true)
  ∧ (gt fs a b = Ok true → gt fs b c = Ok true → gt fs a c = Ok true)
  ∧ (eq fs a b = Ok true → eq fs b c = Ok true → eq fs a c = Ok true).
Proof.
  intros Hab Hbc Hac.
  destruct (comparable_keys _ _ Hab) as (ka & kb & r & Ha & Hb & Hr).
  destruct (comparable_keys _ _ Hbc) as (kb' & kc & r' & Hb' & Hc & Hr').
  assert (kb' = kb) as -> by congruence.
  assert (length ka = length kb) as Hlen.
  { rewrite (_key_of_length _ _ _ Ha), (_key_of_length _ _ _ Hb). done. }
  unfold lt, gt, eq. rewrite Ha, Hb, Hc. simpl.
  rewrite !list_gt_lt. unfold list_eq.
  split; [| split; [| split; [| split]]].
  - unfold exactly_one. destruct (decide (ka = kb)) as [->|Hne].
    + right; right. rewrite list_lt_irrefl, bool_decide_eq_true_2 by done.
      repeat split; done.
    + rewrite (bool_decide_eq_false_2 _ Hne).
      pose proof (list_lt_total _ _ _ Hne Hr) as Hr2.
      rewrite Hr, Hr2. destruct r; simpl; [left | right; left];
        repeat split; done.
  - exists ka, kb. split; [done |]. split; [done |]. split.
    + by apply list_lt_first_diff.
    + rewrite first_diff_decides_gt. by apply list_lt_first_diff.
  - apply list_lt_trans.
  - intros ??. by apply (list_lt_trans kc kb ka).
  - intros [= E1] [= E2]. apply bool_decide_eq_true in E1, E2. subst.
    by rewrite bool_decide_eq_true_2.
Qed.
End ComparatorOrder.

Lemma comparator_total_order_witness :
  let fs := ["a"; "b"] in
  let x := PObj "x" [("a", PInt 1); ("b", PStr "p")] in
  let y := PObj "y" [("a", PInt 1); ("b", PStr "q")] in
  let z := PObj "z" [("a", PInt 2); ("b", PStr "a")] in
  GenericComparator.lt fs x y = Ok true ∧
  GenericComparator.lt fs y z = Ok true ∧
  GenericComparator.lt fs x z = Ok true.
Proof.
  intros fs x y z.
  assert (comparable fs x y) as Hxy by (by exists true).
  assert (comparable fs y z) as Hyz by (by exists true).
  assert (comparable fs x z) as Hxz by (by exists true).
  destruct (comparator_total_order fs x y z Hxy Hyz Hxz)
    as (_ & _ & Htrans & _).
  split; [reflexivity |]. split; [reflexivity |].
  apply Htrans; reflexivity.
Defined.

(** ** Reasoning about computations on the store *)

Lemma bind_ok {A B} (m : M A) (f : A → M B) h a h' :
  m h = (Ok a, h') → (m ≫= f) h = f a h'.
Proof. unfold mbind, M_bind, bind. by intros ->. Qed.

Lemma bind_raise {A B} (m : M A) (f : A → M B) h e h' :
  m h = (Raise e, h') → (m ≫= f) h = (Raise e, h').
Proof. unfold mbind, M_bind, bind. by intros ->. Qed.

Lemma bind_inv_ok {A B} (m : M A) (f : A → M B) h b h'' :
  (m ≫= f) h = (Ok b, h'') →
  ∃ a h', m h = (Ok a, h') ∧ f a h' = (Ok b, h'').
Proof.
  unfold mbind, M_bind, bind. destruct (m h) as [[a|e] h']; [eauto | done].
Qed.

Lemma bind_bind_ok {A B C} (m : M A) (f : A → M B) (g : B → M C) h a h' :
  m h = (Ok a, h') → ((m ≫= f) ≫= g) h = (f a ≫= g) h'.
Proof. unfold mbind, M_bind, bind. by intros ->. Qed.

Lemma ret_bind {A B} (a : A) (f : A → M B) : (ret a ≫= f) = f a.
Proof. reflexivity. Qed.

Lemma get_node_ok h a n : h !! a = Some n → get_node a h = (Ok n, h).
Proof. unfold get_node. by intros ->. Qed.

Lemma get_node_inv h a n h' :
  get_node a h = (Ok n, h') → h !! a = Some n ∧ h' = h.
Proof. unfold get_node. destruct (h !! a); naive_solver. Qed.

Lemma set_children_ok h a n v :
  h !! a = Some n →
  set_children a v h = (Ok tt, <[a := set_kids n v]> h).
Proof. unfold set_children. by intros ->. Qed.

(** ** The frame of every operation: only [children] attributes change *)

Lemma same_but_children_refl n : same_but_children n n.
Proof. by repeat split. Qed.

Lemma same_but_children_trans n1 n2 n3 :
  same_but_children n1 n2 → same_but_children n2 n3 → same_but_children n1 n3.
Proof. unfold same_but_children. intuition congruence. Qed.

Lemma frame_refl h : frame h h.
Proof. intros b nb Hb. eauto using same_but_children_refl. Qed.

Lemma frame_trans h1 h2 h3 : frame h1 h2 → frame h2 h3 → frame h1 h3.
Proof.
  intros H12 H23 b nb Hb.
  destruct (H12 _ _ Hb) as (nb' & Hb' & Hs).
  destruct (H23 _ _ Hb') as (nb'' & Hb'' & Hs').
  eauto using same_but_children_trans.
Qed.

Lemma frame_app h t : frame h (h ++ t).
Proof.
  intros b nb Hb. exists nb. split; [| apply same_but_children_refl].
  by apply lookup_app_l_Some.
Qed.

Lemma frame_set_children h a n v :
  h !! a = Some n →
  frame h (<[a := set_kids n v]> h).
Proof.
  intros Ha b nb Hb. destruct (decide (a = b)) as [->|Hne].
  - assert (nb = n) as -> by congruence.
    eexists. split.
    + apply list_lookup_insert_eq. by eapply lookup_lt_Some.
    + by repeat split.
  - exists nb. split; [| apply same_but_children_refl].
    by rewrite list_lookup_insert_ne.
Qed.

Lemma preserves_ret {A} (a : A) : preserves (ret a).
Proof. intros h. apply frame_refl. Qed.

Lemma preserves_mret {A} (a : A) : preserves (mret a : M A).
Proof. intros h. apply frame_refl. Qed.

Lemma preserves_raise {A} e : preserves (raise e : M A).
Proof. intros h. apply frame_refl. Qed.

Lemma preserves_lift {A} (r : res A) : preserves (lift r).
Proof. intros h. apply frame_refl. Qed.

Lemma preserves_bind {A B} (m : M A) (f : A → M B) :
  preserves m → (∀ a, preserves (f a)) → preserves (m ≫= f).
Proof.
  intros Hm Hf h. unfold mbind, M_bind, bind. specialize (Hm h).
  destruct (m h) as [[a|e] h']; simpl in *; [| done].
  eapply frame_trans; [done | apply Hf].
Qed.

Lemma preserves_get_node a : preserves (get_node a).
Proof. intros h. unfold get_node. destruct (h !! a); apply frame_refl. Qed.

Lemma preserves_alloc n : preserves (alloc n).
Proof. intros h. apply frame_app. Qed.

Lemma preserves_set_children a v : preserves (set_children a v).
Proof.
  intros h. unfold set_children. destruct (h !! a) eqn:E; simpl.
  - by apply frame_set_children.
  - apply frame_refl.
Qed.

Lemma preserves_asrt c msg : preserves (asrt c msg).
Proof. destruct c; [apply preserves_ret | apply preserves_raise]. Qed.

Lemma preserves_for_each {A} (f : A → M unit) l :
  (∀ x, preserves (f x)) → preserves (for_each f l).
Proof.
  intros Hf. induction l; simpl; [apply preserves_ret |].
  apply preserves_bind; auto.
Qed.

Lemma preserves_collect_data cs : preserves (collect_data cs).
Proof.
  induction cs; simpl; [apply preserves_ret |].
  apply preserves_bind; [apply preserves_get_node | intros n].
  apply preserves_bind; [done | intros r; apply preserves_ret].
Qed.

Create HintDb frame_db.
#[local] Hint Resolve preserves_ret preserves_mret preserves_raise
  preserves_lift preserves_get_node preserves_alloc preserves_set_children
  preserves_asrt preserves_collect_data : frame_db.

Ltac frame_step :=
  first [ solve [eauto with frame_db]
        | apply preserves_bind; [| intros ?]
        | match goal with
          | |- preserves (match ?x with _ => _ end) => destruct x
          | |- preserves (if ?x then _ else _) => destruct x
          end ].

Lemma preserves_init c nm ky d cs : preserves (__init__ c nm ky d cs).
Proof. unfold __init__. repeat frame_step. Qed.

Lemma preserves_append_child a c : preserves (append_child a c).
Proof. unfold append_child. repeat frame_step. Qed.

Lemma preserves_sort_addrs cs : preserves (sort_addrs cs).
Proof. intros h. apply frame_refl. Qed.

Lemma preserves_sort_children a : preserves (sort_children a).
Proof.
  unfold sort_children. repeat frame_step. apply preserves_sort_addrs.
Qed.

#[local] Hint Resolve preserves_init preserves_append_child
  preserves_sort_children : frame_db.

Section GroupingFrame.
Variable py_exec : string → pyval → res pyval.
Variable dict_items : dict → dict.

Lemma preserves_children_loop a nf items u :
  preserves (children_loop a nf items u).
Proof.
  revert u. induction items as [|[k v] items IH]; intros u; simpl.
  - apply preserves_ret.
  - destruct (py_eq k PNone); [apply IH |].
    unfold RollerUpper_init. repeat frame_step.
Qed.

Lemma preserves_group_by a fn nf : preserves (_group_by py_exec dict_items a fn nf).
Proof.
  unfold _group_by, build_children, RollerUpper_init.
  repeat first [ apply preserves_children_loop | frame_step ].
Qed.

Lemma preserves_mutable a : preserves (mutable a).
Proof. unfold mutable, RollerUpper_init. repeat frame_step. Qed.

Lemma preserves_group_hierarchy_by fuel a fn nf :
  preserves (group_hierarchy_by py_exec dict_items fuel a fn nf).
Proof.
  revert a. induction fuel as [|fuel IH]; intros a; simpl.
  - apply preserves_raise.
  - apply preserves_bind; [apply preserves_get_node | intros n].
    destruct (cls n).
    + destruct (children n).
      * apply preserves_bind; [| intros; apply preserves_ret].
        apply preserves_for_each. intros c.
        apply preserves_bind; [apply IH | intros; apply preserves_ret].
      * apply preserves_bind; [| intros; apply preserves_ret].
        apply preserves_group_by.
    + apply preserves_bind; [apply preserves_mutable | intros r].
      apply preserves_bind; [apply IH | intros; apply preserves_ret].
Qed.
End GroupingFrame.

(** ** The dictionary of groups *)

Lemma py_in_true (x : pyval) (l : list pyval) : py_in x l = true ↔ x ∈ l.
Proof.
  unfold py_in. rewrite existsb_exists. setoid_rewrite <- list_elem_of_In.
  split.
  - intros (y & Hy & E). apply py_eq_true in E. by subst.
  - intros Hx. exists x. split; [done | apply py_eq_refl].
Qed.

Lemma filter_none {A} (P : A → Prop) `{∀ x, Decision (P x)} (l : list A) :
  Forall (λ x, ¬ P x) l → filter P l = [].
Proof.
  induction 1 as [|x l Hx _ IH]; [done |]. by rewrite filter_cons_False.
Qed.

Lemma dict_setitem_fresh (k : pyval) (v : list pyval) (g : dict) :
  k ∉ dict_keys g → dict_setitem k v g = g ++ [(k, v)].
Proof.
  unfold dict_keys. induction g as [|[k' v'] g IH]; simpl; [done |].
  rewrite not_elem_of_cons. intros [Hne Hk].
  apply py_eq_false in Hne. rewrite Hne. by rewrite IH.
Qed.

Lemma dict_append_split (k d : pyval) (g : dict) :
  k ∈ dict_keys g →
  ∃ g1 v g2, g = g1 ++ ((k, v) :: g2) ∧ (k ∉ dict_keys g1) ∧
    dict_append k d g = Ok (g1 ++ ((k, (v ++ [d])) :: g2)).
Proof.
  unfold dict_keys. induction g as [|[k' v'] g IH]; simpl.
  - by rewrite elem_of_nil.
  - intros Hk. destruct (py_eq k k') eqn:E.
    + apply py_eq_true in E. subst k'. exists [], v', g. simpl.
      split; [done |]. split; [apply not_elem_of_nil | done].
    + apply py_eq_false in E. apply elem_of_cons in Hk as [? | Hk]; [done |].
      destruct (IH Hk) as (g1 & v & g2 & -> & Hg1 & ->).
      exists ((k', v') :: g1), v, g2. simpl. split; [done |].
      split; [| done]. rewrite not_elem_of_cons. done.
Qed.

Section GroupLoop.
Variable py_exec : string → pyval → res pyval.
Variable fn : string.

Lemma groups_of_nil : groups_of py_exec fn [] [].
Proof.
  repeat split.
  - apply NoDup_nil_2.
  - intros k v H. by apply elem_of_nil in H.
  - intros d H. by apply elem_of_nil in H.
  - done.
Qed.

Lemma has_value_true k d :
  has_value py_exec fn k d = true ↔ eval_field py_exec fn d = Ok k.
Proof. unfold has_value. apply bool_decide_eq_true. Qed.

Lemma filter_has_value_snoc k ds d val :
  eval_field py_exec fn d = Ok val →
  filter (λ d, has_value py_exec fn k d = true) (ds ++ [d]) =
  filter (λ d, has_value py_exec fn k d = true) ds ++
    (if decide (val = k) then [d] else []).
Proof.
  intros Hd. rewrite filter_app. f_equal.
  rewrite filter_cons, filter_nil.
  destruct (decide (val = k)) as [->|Hne].
  - rewrite decide_True; [done |]. by apply has_value_true.
  - rewrite decide_False; [done |]. rewrite has_value_true. congruence.
Qed.

Lemma group_step_ok ds g d val :
  groups_of py_exec fn ds g →
  eval_field py_exec fn d = Ok val →
  ∃ g',
    dict_append val d
      (if negb (py_in val (dict_keys g)) then dict_setitem val [] g else g)
      = Ok g' ∧
    groups_of py_exec fn (ds ++ [d]) g'.
Proof.
  unfold groups_of. intros (Hnd & Hfil & Hcov & Hperm) Hd.
  set (g0 := if negb (py_in val (dict_keys g))
             then dict_setitem val [] g else g).
  assert (NoDup (dict_keys g0) ∧ val ∈ dict_keys g0 ∧
          (∀ k v, (k, v) ∈ g0 →
             v = filter (λ d, has_value py_exec fn k d = true) ds) ∧
          (∀ k, k ∈ dict_keys g → k ∈ dict_keys g0) ∧
          flat_map snd g0 ≡ₚ ds) as (Hnd0 & Hin0 & Hfil0 & Hsub0 & Hperm0).
  { subst g0. destruct (py_in val (dict_keys g)) eqn:Ein; simpl.
    - apply py_in_true in Ein. done.
    - assert (val ∉ dict_keys g) as Hnin.
      { intros H. apply py_in_true in H. congruence. }
      rewrite (dict_setitem_fresh _ _ _ Hnin). unfold dict_keys in *.
      rewrite fmap_app. simpl. repeat split.
      + apply NoDup_app. split; [done |]. split; [| apply NoDup_singleton].
        intros x Hx Hx'. apply list_elem_of_singleton in Hx'. by subst.
      + apply elem_of_app. right. by apply list_elem_of_singleton.
      + intros k v Hkv. apply elem_of_app in Hkv as [Hkv | Hkv]; [eauto |].
        apply list_elem_of_singleton in Hkv. injection Hkv as -> ->.
        symmetry. apply filter_none, Forall_forall. intros d' Hd'.
        rewrite has_value_true. intros Hv.
        destruct (Hcov _ Hd') as (k' & Hk' & Hin'). congruence.
      + intros k Hk. apply elem_of_app. by left.
      + rewrite flat_map_app. simpl. by rewrite !app_nil_r. }
  clearbody g0.
  destruct (dict_append_split val d g0 Hin0) as (g1 & v & g2 & -> & Hg1 & ->).
  eexists. split; [done |].
  unfold dict_keys in *. rewrite fmap_app in *. simpl in *.
  repeat split.
  - done.
  - intros k v' Hkv. rewrite (filter_has_value_snoc _ _ _ _ Hd).
    apply elem_of_app in Hkv as [Hkv | Hkv].
    + assert (k ≠ val) as Hne.
      { intros ->. apply Hg1. apply list_elem_of_fmap. by exists (val, v'). }
      rewrite decide_False by done. rewrite app_nil_r.
      apply Hfil0. apply elem_of_app. by left.
    + apply elem_of_cons in Hkv as [Hkv | Hkv].
      * injection Hkv as -> ->. rewrite decide_True by done. f_equal.
        apply Hfil0. apply elem_of_app. right. by left.
      * assert (k ≠ val) as Hne.
        { intros ->. apply NoDup_app in Hnd0 as (_ & _ & Hnd0).
          apply NoDup_cons in Hnd0 as [Hnd0 _]. apply Hnd0.
          apply list_elem_of_fmap. by exists (val, v'). }
        rewrite decide_False by done. rewrite app_nil_r.
        apply Hfil0. apply elem_of_app. right. by right.
  - intros d' Hd'. apply elem_of_app in Hd' as [Hd' | Hd'].
    + destruct (Hcov _ Hd') as (k & Hk & Hin). exists k. split; [done |].
      by apply Hsub0.
    + apply list_elem_of_singleton in Hd'. subst d'. eauto.
  - rewrite flat_map_app in *. simpl in *. rewrite <- Hperm0.
    rewrite <- !app_assoc. do 2 apply Permutation_app_head.
    apply Permutation_app_comm.
Qed.

Lemma group_loop_ok ds0 ds g :
  groups_of py_exec fn ds0 g →
  Forall (λ d, ∃ k, eval_field py_exec fn d = Ok k) ds →
  ∃ g', group_loop py_exec fn ds g = Ok g' ∧ groups_of py_exec fn (ds0 ++ ds) g'.
Proof.
  revert ds0 g. induction ds as [|d ds IH]; intros ds0 g Hg Hall; simpl.
  - exists g. by rewrite app_nil_r.
  - apply Forall_cons in Hall as [[val Hd] Hall]. rewrite Hd. simpl.
    destruct (group_step_ok _ _ _ _ Hg Hd) as (g1 & -> & Hg1). simpl.
    destruct (IH _ _ Hg1 Hall) as (g' & -> & Hg').
    exists g'. split; [done |]. by rewrite <- app_assoc in Hg'.
Qed.

Lemma group_loop_inv ds g g' :
  group_loop py_exec fn ds g = Ok g' →
  Forall (λ d, ∃ k, eval_field py_exec fn d = Ok k) ds.
Proof.
  revert g. induction ds as [|d ds IH]; intros g; simpl; [by constructor |].
  destruct (eval_field py_exec fn d) as [val|] eqn:Hd; simpl; [| done].
  destruct (dict_append val d _) as [g1|]; simpl; [| done].
  intros H. constructor; eauto.
Qed.

(** The first loop succeeds exactly when every item has a grouping value,
    and then the dictionary holds the groups of the items. *)
Lemma group_loop_groups ds g :
  group_loop py_exec fn ds [] = Ok g → groups_of py_exec fn ds g.
Proof.
  intros H. pose proof (group_loop_inv _ _ _ H) as Hall.
  destruct (group_loop_ok [] ds [] groups_of_nil Hall) as (g' & Hg' & Hinv).
  simpl in Hinv. congruence.
Qed.
End GroupLoop.

(** The facts about the groups do not depend on their order. *)
Lemma groups_of_perm py_exec fn ds (g g' : dict) :
  g' ≡ₚ g → groups_of py_exec fn ds g → groups_of py_exec fn ds g'.
Proof.
  intros Hp (Hnd & Hfil & Hcov & Hperm). unfold groups_of, dict_keys in *.
  repeat split.
  - by rewrite Hp.
  - intros k v Hkv. apply Hfil. by rewrite <- Hp.
  - intros d Hd. destruct (Hcov _ Hd) as (k & Hk & Hin).
    exists k. split; [done |]. by rewrite Hp.
  - rewrite <- Hperm. by apply Permutation_flat_map.
Qed.

(** ** Sorting with a total order on strings *)

Section SortFacts.
Context {A : Type} (lt : A → A → res bool) (nm : A → string).

Let R (x y : A) : Prop := String.ltb (nm y) (nm x) = false.

Lemma insert_by_ok (x : A) (l : list A) :
  (∀ y, y ∈ l → lt y x = Ok (String.ltb (nm y) (nm x))) →
  StronglySorted R l →
  ∃ l', insert_by lt x l = Ok l' ∧ l' ≡ₚ x :: l ∧ StronglySorted R l'.
Proof.
  induction l as [|y l IH]; intros Hlt Hs; simpl.
  - exists [x]. repeat split; [done |]. repeat constructor.
  - rewrite (Hlt y) by (by left). simpl.
    apply StronglySorted_inv in Hs as [Hs Hy].
    destruct (String.ltb (nm y) (nm x)) eqn:E.
    + destruct IH as (l' & -> & Hp & Hs'); [| done |].
      { intros z Hz. apply Hlt. by right. }
      simpl. exists (y :: l'). split; [done |]. split.
      * rewrite Hp. apply perm_swap.
      * constructor; [done |]. rewrite Hp. constructor; [| done].
        unfold R. by apply string_ltb_asym.
    + exists (x :: y :: l). split; [done |]. split; [done |].
      constructor; [by constructor |]. constructor; [done |].
      eapply Forall_impl; [exact Hy |]. intros z Hz. unfold R in *.
      by eapply string_nlt_trans.
Qed.

Lemma list_sort_ok (l : list A) :
  (∀ x y, x ∈ l → y ∈ l → lt x y = Ok (String.ltb (nm x) (nm y))) →
  ∃ l', list_sort lt l = Ok l' ∧ l' ≡ₚ l ∧ StronglySorted R l'.
Proof.
  induction l as [|x l IH]; intros Hlt; simpl.
  - exists []. repeat split; [done | constructor].
  - destruct IH as (s & -> & Hp & Hs).
    { intros y z Hy Hz. apply Hlt; by right. }
    simpl. destruct (insert_by_ok x s) as (l' & -> & Hp' & Hs'); [| done |].
    { intros y Hy. rewrite Hp in Hy. apply Hlt; [by right | by left]. }
    exists l'. split; [done |]. split; [| done]. by rewrite Hp', Hp.
Qed.
End SortFacts.

(** The comparison of two instances whose names are strings. *)
Lemma lt_string_names (x y : node) (s t : string) :
  name x = PStr s → name y = PStr t → __lt__ x y = Ok (String.ltb s t).
Proof.
  intros Hx Hy. unfold __lt__, GenericComparator.lt, GenericComparator._key.
  simpl. unfold getattr, node_has_attr, node_getattr. simpl.
  rewrite Hx, Hy. destruct (py_eq (PStr s) (PStr t)) eqn:E; [| done].
  apply py_eq_true in E. injection E as ->. by rewrite string_ltb_irrefl.
Qed.

Lemma gt_string_names (x y : node) (s t : string) :
  name x = PStr s → name y = PStr t → __gt__ x y = Ok (String.ltb t s).
Proof.
  intros Hx Hy. unfold __gt__, GenericComparator.gt, GenericComparator._key.
  simpl. unfold getattr, node_has_attr, node_getattr. simpl.
  rewrite Hx, Hy. destruct (py_eq (PStr s) (PStr t)) eqn:E; [| done].
  apply py_eq_true in E. injection E as ->. by rewrite string_ltb_irrefl.
Qed.

(** Sorting children whose names are strings succeeds, permutes them and
    leaves them sorted by name. *)
Lemma sort_addrs_ok (h : heap) (cs : list addr) :
  string_named h cs →
  ∃ s, list_sort (addr_lt h) cs = Ok s ∧ s ≡ₚ cs ∧ sorted_by_name h s.
Proof.
  intros Hn. unfold string_named in Hn. rewrite Forall_forall in Hn.
  destruct (list_sort_ok (addr_lt h)
              (λ a, match h !! a with
                    | Some nd => py_str (name nd)
                    | None => ""
                    end) cs) as (s & Hs & Hp & Hsorted).
  { intros a b Ha Hb.
    destruct (Hn _ Ha) as (na & sa & Ea & Hna).
    destruct (Hn _ Hb) as (nb & sb & Eb & Hnb).
    unfold addr_lt. rewrite Ea, Eb, Hna, Hnb. simpl.
    by apply lt_string_names. }
  exists s. split; [done |]. split; [done |].
  assert (Forall (λ a, a ∈ cs) s) as Hin.
  { apply Forall_forall. intros a Ha. by rewrite <- Hp. }
  unfold sorted_by_name. clear Hs Hp.
  induction Hsorted as [|a l Hl IH Ha]; [constructor |].
  apply Forall_cons in Hin as [Hacs Hin]. constructor; [by apply IH |].
  rewrite Forall_forall in Ha, Hin |- *. intros b Hb.
  destruct (Hn _ Hacs) as (na & sa & Ea & Hna).
  destruct (Hn _ (Hin _ Hb)) as (nb & sb & Eb & Hnb).
  specialize (Ha _ Hb). simpl in Ha. rewrite Ea, Eb, Hna, Hnb in Ha.
  simpl in Ha. unfold addr_gt. rewrite Ea, Eb.
  rewrite (gt_string_names _ _ _ _ Hna Hnb). by f_equal.
Qed.

(** ** The second loop of [_group_by] in closed form *)

Lemma set_kids_set_kids n v w : set_kids (set_kids n v) w = set_kids n w.
Proof. done. Qed.

Lemma set_kids_id n v : children n = v → set_kids n v = n.
Proof. destruct n. simpl. by intros ->. Qed.

Lemma init_leaf_ok c nm ky v h :
  __init__ c nm ky (Some v) None h = (Ok (length h), h ++ [Node c nm ky v None]).
Proof. by destruct v. Qed.

Lemma append_child_ok h self n cs c :
  h !! self = Some n → children n = Some cs →
  append_child self c h = (Ok tt, <[self := set_kids n (Some (cs ++ [c]))]> h).
Proof.
  intros Hn Hcs. unfold append_child.
  rewrite (bind_ok _ _ _ _ _ (get_node_ok _ _ _ Hn)). rewrite Hcs.
  by apply set_children_ok.
Qed.

Section Grouped.
Variables (self : addr) (n : node) (h : heap).
Hypothesis Hself : self < length h.

Lemma grouped_lookup_self kids extra :
  grouped self n kids h extra !! self = Some (set_kids n (Some kids)).
Proof.
  unfold grouped. apply list_lookup_insert_eq. rewrite length_app. lia.
Qed.

Lemma grouped_length kids extra :
  length (grouped self n kids h extra) = length h + length extra.
Proof. unfold grouped. by rewrite length_insert, length_app. Qed.

Lemma grouped_lookup_new kids extra i :
  grouped self n kids h extra !! (length h + i) = extra !! i.
Proof.
  unfold grouped. rewrite list_lookup_insert_ne by lia.
  rewrite lookup_app_r by lia. f_equal. lia.
Qed.

Lemma grouped_lookup_old kids extra b :
  b ≠ self → b < length h → grouped self n kids h extra !! b = h !! b.
Proof.
  intros Hne Hb. unfold grouped. rewrite list_lookup_insert_ne by done.
  by apply lookup_app_l.
Qed.

Lemma grouped_alloc kids extra c :
  grouped self n kids h extra ++ [c] = grouped self n kids h (extra ++ [c]).
Proof.
  unfold grouped. rewrite <- insert_app_l by (rewrite length_app; lia).
  by rewrite <- app_assoc.
Qed.

Lemma grouped_set_children kids kids' extra :
  set_children self (Some kids') (grouped self n kids h extra)
  = (Ok tt, grouped self n kids' h extra).
Proof.
  rewrite (set_children_ok _ _ _ _ (grouped_lookup_self kids extra)).
  unfold grouped. by rewrite list_insert_insert_eq.
Qed.

Lemma grouped_append_child kids extra c :
  append_child self c (grouped self n kids h extra)
  = (Ok tt, grouped self n (kids ++ [c]) h extra).
Proof.
  rewrite (append_child_ok _ _ _ kids _ (grouped_lookup_self kids extra))
    by done.
  unfold grouped. by rewrite list_insert_insert_eq.
Qed.

Lemma children_loop_ok nf items : ∀ kids extra u ns,
  new_children nf items = Ok ns →
  children_loop self nf items u (grouped self n kids h extra)
  = (Ok (u ++ unknown_data_of items),
     grouped self n (kids ++ seq (length h + length extra) (length ns)) h
             (extra ++ ns)).
Proof.
  induction items as [|[k v] items IH]; intros kids extra u ns; simpl.
  - intros [= <-]. by rewrite !app_nil_r.
  - destruct (py_eq k PNone) eqn:Ek.
    + intros Hns. rewrite (IH _ _ _ _ Hns). by rewrite <- app_assoc.
    + destruct (child_name_key nf k) as [nk|] eqn:Enk; simpl; [| done].
      destruct (new_children nf items) as [rest|] eqn:Erest; simpl;
        [| done].
      intros [= <-]. unfold mbind, M_bind, bind, lift.
      unfold RollerUpper_init. rewrite init_leaf_ok, grouped_alloc.
      rewrite grouped_append_child. rewrite (IH _ _ _ _ eq_refl).
      rewrite grouped_length. simpl. rewrite <- !app_assoc. simpl.
      rewrite length_app. simpl.
      by replace (length h + (length extra + 1))
        with (S (length h + length extra)) by lia.
Qed.
End Grouped.

Lemma children_loop_inv nf items : ∀ self u h u' h',
  children_loop self nf items u h = (Ok u', h') →
  ∃ ns, new_children nf items = Ok ns.
Proof.
  induction items as [|[k v] items IH]; intros self u h u' h'; simpl.
  - eauto.
  - destruct (py_eq k PNone); [apply IH |].
    intros H. apply bind_inv_ok in H as (nk & h1 & Hnk & H).
    unfold lift in Hnk. injection Hnk as Hnk _. rewrite Hnk. simpl.
    apply bind_inv_ok in H as (c & h2 & _ & H).
    apply bind_inv_ok in H as (? & h3 & _ & H).
    apply IH in H as (ns & ->). simpl. eauto.
Qed.

Lemma new_children_named nf items ns :
  new_children nf items = Ok ns →
  Forall (λ nd, ∃ s, name nd = PStr s) ns.
Proof.
  revert ns. induction items as [|[k v] items IH]; intros ns; simpl.
  - intros [= <-]. constructor.
  - destruct (py_eq k PNone); [apply IH |].
    unfold child_name_key.
    destruct (name_field_given nf) as [f|].
    + destruct (getattr k f) as [ky|]; simpl; [| done].
      destruct (new_children nf items); simpl; [| done].
      intros [= <-]. constructor; eauto.
    + simpl. destruct (new_children nf items); simpl; [| done].
      intros [= <-]. constructor; eauto.
Qed.

(** ** [_group_by] in closed form *)

Lemma sorted_by_name_ext (h1 h2 : heap) (s : list addr) :
  (∀ a, a ∈ s → h2 !! a = h1 !! a) →
  sorted_by_name h1 s → sorted_by_name h2 s.
Proof.
  unfold sorted_by_name. intros Hext Hs.
  induction Hs as [|a l Hl IH Ha]; [constructor |].
  constructor.
  - apply IH. intros b Hb. apply Hext. by right.
  - rewrite Forall_forall in Ha |- *. intros b Hb. unfold addr_gt.
    rewrite (Hext a) by (by left). rewrite (Hext b) by (by right).
    by apply Ha.
Qed.

Lemma unknown_child_named g :
  Forall (λ nd, ∃ s, name nd = PStr s) (unknown_child g).
Proof.
  unfold unknown_child. destruct (nonempty _); repeat constructor.
  by eexists.
Qed.

Section GroupBy.
Variable py_exec : string → pyval → res pyval.
Variable dict_items : dict → dict.

Lemma unknown_step self n h kids extra g :
  self < length h →
  ((if nonempty (unknown_data_of g)
    then c ← RollerUpper_init (PStr "Unknown") PNone
               (Some (unknown_data_of g)) None;
         append_child self c
    else ret tt) : M unit) (grouped self n kids h extra)
  = (Ok tt,
     grouped self n
       (kids ++ seq (length h + length extra) (length (unknown_child g)))
       h (extra ++ unknown_child g)).
Proof.
  intros Hself. unfold unknown_child.
  destruct (nonempty (unknown_data_of g)); simpl.
  - unfold mbind, M_bind, bind, RollerUpper_init.
    rewrite init_leaf_ok, grouped_alloc by done.
    rewrite grouped_append_child by done.
    by rewrite grouped_length by done.
  - by rewrite !app_nil_r.
Qed.

Lemma build_children_ok h self n fn nf g ns :
  h !! self = Some n →
  group_loop py_exec fn (data n) [] = Ok g →
  new_children nf (dict_items g) = Ok ns →
  build_children py_exec dict_items self fn nf h
    = (Ok tt,
       grouped self n (seq (length h) (length (ns ++ unknown_child (dict_items g)))) h
               (ns ++ unknown_child (dict_items g))).
Proof.
  intros Hn Hg Hns.
  assert (self < length h) as Hself by (by eapply lookup_lt_Some).
  unfold build_children.
  rewrite (bind_ok _ _ _ _ _ (get_node_ok _ _ _ Hn)).
  unfold mbind at 1, M_bind at 1, bind at 1, lift at 1. rewrite Hg.
  rewrite (bind_ok _ _ _ _ _ (set_children_ok _ _ _ (Some []) Hn)).
  replace (<[self := set_kids n (Some [])]> h)
    with (grouped self n [] h []) by (unfold grouped; by rewrite app_nil_r).
  rewrite (bind_ok _ _ _ _ _ (children_loop_ok _ _ _ Hself _ _ _ _ _ _ Hns)).
  cbn [app length]. rewrite (unknown_step _ _ _ _ _ _ Hself).
  by rewrite Nat.add_0_r, <- seq_app, <- length_app.
Qed.

Lemma build_children_inv h self fn nf h1 :
  build_children py_exec dict_items self fn nf h = (Ok tt, h1) →
  ∃ n g ns,
    h !! self = Some n ∧
    group_loop py_exec fn (data n) [] = Ok g ∧
    new_children nf (dict_items g) = Ok ns ∧
    h1 = grouped self n (seq (length h) (length (ns ++ unknown_child (dict_items g)))) h
                 (ns ++ unknown_child (dict_items g)).
Proof.
  intros H. pose proof H as H0. unfold build_children in H.
  apply bind_inv_ok in H as (n & h2 & Hn & H).
  apply get_node_inv in Hn as [Hn ->].
  apply bind_inv_ok in H as (g & h2 & Hg & H).
  unfold lift in Hg. injection Hg as Hg <-.
  apply bind_inv_ok in H as (? & h2 & _ & H).
  apply bind_inv_ok in H as (u & h3 & Hloop & _).
  apply children_loop_inv in Hloop as [ns Hns].
  rewrite (build_children_ok _ _ _ _ _ _ _ Hn Hg Hns) in H0.
  injection H0 as <-. by exists n, g, ns.
Qed.

(** The children that [build_children] leaves are there and have strings
    for names. *)
Lemma built_string_named h self n nf g ns kids :
  self < length h →
  new_children nf g = Ok ns →
  string_named (grouped self n kids h (ns ++ unknown_child g))
               (seq (length h) (length (ns ++ unknown_child g))).
Proof.
  intros Hself Hns. set (all := ns ++ unknown_child g).
  unfold string_named. apply Forall_forall. intros a Ha.
  apply elem_of_seq in Ha as [Hlo Hhi].
  replace a with (length h + (a - length h)) by lia.
  rewrite grouped_lookup_new by done.
  destruct (all !! (a - length h)) as [nd|] eqn:E.
  - assert (Forall (λ nd, ∃ s, name nd = PStr s) all) as Hall.
    { apply Forall_app. split;
        [by eapply new_children_named | apply unknown_child_named]. }
    rewrite Forall_forall in Hall.
    destruct (Hall nd) as [s Hs]; [by eapply list_elem_of_lookup_2 |].
    eauto.
  - apply lookup_ge_None in E. lia.
Qed.

Lemma sort_children_grouped h self n kids extra :
  self < length h →
  string_named (grouped self n kids h extra) kids →
  ∃ s, sort_children self (grouped self n kids h extra)
         = (Ok tt, grouped self n s h extra) ∧
       s ≡ₚ kids ∧ sorted_by_name (grouped self n kids h extra) s.
Proof.
  intros Hself Hnamed.
  destruct (sort_addrs_ok _ _ Hnamed) as (s & Hsort & Hperm & Hsorted).
  exists s. split; [| done]. unfold sort_children.
  rewrite (bind_ok _ _ _ _ _
             (get_node_ok _ _ _ (grouped_lookup_self _ _ _ Hself _ _))).
  simpl. unfold mbind at 1, M_bind at 1, bind at 1, sort_addrs at 1.
  rewrite Hsort. by apply grouped_set_children.
Qed.

Lemma group_by_ok h self n fn nf g ns :
  h !! self = Some n →
  group_loop py_exec fn (data n) [] = Ok g →
  new_children nf (dict_items g) = Ok ns →
  ∃ s,
    _group_by py_exec dict_items self fn nf h
      = (Ok tt, grouped self n s h (ns ++ unknown_child (dict_items g))) ∧
    s ≡ₚ seq (length h) (length (ns ++ unknown_child (dict_items g))) ∧
    sorted_by_name (grouped self n s h (ns ++ unknown_child (dict_items g))) s.
Proof.
  intros Hn Hg Hns.
  assert (self < length h) as Hself by (by eapply lookup_lt_Some).
  pose proof (built_string_named h self n nf (dict_items g) ns
                (seq (length h) (length (ns ++ unknown_child (dict_items g))))
                Hself Hns) as Hnamed.
  destruct (sort_children_grouped _ _ _ _ _ Hself Hnamed)
    as (s & Hsort & Hperm & Hsorted).
  exists s. split; [| split; [done |]].
  - unfold _group_by.
    rewrite (bind_ok _ _ _ _ _ (build_children_ok _ _ _ _ _ _ _ Hn Hg Hns)).
    exact Hsort.
  - eapply sorted_by_name_ext; [| exact Hsorted].
    intros a Ha. rewrite Hperm in Ha. apply elem_of_seq in Ha as [Hlo Hhi].
    replace a with (length h + (a - length h)) by lia.
    by rewrite !grouped_lookup_new.
Qed.

Lemma group_by_inv h self fn nf h' :
  _group_by py_exec dict_items self fn nf h = (Ok tt, h') →
  ∃ n g ns s,
    h !! self = Some n ∧
    group_loop py_exec fn (data n) [] = Ok g ∧
    new_children nf (dict_items g) = Ok ns ∧
    h' = grouped self n s h (ns ++ unknown_child (dict_items g)) ∧
    s ≡ₚ seq (length h) (length (ns ++ unknown_child (dict_items g))) ∧
    sorted_by_name h' s.
Proof.
  intros H. pose proof H as H0. unfold _group_by in H.
  apply bind_inv_ok in H as ([] & h1 & Hb & _).
  apply build_children_inv in Hb as (n & g & ns & Hn & Hg & Hns & _).
  destruct (group_by_ok _ _ _ _ _ _ _ Hn Hg Hns) as (s & Hrun & Hp & Hs).
  rewrite Hrun in H0. injection H0 as <-.
  by exists n, g, ns, s.
Qed.
End GroupBy.

(** Children sorted by name have their names in ascending order as
    strings. *)
Lemma string_nlt_leb (s t : string) :
  String.ltb t s = false → String.leb s t = true.
Proof.
  unfold String.ltb, String.leb. rewrite (String.compare_antisym s t).
  by destruct (String.compare t s).
Qed.

Lemma sorted_names (h : heap) (cs : list addr) :
  string_named h cs → sorted_by_name h cs →
  StronglySorted (λ s t, String.leb s t = true) (names_of h cs).
Proof.
  unfold string_named, sorted_by_name, names_of. intros Hn Hs.
  induction Hs as [|a l Hl IH Ha]; simpl; [constructor |].
  apply Forall_cons in Hn as [(na & sa & Hna & Esa) Hn].
  constructor; [by apply IH |].
  apply Forall_fmap, Forall_forall. intros b Hb. simpl.
  rewrite Forall_forall in Ha, Hn.
  destruct (Hn _ Hb) as (nb & sb & Hnb & Esb).
  specialize (Ha _ Hb). unfold addr_gt in Ha.
  rewrite Hna, Hnb in Ha |- *.
  rewrite (gt_string_names _ _ _ _ Esa Esb) in Ha. injection Ha as Ha.
  rewrite Esa, Esb. simpl. by apply string_nlt_leb.
Qed.

(** ** The items of the children after grouping *)

Lemma children_items_seq (H : heap) (all : list node) : ∀ base,
  (∀ i, H !! (base + i) = all !! i) →
  children_items H (seq base (length all)) = flat_map data all.
Proof.
  unfold children_items.
  induction all as [|x all IH]; intros base Hl; simpl; [done |].
  unfold items_of at 1. specialize (Hl 0) as H0.
  rewrite Nat.add_0_r in H0. rewrite H0. simpl. f_equal.
  apply IH. intros i. specialize (Hl (S i)). simpl in Hl.
  by replace (S base + i) with (base + S i) by lia.
Qed.

Lemma children_items_perm (h : heap) (cs cs' : list addr) :
  cs ≡ₚ cs' → children_items h cs ≡ₚ children_items h cs'.
Proof. unfold children_items. apply Permutation_flat_map. Qed.

Lemma unknown_child_data g : flat_map data (unknown_child g) = unknown_data_of g.
Proof.
  unfold unknown_child. destruct (unknown_data_of g); simpl; [done |].
  by rewrite app_nil_r.
Qed.

Lemma new_children_items nf g ns :
  new_children nf g = Ok ns →
  flat_map data ns ++ unknown_data_of g ≡ₚ flat_map snd g.
Proof.
  revert ns. induction g as [|[k v] g IH]; intros ns; simpl.
  - by intros [= <-].
  - destruct (py_eq k PNone).
    + intros Hns. rewrite <- (IH _ Hns).
      rewrite !(app_assoc). apply Permutation_app_tail.
      apply Permutation_app_comm.
    + destruct (child_name_key nf k); simpl; [| done].
      destruct (new_children nf g) as [rest|]; simpl; [| done].
      intros [= <-]. simpl. rewrite <- app_assoc.
      apply Permutation_app_head. by apply IH.
Qed.

Section GroupLeaf.
Variable py_exec : string → pyval → res pyval.
Variable dict_items : dict → dict.
Hypothesis dict_items_perm : ∀ g, dict_items g ≡ₚ g.

(** What a successful [_group_by] leaves: the instance has children, their
    items are the items of the instance up to order, they are sorted by
    name and their names are strings. *)
Lemma group_by_children h t nt fn nf h' :
  h !! t = Some nt →
  _group_by py_exec dict_items t fn nf h = (Ok tt, h') →
  ∃ s, h' !! t = Some (set_kids nt (Some s)) ∧
       children_items h' s ≡ₚ data nt ∧
       sorted_by_name h' s ∧ string_named h' s.
Proof.
  intros Ht H.
  apply group_by_inv in H as (n & g & ns & s & Hn & Hg & Hns & -> & Hp & Hs).
  assert (n = nt) as -> by congruence.
  assert (t < length h) as Hlt by (by eapply lookup_lt_Some).
  exists s. split; [by apply grouped_lookup_self |].
  split; [| split; [done |]].
  - rewrite (children_items_perm _ _ _ Hp).
    rewrite children_items_seq
      by (intros i; by apply grouped_lookup_new).
    rewrite flat_map_app, unknown_child_data.
    rewrite (new_children_items _ _ _ Hns).
    rewrite (Permutation_flat_map snd (dict_items_perm g)).
    apply group_loop_groups in Hg. apply Hg.
  - pose proof (built_string_named h t nt nf (dict_items g) ns s Hlt Hns)
      as Hnamed.
    unfold string_named in *. by rewrite Hp.
Qed.

(** Grouping a leaf runs [_group_by]: on the leaf itself when it is a
    RollerUpper, on a new copy of it when it is an ImmutableRollerUpper. *)
Lemma group_leaf_inv fuel h self n fn nf r h' :
  h !! self = Some n → children n = None →
  group_hierarchy_by py_exec dict_items fuel self fn nf h = (Ok r, h') →
  ∃ h0 nt,
    h0 !! default self r = Some nt ∧
    data nt = data n ∧ name nt = name n ∧ children nt = None ∧
    _group_by py_exec dict_items (default self r) fn nf h0 = (Ok tt, h') ∧
    match cls n with
    | ClsRollerUpper => r = None ∧ h0 = h
    | ClsImmutableRollerUpper =>
        r = Some (length h) ∧
        h0 = h ++ [Node ClsRollerUpper (name n) PNone (data n) None]
    end.
Proof.
  intros Hn Hleaf H. destruct fuel as [|fuel]; simpl in H; [done |].
  rewrite (bind_ok _ _ _ _ _ (get_node_ok _ _ _ Hn)) in H.
  destruct (cls n) eqn:Hcls.
  - rewrite Hleaf in H.
    apply bind_inv_ok in H as ([] & h1 & Hg & Hr).
    injection Hr as <- <-. by exists h, n.
  - apply bind_inv_ok in H as (c & h1 & Hm & H).
    unfold mutable in Hm.
    rewrite (bind_ok _ _ _ _ _ (get_node_ok _ _ _ Hn)) in Hm.
    rewrite Hleaf in Hm. unfold RollerUpper_init in Hm.
    rewrite init_leaf_ok in Hm. injection Hm as <- <-.
    apply bind_inv_ok in H as (r' & h2 & Hg & Hr).
    injection Hr as <- <-.
    destruct fuel as [|fuel]; simpl in Hg; [done |].
    assert ((h ++ [Node ClsRollerUpper (name n) PNone (data n) None])
              !! length h
            = Some (Node ClsRollerUpper (name n) PNone (data n) None))
      as Hc by apply list_lookup_middle, eq_refl.
    rewrite (bind_ok _ _ _ _ _ (get_node_ok _ _ _ Hc)) in Hg.
    simpl in Hg.
    apply bind_inv_ok in Hg as ([] & h3 & Hg & Hr).
    injection Hr as _ <-.
    exists (h ++ [Node ClsRollerUpper (name n) PNone (data n) None]),
           (Node ClsRollerUpper (name n) PNone (data n) None).
    simpl. by repeat split.
Qed.

(** C1: grouping a leaf by an expression leaves children whose items,
    taken together, are the items the leaf had: each item as often as it
    was there, none lost and none added; so too when there is no item. *)
Theorem partition_property fuel h self n fn nf r h' :
  h !! self = Some n → children n = None →
  group_hierarchy_by py_exec dict_items fuel self fn nf h = (Ok r, h') →
  ∃ n' cs,
    h' !! default self r = Some n' ∧ children n' = Some cs ∧
    children_items h' cs ≡ₚ data n.
Proof.
  intros Hn Hleaf H.
  destruct (group_leaf_inv _ _ _ _ _ _ _ _ Hn Hleaf H)
    as (h0 & nt & Ht & Hd & _ & _ & Hg & _).
  destruct (group_by_children _ _ _ _ _ _ Ht Hg) as (s & Hs & Hp & _).
  exists (set_kids nt (Some s)), s. by rewrite <- Hd.
Qed.

(** C5: after grouping a leaf, its children are sorted ascending under
    RU_COMPARATOR (fields = [name]): no child is greater than a later one;
    the names compared are strings, the text of the keys, and they ascend
    in the order of strings; this holds for every order of the items. *)
Theorem children_sorted_by_name fuel h self n fn nf r h' :
  h !! self = Some n → children n = None →
  group_hierarchy_by py_exec dict_items fuel self fn nf h = (Ok r, h') →
  ∃ n' cs,
    h' !! default self r = Some n' ∧ children n' = Some cs ∧
    sorted_by_name h' cs ∧ string_named h' cs ∧
    StronglySorted (λ s t, String.leb s t = true) (names_of h' cs).
Proof.
  intros Hn Hleaf H.
  destruct (group_leaf_inv _ _ _ _ _ _ _ _ Hn Hleaf H)
    as (h0 & nt & Ht & Hd & _ & _ & Hg & _).
  destruct (group_by_children _ _ _ _ _ _ Ht Hg) as (s & Hs & _ & Hst & Hsn).
  exists (set_kids nt (Some s)), s.
  repeat split; try done. by apply sorted_names.
Qed.

(** C10: grouping changes the items of no instance: whatever instance the
    store held before [group_hierarchy_by] is there afterwards with the
    same items in the same order, and the same class, name and key; only
    [children] may differ. *)
Theorem grouping_keeps_items fuel h self fn nf b nb :
  h !! b = Some nb →
  ∃ nb',
    (group_hierarchy_by py_exec dict_items fuel self fn nf h).2 !! b = Some nb' ∧
    data nb' = data nb ∧ name nb' = name nb ∧ key nb' = key nb ∧
    cls nb' = cls nb.
Proof.
  intros Hb.
  destruct (preserves_group_hierarchy_by py_exec dict_items fuel self fn nf h b nb Hb)
    as (nb' & Hb' & Hc & Hn & Hk & Hd).
  by exists nb'.
Qed.
End GroupLeaf.

Lemma insertion_order_perm (g : dict) : insertion_order g ≡ₚ g.
Proof. done. Qed.

Lemma partition_property_witness :
  let h' := (group_hierarchy_by attr_chain insertion_order 1 0 "year" None sample_store).2 in
  ∃ n' cs,
    h' !! 0 = Some n' ∧ children n' = Some cs ∧
    children_items h' cs ≡ₚ sample_items.
Proof.
  intros h'.
  assert (group_hierarchy_by attr_chain insertion_order 1 0 "year" None sample_store
          = (Ok None, h')) as Hrun by (vm_compute; reflexivity).
  exact (partition_property attr_chain insertion_order insertion_order_perm 1 sample_store 0 sample_root "year"
           None None h' eq_refl eq_refl Hrun).
Defined.

Lemma children_sorted_by_name_witness :
  let h' := (group_hierarchy_by attr_chain insertion_order 1 0 "category" None sample_store).2 in
  ∃ n' cs,
    h' !! 0 = Some n' ∧ children n' = Some cs ∧
    sorted_by_name h' cs ∧ string_named h' cs ∧
    StronglySorted (λ s t, String.leb s t = true) (names_of h' cs).
Proof.
  intros h'.
  assert (group_hierarchy_by attr_chain insertion_order 1 0 "category" None sample_store
          = (Ok None, h')) as Hrun by (vm_compute; reflexivity).
  exact (children_sorted_by_name attr_chain insertion_order insertion_order_perm 1 sample_store 0 sample_root
           "category" None None h' eq_refl eq_refl Hrun).
Defined.

Lemma grouping_keeps_items_witness :
  group_hierarchy_by attr_chain insertion_order 1 0 "year" None sample_store
    = (Ok None,
       (group_hierarchy_by attr_chain insertion_order 1 0 "year" None sample_store).2) ∧
  ∃ nb',
    (group_hierarchy_by attr_chain insertion_order 1 0 "year" None sample_store).2 !! 0
      = Some nb' ∧
    data nb' = sample_items ∧ name nb' = PStr "root" ∧ key nb' = PNone ∧
    cls nb' = ClsRollerUpper.
Proof.
  split; [vm_compute; reflexivity |].
  exact (grouping_keeps_items attr_chain insertion_order 1 sample_store 0 "year" None 0
           sample_root eq_refl).
Defined.

(** ** Where the items without a grouping value go *)

Lemma unknown_data_of_notin (g : dict) :
  PNone ∉ dict_keys g → unknown_data_of g = [].
Proof.
  unfold dict_keys. induction g as [|[k v] g IH]; simpl; [done |].
  rewrite not_elem_of_cons. intros [Hne Hg].
  assert (py_eq k PNone = false) as -> by (apply py_eq_false; congruence).
  by apply IH.
Qed.

Lemma unknown_data_of_in (g : dict) (v : list pyval) :
  NoDup (dict_keys g) → (PNone, v) ∈ g → unknown_data_of g = v.
Proof.
  unfold dict_keys. induction g as [|[k w] g IH]; simpl; intros Hnd Hin.
  - by apply elem_of_nil in Hin.
  - apply NoDup_cons in Hnd as [Hk Hnd].
    apply elem_of_cons in Hin as [Heq | Hin].
    + injection Heq as <- <-. rewrite py_eq_refl.
      rewrite unknown_data_of_notin by done. apply app_nil_r.
    + assert (py_eq k PNone = false) as ->.
      { apply py_eq_false. intros ->. apply Hk.
        apply list_elem_of_fmap. by exists (PNone, v). }
      by apply IH.
Qed.

Lemma seq_nodes (H : heap) (base : nat) (l : list node) (P : node → Prop) :
  (∀ i, i < length l → H !! (base + i) = l !! i) →
  Forall P l →
  Forall (λ c, ∃ nd, H !! c = Some nd ∧ P nd) (seq base (length l)).
Proof.
  intros Hl HP. apply Forall_forall. intros c Hc.
  apply elem_of_seq in Hc as [Hlo Hhi].
  replace c with (base + (c - base)) by lia. rewrite Hl by lia.
  destruct (l !! (c - base)) as [nd|] eqn:E.
  - exists nd. split; [done |]. rewrite Forall_forall in HP. apply HP.
    by eapply list_elem_of_lookup_2.
  - apply lookup_ge_None in E. lia.
Qed.

Section NullRouting.
Variable py_exec : string → pyval → res pyval.
Variable dict_items : dict → dict.
Hypothesis dict_items_perm : ∀ g, dict_items g ≡ₚ g.
Variable fn : string.

Lemma unknown_data_of_groups ds g :
  groups_of py_exec fn ds g → unknown_data_of g = null_items py_exec fn ds.
Proof.
  intros (Hnd & Hfil & Hcov & _). unfold null_items.
  destruct (decide (PNone ∈ dict_keys g)) as [Hin | Hnin].
  - unfold dict_keys in Hin. apply list_elem_of_fmap in Hin as ([k v] & Hk & Hin).
    simpl in Hk. subst k. rewrite (unknown_data_of_in _ _ Hnd Hin).
    by apply Hfil.
  - rewrite (unknown_data_of_notin _ Hnin). symmetry.
    apply filter_none, Forall_forall. intros d Hd.
    rewrite has_value_true. intros Hv.
    destruct (Hcov _ Hd) as (k & Hk & Hkin). congruence.
Qed.

Lemma null_items_of_group ds k :
  k ≠ PNone →
  null_items py_exec fn
    (filter (λ d, has_value py_exec fn k d = true) ds) = [].
Proof.
  intros Hk. unfold null_items. apply filter_none, Forall_forall.
  intros d Hd. apply list_elem_of_filter in Hd as [Hd _].
  apply has_value_true in Hd. rewrite has_value_true. congruence.
Qed.

Lemma child_name_key_not_unknown nf k nm ky :
  k ≠ PNone → child_name_key nf k = Ok (nm, ky) →
  ¬ (nm = PStr "Unknown" ∧ ky = PNone).
Proof.
  intros Hk. unfold child_name_key.
  destruct (name_field_given nf) as [f|].
  - destruct (getattr k f) as [v|]; simpl; [| done].
    intros [= <- <-] [Hn ->]. done.
  - simpl. intros [= <- <-] [_ Hn]. done.
Qed.

Lemma new_children_spec nf ds g ns :
  groups_of py_exec fn ds g →
  new_children nf g = Ok ns →
  Forall (λ nd, ¬ is_unknown_child nd ∧
                null_items py_exec fn (data nd) = []) ns.
Proof.
  intros (_ & Hfil & _ & _). revert ns.
  induction g as [|[k v] g IH]; intros ns; simpl.
  - intros [= <-]. constructor.
  - destruct (py_eq k PNone) eqn:Ek.
    + apply IH. intros k' v' Hin. apply Hfil. by right.
    + apply py_eq_false in Ek.
      destruct (child_name_key nf k) as [[nm ky]|] eqn:Enk; simpl; [| done].
      destruct (new_children nf g) as [rest|]; simpl; [| done].
      intros [= <-]. constructor.
      * split.
        -- by eapply child_name_key_not_unknown.
        -- simpl. rewrite (Hfil k v) by (by left).
           by apply null_items_of_group.
      * apply IH; [| done]. intros k' v' Hin. apply Hfil. by right.
Qed.

(** C4: in every call of [_group_by] the items whose grouping value is
    [None] make up, in their order, the data of one child named "Unknown"
    with key [None], which is the last child before the children are
    sorted; no other child is named "Unknown" with key [None] or holds such
    an item; and when no item has the value [None] no such child is made.
    Sorting permutes the children and changes none of them. *)
Theorem null_routing nf h self n h' :
  h !! self = Some n →
  _group_by py_exec dict_items self fn nf h = (Ok tt, h') →
  ∃ h1 pre cs,
    build_children py_exec dict_items self fn nf h = (Ok tt, h1) ∧
    sort_children self h1 = (Ok tt, h') ∧
    h1 !! self = Some (set_kids n (Some pre)) ∧
    h' !! self = Some (set_kids n (Some cs)) ∧
    cs ≡ₚ pre ∧ (∀ c, c ∈ pre → h' !! c = h1 !! c) ∧
    match null_items py_exec fn (data n) with
    | [] =>
        Forall (λ c, ∃ nd, h1 !! c = Some nd ∧ ¬ is_unknown_child nd) pre
    | nulls =>
        ∃ others u,
          pre = others ++ [u] ∧
          h1 !! u = Some (Node ClsRollerUpper (PStr "Unknown") PNone nulls None) ∧
          Forall (λ c, ∃ nd, h1 !! c = Some nd ∧ ¬ is_unknown_child nd ∧
                             null_items py_exec fn (data nd) = []) others
    end.
Proof.
  intros Hn H. unfold _group_by in H.
  apply bind_inv_ok in H as ([] & h1 & Hb & Hsort).
  pose proof Hb as Hb0.
  apply build_children_inv in Hb as (n0 & g & ns & Hn0 & Hg & Hns & ->).
  assert (n0 = n) as -> by congruence.
  assert (self < length h) as Hself by (by eapply lookup_lt_Some).
  set (all := ns ++ unknown_child (dict_items g)) in *.
  set (pre := seq (length h) (length all)) in *.
  pose proof (built_string_named h self n nf (dict_items g) ns pre Hself Hns)
    as Hnamed.
  destruct (sort_children_grouped _ _ _ _ _ Hself Hnamed)
  as (s & Hsort' & Hperm & _).
  fold all in Hsort'. rewrite Hsort' in Hsort. injection Hsort as <-.
  exists (grouped self n pre h all), pre, s.
  split; [done |]. split; [done |].
  split; [by apply grouped_lookup_self |].
  split; [by apply grouped_lookup_self |].
  split; [done |]. split.
  { intros c Hc. apply elem_of_seq in Hc as [Hlo Hhi].
    replace c with (length h + (c - length h)) by lia.
    by rewrite !grouped_lookup_new. }
  pose proof (groups_of_perm _ _ _ _ _ (dict_items_perm g)
                (group_loop_groups _ _ _ _ Hg)) as Hgroups.
  pose proof (new_children_spec _ _ _ _ Hgroups Hns) as Hspec.
  pose proof (unknown_data_of_groups _ _ Hgroups) as Hunk.
  unfold pre, all, unknown_child. rewrite Hunk.
  destruct (null_items py_exec fn (data n)) as [|d0 nulls] eqn:Enull; simpl.
  - rewrite !app_nil_r. apply seq_nodes.
    + intros i Hi. by rewrite grouped_lookup_new.
    + eapply Forall_impl; [exact Hspec |]. by intros nd [? _].
  - rewrite length_app, seq_app. simpl.
    exists (seq (length h) (length ns)), (length h + length ns).
    split; [done |]. split.
    + rewrite grouped_lookup_new by done. by apply list_lookup_middle.
    + apply seq_nodes; [| done].
      intros i Hi. rewrite grouped_lookup_new by done.
      by apply lookup_app_l.
Qed.
End NullRouting.

Lemma null_routing_witness :
  ∃ h1 pre cs others u,
    build_children attr_chain insertion_order 0 "category" None sample_store = (Ok tt, h1) ∧
    h1 !! 0 = Some (set_kids sample_root (Some pre)) ∧
    (group_hierarchy_by attr_chain insertion_order 1 0 "category" None sample_store).2 !! 0
      = Some (set_kids sample_root (Some cs)) ∧
    cs ≡ₚ pre ∧
    pre = others ++ [u] ∧
    h1 !! u = Some (Node ClsRollerUpper (PStr "Unknown") PNone
                         [tx 2 (PInt 2020) PNone] None).
Proof.
  assert (_group_by attr_chain insertion_order 0 "category" None sample_store
          = (Ok tt,
             (group_hierarchy_by attr_chain insertion_order 1 0 "category" None sample_store).2))
    as Hrun by (vm_compute; reflexivity).
  destruct (null_routing attr_chain insertion_order insertion_order_perm "category" None sample_store 0 sample_root
              _ eq_refl Hrun)
    as (h1 & pre & cs & Hb & _ & Hpre & Hcs & Hperm & _ & Hnull).
  assert (null_items attr_chain "category" (data sample_root)
          = [tx 2 (PInt 2020) PNone]) as Enull by (vm_compute; reflexivity).
  rewrite Enull in Hnull. destruct Hnull as (others & u & Hsplit & Hu & _).
  by exists h1, pre, cs, others, u.
Defined.

(** ** The items of an instance with children *)

Lemma children_items_frame (h h' : heap) (cs : list addr) :
  frame h h' → Forall (λ c, is_Some (h !! c)) cs →
  Forall (λ c, is_Some (h' !! c)) cs ∧
  children_items h' cs = children_items h cs.
Proof.
  intros Hf Hcs. unfold children_items.
  induction Hcs as [|c cs [nb Hc] _ [IH1 IH2]]; simpl; [done |].
  destruct (Hf _ _ Hc) as (nb' & Hc' & _ & _ & _ & Hd).
  split; [constructor; eauto |].
  unfold items_of at 1 3. by rewrite Hc, Hc', Hd, IH2.
Qed.

Lemma keeps_ret {A} (a : A) : keeps_items_match (mret a : M A).
Proof. intros h r h' Hi [= _ <-]. done. Qed.

Lemma keeps_bind {A B} (m : M A) (f : A → M B) :
  keeps_items_match m → (∀ a, keeps_items_match (f a)) →
  keeps_items_match (m ≫= f).
Proof.
  intros Hm Hf h r h' Hi H. apply bind_inv_ok in H as (a & h1 & H1 & H2).
  eapply Hf; [| exact H2]. eapply Hm; [exact Hi | exact H1].
Qed.

Lemma keeps_get_node a : keeps_items_match (get_node a).
Proof. intros h r h' Hi H. by apply get_node_inv in H as [_ ->]. Qed.

Lemma keeps_for_each {A} (f : A → M unit) (l : list A) :
  (∀ x, keeps_items_match (f x)) → keeps_items_match (for_each f l).
Proof.
  intros Hf. induction l as [|x l IH]; simpl.
  - intros h r h' Hi [= _ <-]. done.
  - apply keeps_bind; [apply Hf | intros _; apply IH].
Qed.

Lemma collect_data_ok (cs : list addr) (h : heap) (d : list pyval) (h' : heap) :
  collect_data cs h = (Ok d, h') →
  h' = h ∧ Forall (λ c, is_Some (h !! c)) cs ∧ d = children_items h cs.
Proof.
  revert d h'. induction cs as [|c cs IH]; simpl; intros d h' H.
  - injection H as <- <-. done.
  - apply bind_inv_ok in H as (n & h1 & Hn & H).
    apply get_node_inv in Hn as [Hn ->].
    apply bind_inv_ok in H as (rest & h2 & Hrest & H).
    injection H as <- <-. apply IH in Hrest as (-> & Hall & ->).
    split; [done |]. split; [constructor; eauto |].
    unfold children_items. simpl. unfold items_of at 2. by rewrite Hn.
Qed.

(** What a successful constructor call allocates. *)
Lemma init_ok c nm ky d cs h r h' :
  __init__ c nm ky d cs h = (Ok r, h') →
  r = length h ∧
  ∃ nd, h' = h ++ [nd] ∧ cls nd = c ∧ name nd = nm ∧ key nd = ky ∧
        children nd = cs ∧
        match cs with
        | Some l => Forall (λ x, is_Some (h !! x)) l ∧
                    data nd = children_items h l
        | None => d = Some (data nd)
        end.
Proof.
  unfold __init__. intros H.
  apply bind_inv_ok in H as ([] & h1 & H1 & H).
  unfold asrt in H1. destruct (negb _); [| done]. injection H1 as <-.
  apply bind_inv_ok in H as ([] & h1 & H1 & H).
  unfold asrt in H1. destruct (negb _); [| done]. injection H1 as <-.
  destruct cs as [l|].
  - apply bind_inv_ok in H as (dd & h1 & Hd & H).
    apply collect_data_ok in Hd as (-> & Hall & ->).
    injection H as <- <-. split; [done |]. eexists. by repeat split.
  - destruct d as [dd|]; [| done].
    injection H as <- <-. split; [done |]. eexists. by repeat split.
Qed.

Lemma children_items_app (h : heap) (t : list node) (cs : list addr) :
  Forall (λ c, is_Some (h !! c)) cs →
  children_items (h ++ t) cs = children_items h cs.
Proof.
  intros Hcs.
  exact (proj2 (children_items_frame h (h ++ t) cs (frame_app _ _) Hcs)).
Qed.

Lemma keeps_init c nm ky d cs : keeps_items_match (__init__ c nm ky d cs).
Proof.
  intros h r h' Hi H. apply init_ok in H as (-> & nd & -> & _ & _ & _ & Hc & Hd).
  intros a n l Ha Hl.
  destruct (decide (a < length h)) as [Hlt | Hge].
  - rewrite lookup_app_l in Ha by done.
    destruct (Hi _ _ _ Ha Hl) as [Hall Hp].
    destruct (children_items_frame h (h ++ [nd]) l (frame_app _ _) Hall)
      as [Hall' ->].
    done.
  - assert (a = length h) as ->.
    { apply lookup_lt_Some in Ha. rewrite length_app in Ha. simpl in Ha. lia. }
    rewrite list_lookup_middle in Ha by done. injection Ha as <-.
    rewrite Hl in Hc. subst cs. simpl in Hd. destruct Hd as [Hall Hd].
    destruct (children_items_frame h (h ++ [nd]) l (frame_app _ _) Hall)
      as [Hall' ->].
    by rewrite Hd.
Qed.

Section ItemsMatch.
Variable py_exec : string → pyval → res pyval.
Variable dict_items : dict → dict.
Hypothesis dict_items_perm : ∀ g, dict_items g ≡ₚ g.

Lemma new_children_leaves nf g ns :
  new_children nf g = Ok ns → Forall (λ nd, children nd = None) ns.
Proof.
  revert ns. induction g as [|[k v] g IH]; intros ns; simpl.
  - intros [= <-]. constructor.
  - destruct (py_eq k PNone); [apply IH |].
    destruct (child_name_key nf k); simpl; [| done].
    destruct (new_children nf g); simpl; [| done].
    intros [= <-]. constructor; eauto.
Qed.

Lemma unknown_child_leaves g : Forall (λ nd, children nd = None) (unknown_child g).
Proof. unfold unknown_child. destruct (nonempty _); repeat constructor. Qed.

Lemma keeps_group_by t fn nf : keeps_items_match (_group_by py_exec dict_items t fn nf).
Proof.
  intros h [] h' Hi H.
  pose proof (preserves_group_by py_exec dict_items t fn nf h) as Hframe.
  rewrite H in Hframe. simpl in Hframe.
  pose proof H as H0.
  apply group_by_inv in H as (nt & g & ns & s & Ht & Hg & Hns & -> & Hp & Hs).
  destruct (group_by_children py_exec dict_items dict_items_perm
              _ _ _ _ _ _ Ht H0) as (s' & Hs' & Hperm & _ & Hnamed).
  assert (t < length h) as Hlt by (by eapply lookup_lt_Some).
  rewrite grouped_lookup_self in Hs' by done. injection Hs' as <-.
  intros a n l Ha Hl.
  destruct (decide (a = t)) as [-> | Hne].
  - rewrite grouped_lookup_self in Ha by done. injection Ha as <-.
    simpl in Hl. injection Hl as <-. split; [| done].
    eapply Forall_impl; [exact Hnamed |]. intros c (nd & ? & ? & _). eauto.
  - destruct (decide (a < length h)) as [Ha' | Ha'].
    + rewrite grouped_lookup_old in Ha by done.
      destruct (Hi _ _ _ Ha Hl) as [Hall Hpm].
      destruct (children_items_frame _ _ l Hframe Hall) as [Hall' ->]. done.
    + pose proof (lookup_lt_Some _ _ _ Ha) as Hb.
      rewrite grouped_length in Hb.
      replace a with (length h + (a - length h)) in Ha by lia.
      rewrite grouped_lookup_new in Ha by done.
      assert (Forall (λ nd, children nd = None)
                     (ns ++ unknown_child (dict_items g))) as Hlv.
      { apply Forall_app. split;
          [by eapply new_children_leaves | apply unknown_child_leaves]. }
      rewrite Forall_forall in Hlv.
      rewrite (Hlv n) in Hl; [done | by eapply list_elem_of_lookup_2].
Qed.

Lemma keeps_mutable a : keeps_items_match (mutable a).
Proof.
  unfold mutable. apply keeps_bind; [apply keeps_get_node | intros n].
  apply keeps_init.
Qed.

Lemma keeps_group_hierarchy_by fuel a fn nf :
  keeps_items_match (group_hierarchy_by py_exec dict_items fuel a fn nf).
Proof.
  revert a. induction fuel as [|fuel IH]; intros a; simpl.
  - intros h r h' _ H. done.
  - apply keeps_bind; [apply keeps_get_node | intros n].
    destruct (cls n).
    + destruct (children n).
      * apply keeps_bind; [| intros; apply keeps_ret].
        apply keeps_for_each. intros c.
        apply keeps_bind; [apply IH | intros; apply keeps_ret].
      * apply keeps_bind; [| intros; apply keeps_ret].
        apply keeps_group_by.
    + apply keeps_bind; [apply keeps_mutable | intros r].
      apply keeps_bind; [apply IH | intros; apply keeps_ret].
Qed.

(** C3, as the code has it: an instance constructed from children holds
    exactly the concatenation of its children's items, in their order;
    grouping keeps, for every instance with children and for the instances
    it has just grouped, that the items of the instance are the items of
    its children taken together, each as often, in an order that may
    differ from the order of the children. *)
Theorem items_of_children c nm ky d cs fuel self fn nf h r h' r2 h2 :
  (__init__ c nm ky d (Some cs) h = (Ok r, h') →
   ∃ nd, h' !! r = Some nd ∧ children nd = Some cs ∧
         Forall (λ x, is_Some (h' !! x)) cs ∧
         data nd = children_items h' cs) ∧
  (items_match h →
   group_hierarchy_by py_exec dict_items fuel self fn nf h = (Ok r2, h2) →
   items_match h2).
Proof.
  split.
  - intros H. apply init_ok in H as (-> & nd & -> & _ & _ & _ & Hc & Hall & Hd).
    exists nd. split; [by apply list_lookup_middle |]. split; [done |].
    destruct (children_items_frame h (h ++ [nd]) cs (frame_app _ _) Hall)
      as [Hall' ->].
    done.
  - apply keeps_group_hierarchy_by.
Qed.
End ItemsMatch.

(** ** Searching the tree *)

Lemma find_matches_eq h d nm ky rec cs :
  find_matches h d nm ky rec cs =
  flat_map
    (λ c, match h !! c with
          | None => []
          | Some cn =>
              (if matches nm ky cn then [c] else []) ++
              (if rec
               then match children cn, d with
                    | Some l, S d' => find_matches h d' nm ky rec l
                    | _, _ => []
                    end
               else [])
          end) cs.
Proof. by destruct d. Qed.

Lemma depth_le_is_Some h d a : depth_le h d a = true → is_Some (h !! a).
Proof. destruct d; simpl; destruct (h !! a); eauto; done. Qed.

Lemma find_matches_exist h nm ky rec : ∀ d cs,
  forallb (depth_le h d) cs = true →
  Forall (λ c, is_Some (h !! c)) (find_matches h d nm ky rec cs).
Proof.
  induction d as [d IH] using lt_wf_ind. intros cs Hcs.
  rewrite find_matches_eq.
  induction cs as [|c cs IHcs]; simpl; [constructor |].
  simpl in Hcs. apply andb_prop in Hcs as [Hc Hcs].
  apply Forall_app. split; [| by apply IHcs].
  pose proof (depth_le_is_Some _ _ _ Hc) as [cn Hcn]. rewrite Hcn.
  apply Forall_app. split.
  - destruct (matches nm ky cn); repeat constructor. by rewrite Hcn.
  - destruct rec; [| constructor].
    destruct (children cn) as [l|] eqn:El; [| constructor].
    destruct d as [|d']; [constructor |].
    apply IH; [lia |]. simpl in Hc. by rewrite Hcn, El in Hc.
Qed.

Lemma collect_data_run (H : heap) (l : list addr) :
  Forall (λ c, is_Some (H !! c)) l →
  collect_data l H = (Ok (children_items H l), H).
Proof.
  induction 1 as [|c l [n Hn] _ IH]; simpl; [done |].
  rewrite (bind_ok _ _ _ _ _ (get_node_ok _ _ _ Hn)).
  rewrite (bind_ok _ _ _ _ _ IH).
  unfold items_of. by rewrite Hn.
Qed.

Lemma init_children_ok c nm ky (l : list addr) (H : heap) :
  Forall (λ x, is_Some (H !! x)) l →
  __init__ c nm ky None (Some l) H
  = (Ok (length H), H ++ [Node c nm ky (children_items H l) (Some l)]).
Proof.
  intros Hl. unfold __init__. simpl.
  unfold mbind at 1, M_bind at 1, bind at 1. simpl.
  unfold mbind at 1, M_bind at 1, bind at 1. simpl.
  by rewrite (bind_ok _ _ _ _ _ (collect_data_run _ _ Hl)).
Qed.

Lemma criterion_given (nm ky : pyval) :
  nm ≠ PNone ∨ ky ≠ PNone →
  negb (py_eq nm PNone && py_eq ky PNone) = true.
Proof.
  intros [H | H]; apply py_eq_false in H; rewrite H; [done |].
  by rewrite andb_false_r.
Qed.

Section Search.
Variables (h : heap) (nm ky : pyval).
Hypothesis Hcrit : nm ≠ PNone ∨ ky ≠ PNone.

Lemma get_children_loop_spec rec d :
  (∀ d', d = S d' → search_returns h nm ky rec d') →
  ∀ cs acc tmp,
    forallb (depth_le h d) cs = true →
    ∃ tmp',
      get_children_loop (λ c, get_children d c nm ky rec false)
        nm ky rec false cs acc (h ++ tmp)
      = (Ok (acc ++ find_matches h d nm ky rec cs), h ++ tmp ++ tmp').
Proof.
  intros IHd. induction cs as [|c cs IHcs]; intros acc tmp Hcs.
  - exists []. rewrite find_matches_eq. simpl. by rewrite !app_nil_r.
  - simpl in Hcs. apply andb_prop in Hcs as [Hc Hcs].
    pose proof (depth_le_is_Some _ _ _ Hc) as [cn Hcn].
    rewrite find_matches_eq. simpl. rewrite <- find_matches_eq. rewrite Hcn.
    rewrite (bind_ok _ _ _ _ _
               (get_node_ok _ _ _ (lookup_app_l_Some _ tmp _ _ Hcn))).
    set (acc1 := if matches nm ky cn then acc ++ [c] else acc).
    assert (acc1 = acc ++ (if matches nm ky cn then [c] else [])) as Hacc1.
    { unfold acc1. destruct (matches nm ky cn); [done | by rewrite app_nil_r]. }
    destruct rec; simpl.
    + destruct (children cn) as [l|] eqn:El; simpl.
      * destruct d as [|d'].
        { simpl in Hc. by rewrite Hcn, El in Hc. }
        assert (forallb (depth_le h d') l = true) as Hl.
        { simpl in Hc. by rewrite Hcn, El in Hc. }
        destruct (IHd d' eq_refl c cn l tmp Hcn El Hl) as (tmp1 & Hrun).
        set (found := find_matches h d' nm ky true l) in *.
        set (nd := Node ClsRollerUpper nm ky (children_items h found)
                        (Some found)) in *.
        destruct (IHcs (acc1 ++ found) (tmp ++ tmp1 ++ [nd]) Hcs)
          as (tmp2 & Hloop).
        exists (tmp1 ++ [nd] ++ tmp2).
        rewrite (bind_bind_ok _ _ _ _ _ _ Hrun).
        rewrite (bind_bind_ok _ _ _ _ _ _
                   (get_node_ok _ _ _ (list_lookup_middle _ _ _ _ eq_refl))).
        simpl. unfold mbind at 1, M_bind at 1, bind at 1, ret at 1.
        rewrite <- !app_assoc in Hloop |- *. simpl in Hloop |- *.
        rewrite Hloop. f_equal. rewrite Hacc1. by rewrite <- !app_assoc.
      * destruct (IHcs acc1 tmp Hcs) as (tmp2 & Hloop). exists tmp2.
        unfold mbind at 1, M_bind at 1, bind at 1, ret at 1.
        rewrite Hloop. f_equal. rewrite Hacc1. by rewrite <- !app_assoc.
    + destruct (IHcs acc1 tmp Hcs) as (tmp2 & Hloop). exists tmp2.
      unfold mbind at 1, M_bind at 1, bind at 1, ret at 1.
      rewrite Hloop. f_equal. rewrite Hacc1. by rewrite <- !app_assoc.
Qed.

Lemma get_children_spec rec : ∀ d, search_returns h nm ky rec d.
Proof.
  induction d as [d IH] using lt_wf_ind.
  intros self n cs tmp Hn Hcs Hdepth.
  destruct (get_children_loop_spec rec d) with (cs := cs) (acc := @nil nat)
  (tmp := tmp) as (tmp' & Hloop); [| done |].
  { intros d' ->. apply IH. lia. }
  exists tmp'. cbn [get_children].
  unfold asrt. rewrite (criterion_given _ _ Hcrit).
  unfold mbind at 1, M_bind at 1, bind at 1, ret at 1.
  rewrite (bind_ok _ _ _ _ _
           (get_node_ok _ _ _ (lookup_app_l_Some _ tmp _ _ Hn))).
  rewrite Hcs. rewrite (bind_ok _ _ _ _ _ Hloop). simpl.
  pose proof (find_matches_exist h nm ky rec d cs Hdepth) as Hex.
  unfold RollerUpper_init. rewrite init_children_ok.
  - by rewrite children_items_app.
  - eapply Forall_impl; [exact Hex |]. intros c [x Hx].
    exists x. by apply lookup_app_l_Some.
Qed.
End Search.

(** C7, as the code has it: [get_children] fails with a ConfigurationError
    when neither [name] nor [key] is given.  When at least one is given, so
    also when both are, it returns a new instance with the given name and
    key whose children are the matches and whose items are theirs; the
    matches are decided by the text of the name whenever [name] is given,
    whatever [key] is, and by equality of the key when only [key] is
    given. *)
Theorem find_criteria h self n cs nm ky rec d :
  h !! self = Some n → children n = Some cs →
  forallb (depth_le h d) cs = true →
  (∀ fuel fo,
     get_children (S fuel) self PNone PNone rec fo h
     = (Raise (ConfigurationError "must specify name or key"), h)) ∧
  (nm ≠ PNone ∨ ky ≠ PNone →
   ∃ r h',
     get_children (S d) self nm ky rec false h = (Ok r, h') ∧
     h !! r = None ∧
     h' !! r = Some (Node ClsRollerUpper nm ky
                       (children_items h (find_matches h d nm ky rec cs))
                       (Some (find_matches h d nm ky rec cs)))) ∧
  (nm ≠ PNone →
   ∀ cn, matches nm ky cn = String.eqb (py_str (name cn)) (py_str nm)) ∧
  (ky ≠ PNone → ∀ cn, matches PNone ky cn = py_eq (key cn) ky).
Proof.
  intros Hn Hcs Hdepth. split; [| split; [| split]].
  - intros fuel fo. reflexivity.
  - intros Hcrit.
    destruct (get_children_spec h nm ky Hcrit rec d self n cs [] Hn Hcs Hdepth)
      as (tmp' & Hrun).
    rewrite !app_nil_r in Hrun. simpl in Hrun.
    eexists _, _. split; [exact Hrun |]. split.
    + apply lookup_ge_None. rewrite length_app. lia.
    + by apply list_lookup_middle.
  - intros Hnm [c1 n1 k1 d1 cs1]. unfold matches. simpl.
    apply py_eq_false in Hnm. unfold py_ne. by rewrite Hnm.
  - intros Hky [c1 n1 k1 d1 cs1]. unfold matches. simpl.
    apply py_eq_false in Hky. unfold py_ne. by rewrite Hky.
Qed.

Lemma find_criteria_witness :
  get_children 2 2 PNone PNone true false nested_store
  = (Raise (ConfigurationError "must specify name or key"), nested_store) ∧
  ∃ r h',
    get_children 2 2 (PStr "x") PNone true false nested_store = (Ok r, h') ∧
    h' !! r = Some (Node ClsRollerUpper (PStr "x") PNone sample_items (Some [0])).
Proof.
  destruct (find_criteria nested_store 2
              (Node ClsRollerUpper (PStr "root") (PInt 0) sample_items (Some [1]))
              [1] (PStr "x") PNone true 1 eq_refl eq_refl eq_refl)
    as (Hnone & Hsome & _).
  split; [apply Hnone |].
  destruct Hsome as (r & h' & Hrun & _ & Hr); [by left |].
  by exists r, h'.
Defined.

(** The claim C7 fails where both criteria are given: the search does not
    fail but matches by name; the child found has the key 1, not 7. *)
Lemma find_with_name_and_key :
  get_children 2 2 (PStr "a") (PInt 7) false false nested_store
  = (Ok 3, nested_store ++
           [Node ClsRollerUpper (PStr "a") (PInt 7) sample_items (Some [1])]).
Proof. vm_compute. reflexivity. Qed.

(** C8 fails on the code: [get_child] with [recursive = False] returns a
    grandchild, which the search [get_children] with [recursive = False]
    does not find. *)
Theorem get_child_ignores_recursive :
  (get_child 3 2 (PStr "x") false nested_store).1 = Ok (Some 0) ∧
  get_children 3 2 (PStr "x") PNone false false nested_store
  = (Ok 3, nested_store ++
           [Node ClsRollerUpper (PStr "x") PNone [] (Some [])]).
Proof. split; vm_compute; reflexivity. Qed.

(** ** The checks of the constructor *)

Lemma collect_data_outcome cs h :
  (∃ d, collect_data cs h = (Ok d, h)) ∨ collect_data cs h = (Raise Stuck, h).
Proof.
  induction cs as [|c cs IH]; simpl; [by left; eexists |].
  unfold mbind, M_bind, bind, get_node.
  destruct (h !! c) as [n|]; [| by right].
  destruct IH as [[d ->] | ->]; [left; by eexists | by right].
Qed.

(** X3: the constructor raises a ConfigurationError exactly when it is
    given neither [data] nor [children], or is given both as non-empty
    lists; given both with one of them empty it does not raise. *)
Lemma init_configuration_error c nm ky d cs h :
  (∃ msg, (__init__ c nm ky d cs h).1 = Raise (ConfigurationError msg)) ↔
  (d = None ∧ cs = None) ∨ (truthy d = true ∧ truthy cs = true).
Proof.
  assert (∀ l nd msg,
            ((collect_data l ≫= λ d0, alloc (nd d0)) h).1
            ≠ Raise (ConfigurationError msg)) as Hcollect.
  { intros l nd msg. unfold mbind, M_bind, bind.
    by destruct (collect_data_outcome l h) as [[dd ->] | ->]. }
  unfold __init__, asrt.
  destruct d as [[|x d]|], cs as [cs|]; simpl; rewrite ?ret_bind.
  - split; [intros [msg H]; by apply Hcollect in H | by intros [[? ?] | [? ?]]].
  - split; [by intros [msg H] | by intros [[? ?] | [? ?]]].
  - destruct cs as [|y cs]; simpl; rewrite ?ret_bind.
    + split; [by intros [msg H] | by intros [[? ?] | [? ?]]].
    + split; [by right | by eexists].
  - split; [by intros [msg H] | by intros [[? ?] | [? ?]]].
  - split; [intros [msg H]; by apply Hcollect in H | by intros [[? ?] | [? ?]]].
  - split; [by left | by eexists].
Qed.

(** C6 fails on the code: given both arguments, of which one is an empty
    list, the constructor does not fail; it makes an instance with the
    given children and drops the data. *)
Theorem init_both_given :
  RollerUpper_init (PStr "r") PNone (Some []) (Some []) []
  = (Ok 0, [Node ClsRollerUpper (PStr "r") PNone [] (Some [])]) ∧
  RollerUpper_init (PStr "r") PNone (Some sample_items) (Some []) []
  = (Ok 0, [Node ClsRollerUpper (PStr "r") PNone [] (Some [])]) ∧
  RollerUpper_init (PStr "r") PNone (Some []) (Some [0]) sample_store
  = (Ok 1, sample_store ++
           [Node ClsRollerUpper (PStr "r") PNone sample_items (Some [0])]).
Proof. repeat split. Qed.

(** ** Grouping an ImmutableRollerUpper *)

(** Grouping an ImmutableRollerUpper that is a leaf changes no instance
    that was there: the store is extended by the copy and its children, and
    the copy is returned. *)
Lemma immutable_leaf_grouping py_exec dict_items fuel h self n fn nf r h' :
  h !! self = Some n → cls n = ClsImmutableRollerUpper → children n = None →
  group_hierarchy_by py_exec dict_items fuel self fn nf h = (Ok r, h') →
  r = Some (length h) ∧ ∃ extra, h' = h ++ extra.
Proof.
  intros Hn Hcls Hleaf H.
  destruct (group_leaf_inv _ _ _ _ _ _ _ _ _ _ Hn Hleaf H)
    as (h0 & nt & Ht & _ & _ & _ & Hg & Hr).
  rewrite Hcls in Hr. destruct Hr as [-> ->]. split; [done |].
  simpl in Hg.
  apply group_by_inv in Hg as (n0 & g & ns & s & _ & _ & _ & -> & _ & _).
  unfold grouped. rewrite <- app_assoc.
  rewrite insert_app_r_alt by lia. rewrite Nat.sub_diag. simpl. eauto.
Qed.

(** C2 fails on the code for an instance with children.  When the children
    hold items, the copy cannot be made: the constructor is given both the
    items and the children and raises.  When they hold none, the copy is
    made of the same child instances, and grouping the copy changes them:
    the child at address 0, a leaf before the call, has an empty list of
    children after it. *)
Theorem immutable_grouping_of_internal :
  group_hierarchy_by attr_chain insertion_order 3 1 "year" None immutable_store
  = (Raise (ConfigurationError "data or children must be specified, not both"),
     immutable_store) ∧
  group_hierarchy_by attr_chain insertion_order 3 1 "year" None immutable_empty_store
  = (Ok (Some 2),
     [Node ClsRollerUpper (PStr "c") PNone [] (Some []);
      Node ClsImmutableRollerUpper (PStr "n") PNone [] (Some [0]);
      Node ClsRollerUpper (PStr "n") PNone [] (Some [0])]).
Proof. split; vm_compute; reflexivity. Qed.

(** ** The order of the items after grouping *)

(** The claim C3 fails after grouping: the leaf holds the transactions 1, 2
    and 3 in this order; grouped by year, its children "2020" and "2021"
    hold transaction 2, and transactions 1 and 3. *)
Lemma items_not_in_children_order :
  ∃ h' n' cs,
    group_hierarchy_by attr_chain insertion_order 1 0 "year" None sample_store = (Ok None, h') ∧
    h' !! 0 = Some n' ∧ children n' = Some cs ∧
    data n' ≠ children_items h' cs.
Proof.
  eexists _, _, _. split; [vm_compute; reflexivity |].
  split; [reflexivity |]. split; [reflexivity |].
  vm_compute. congruence.
Qed.

Lemma items_match_sample : items_match sample_store.
Proof.
  intros a n cs Ha Hcs. destruct a as [|a]; simpl in Ha.
  - injection Ha as <-. discriminate.
  - by destruct a.
Qed.

Lemma items_of_children_witness :
  (∃ nd,
     (sample_store ++
        [Node ClsRollerUpper (PStr "top") PNone sample_items (Some [0])]) !! 1
     = Some nd ∧
     children nd = Some [0] ∧
     Forall (λ x, is_Some
        ((sample_store ++
            [Node ClsRollerUpper (PStr "top") PNone sample_items (Some [0])])
         !! x)) [0] ∧
     data nd =
       children_items
         (sample_store ++
            [Node ClsRollerUpper (PStr "top") PNone sample_items (Some [0])])
         [0]) ∧
  items_match (group_hierarchy_by attr_chain insertion_order 1 0 "year" None sample_store).2.
Proof.
  destruct (items_of_children attr_chain insertion_order insertion_order_perm
              ClsRollerUpper (PStr "top") PNone None
              [0] 1 0 "year" None sample_store 1
              (sample_store ++
                 [Node ClsRollerUpper (PStr "top") PNone sample_items (Some [0])])
              None
              (group_hierarchy_by attr_chain insertion_order 1 0 "year" None sample_store).2)
    as [Hinit Hgroup].
  split.
  - apply Hinit. reflexivity.
  - apply Hgroup; [exact items_match_sample | vm_compute; reflexivity].
Defined.

(** ** Grouping returns *)

Lemma new_children_total (g : dict) :
  ∃ ns, new_children None g = Ok ns.
Proof.
  induction g as [|[k v] g [ns IH]]; simpl; [by eexists |].
  destruct (py_eq k PNone); [by eexists |].
  rewrite IH. simpl. by eexists.
Qed.

(** Grouping a RollerUpper leaf whose items all have a grouping value
    returns, with any fuel but none. *)
Lemma group_leaf_returns py_exec dict_items fuel h self n fn :
  h !! self = Some n → cls n = ClsRollerUpper → children n = None →
  Forall (λ d, ∃ k, eval_field py_exec fn d = Ok k) (data n) →
  ∃ h',
    group_hierarchy_by py_exec dict_items (S fuel) self fn None h
    = (Ok None, h').
Proof.
  intros Hn Hcls Hleaf Hall.
  destruct (group_loop_ok py_exec fn [] (data n) [] (groups_of_nil _ _) Hall)
    as (g & Hg & _).
  destruct (new_children_total (dict_items g)) as [ns Hns].
  destruct (group_by_ok py_exec dict_items _ _ _ _ _ _ _ Hn Hg Hns)
    as (s & Hrun & _).
  eexists. simpl.
  rewrite (bind_ok _ _ _ _ _ (get_node_ok _ _ _ Hn)). rewrite Hcls, Hleaf.
  by rewrite (bind_ok _ _ _ _ _ Hrun).
Qed.

(** ** The scenarios of the specification *)

(** Three transactions of the years 2020, 2020 and 2021, grouped by year:
    two children, named "2020" with two items and "2021" with one. *)
Example group_by_year :
  let items := [tx 1 (PInt 2020) PNone; tx 2 (PInt 2021) PNone;
                tx 3 (PInt 2020) PNone] in
  group_hierarchy_by attr_chain insertion_order 1 0 "year" None
    [Node ClsRollerUpper (PStr "root") PNone items None]
  = (Ok None,
     [Node ClsRollerUpper (PStr "root") PNone items (Some [1; 2]);
      Node ClsRollerUpper (PStr "2020") (PInt 2020)
           [tx 1 (PInt 2020) PNone; tx 3 (PInt 2020) PNone] None;
      Node ClsRollerUpper (PStr "2021") (PInt 2021)
           [tx 2 (PInt 2021) PNone] None]).
Proof. vm_compute. reflexivity. Qed.

(** Grouping the sample items by category: the item without a category is
    in the child "Unknown", created last and sorted first. *)
Example group_by_category :
  group_hierarchy_by attr_chain insertion_order 1 0 "category" None sample_store
  = (Ok None,
     [Node ClsRollerUpper (PStr "root") PNone sample_items (Some [3; 2; 1]);
      Node ClsRollerUpper (PStr "b") (PStr "b")
           [tx 1 (PInt 2021) (PStr "b")] None;
      Node ClsRollerUpper (PStr "a") (PStr "a")
           [tx 3 (PInt 2021) (PStr "a")] None;
      Node ClsRollerUpper (PStr "Unknown") PNone
           [tx 2 (PInt 2020) PNone] None]).
Proof. vm_compute. reflexivity. Qed.

(** A snippet with a dot is run by the interpreter: orders grouped by
    [date.year], the children named after [date.year.text]. *)
Example group_by_snippet :
  let year (y : Z) (t : string) :=
    PObj t [("n", PInt y); ("text", PStr t)] in
  let order (y : Z) (t : string) :=
    PObj "order" [("date", PObj "date" [("year", year y t)])] in
  let items := [order 2021%Z "MMXXI"; order 2020%Z "MMXX"] in
  (group_hierarchy_by attr_chain insertion_order 1 0 "date.year" (Some "text")
     [Node ClsRollerUpper (PStr "root") PNone items None]).2 !! 0
  = Some (Node ClsRollerUpper (PStr "root") PNone items (Some [2; 1])).
Proof. vm_compute. reflexivity. Qed.

(** A leaf without items gets an empty list of children. *)
Example group_empty_leaf :
  group_hierarchy_by attr_chain insertion_order 1 0 "year" None
    [Node ClsRollerUpper (PStr "root") PNone [] None]
  = (Ok None, [Node ClsRollerUpper (PStr "root") PNone [] (Some [])]).
Proof. vm_compute. reflexivity. Qed.

(** With a dictionary that yields its entries in the reverse order the
    children are created in another order and sorted the same. *)
Example group_by_year_reversed :
  let items := [tx 1 (PInt 2020) PNone; tx 2 (PInt 2021) PNone;
                tx 3 (PInt 2020) PNone] in
  group_hierarchy_by attr_chain (@rev _) 1 0 "year" None
    [Node ClsRollerUpper (PStr "root") PNone items None]
  = (Ok None,
     [Node ClsRollerUpper (PStr "root") PNone items (Some [2; 1]);
      Node ClsRollerUpper (PStr "2021") (PInt 2021)
           [tx 2 (PInt 2021) PNone] None;
      Node ClsRollerUpper (PStr "2020") (PInt 2020)
           [tx 1 (PInt 2020) PNone; tx 3 (PInt 2020) PNone] None]).
Proof. vm_compute. reflexivity. Qed.

(** ** Grouping a whole tree *)

Lemma gt_same_names (x y x' y' : node) :
  name x' = name x → name y' = name y → __gt__ x' y' = __gt__ x y.
Proof.
  intros Hx Hy. unfold __gt__, GenericComparator.gt, GenericComparator._key.
  simpl. unfold getattr, node_has_attr, node_getattr. simpl.
  by rewrite Hx, Hy.
Qed.

Lemma string_named_frame (h h' : heap) (cs : list addr) :
  frame h h' → string_named h cs → string_named h' cs.
Proof.
  intros Hf Hn. unfold string_named in *.
  eapply Forall_impl; [exact Hn |]. intros c (nd & s & Hc & Hs).
  destruct (Hf _ _ Hc) as (nd' & Hc' & _ & Hname & _).
  exists nd', s. split; [done |]. congruence.
Qed.

Lemma sorted_by_name_frame (h h' : heap) (cs : list addr) :
  frame h h' → string_named h cs →
  sorted_by_name h cs → sorted_by_name h' cs.
Proof.
  intros Hf Hn Hs. unfold sorted_by_name, string_named in *.
  induction Hs as [|a l Hl IH Ha]; [constructor |].
  apply Forall_cons in Hn as [(na & sa & Hna & _) Hn].
  constructor; [by apply IH |].
  rewrite Forall_forall in Ha, Hn |- *. intros b Hb.
  destruct (Hn _ Hb) as (nb & sb & Hnb & _).
  destruct (Hf _ _ Hna) as (na' & Hna' & _ & Ea & _).
  destruct (Hf _ _ Hnb) as (nb' & Hnb' & _ & Eb & _).
  specialize (Ha _ Hb). unfold addr_gt in *.
  rewrite Hna, Hnb in Ha. rewrite Hna', Hnb'.
  by rewrite (gt_same_names na nb na' nb').
Qed.

Lemma string_named_is_Some (h : heap) (cs : list addr) :
  string_named h cs → Forall (λ c, is_Some (h !! c)) cs.
Proof.
  intros Hn. eapply Forall_impl; [exact Hn |]. intros c (nd & ? & ? & _). eauto.
Qed.

Lemma keeps_children_refl h : keeps_children h h.
Proof. intros a n cs Ha Hcs. eauto. Qed.

Lemma leaves_grouped_refl h : leaves_grouped h h.
Proof. intros a n n' cs Ha Hleaf Ha' Hcs. congruence. Qed.

Lemma keeps_children_app h t : keeps_children h (h ++ t).
Proof.
  intros a n cs Ha Hcs. exists n. split; [| done]. by apply lookup_app_l_Some.
Qed.

Lemma leaves_grouped_app h t : leaves_grouped h (h ++ t).
Proof.
  intros a n n' cs Ha Hleaf Ha' Hcs.
  rewrite (lookup_app_l_Some _ _ _ _ Ha) in Ha'. congruence.
Qed.

(** Two steps one after the other. *)
Lemma leaves_grouped_trans (h h1 h2 : heap) :
  frame h h1 → frame h1 h2 →
  keeps_children h h1 → leaves_grouped h h1 →
  keeps_children h1 h2 → leaves_grouped h1 h2 →
  keeps_children h h2 ∧ leaves_grouped h h2.
Proof.
  intros Hf1 Hf2 Hk1 Hl1 Hk2 Hl2. split.
  - intros a n cs Ha Hcs.
    destruct (Hk1 _ _ _ Ha Hcs) as (n1 & Ha1 & Hcs1). eauto.
  - intros a n n2 cs Ha Hleaf Ha2 Hcs.
    destruct (Hf1 _ _ Ha) as (n1 & Ha1 & _ & _ & _ & Hd1).
    destruct (children n1) as [cs1|] eqn:Ecs1.
    + destruct (Hk2 _ _ _ Ha1 Ecs1) as (n2' & Ha2' & Hcs2).
      assert (n2' = n2) as -> by congruence.
      assert (cs1 = cs) as -> by congruence.
      destruct (Hl1 _ _ _ _ Ha Hleaf Ha1 Ecs1) as (Hs & Hn & Hp).
      split; [by eapply sorted_by_name_frame |].
      split; [by eapply string_named_frame |].
      destruct (children_items_frame _ _ cs Hf2 (string_named_is_Some _ _ Hn))
        as [_ ->].
      done.
    + destruct (Hl2 _ _ _ _ Ha1 Ecs1 Ha2 Hcs) as (Hs & Hn & Hp).
      split; [done |]. split; [done |]. by rewrite Hp, Hd1.
Qed.

Section Cascade.
Variable py_exec : string → pyval → res pyval.
Variable dict_items : dict → dict.
Hypothesis dict_items_perm : ∀ g, dict_items g ≡ₚ g.

Lemma group_by_leaf_cascade t nt fn nf h h' :
  h !! t = Some nt → children nt = None →
  _group_by py_exec dict_items t fn nf h = (Ok tt, h') →
  keeps_children h h' ∧ leaves_grouped h h'.
Proof.
  intros Ht Hleaf H.
  destruct (group_by_children py_exec dict_items dict_items_perm
              _ _ _ _ _ _ Ht H) as (s & Hs & Hp & Hsorted & Hnamed).
  apply group_by_inv in H as (n & g & ns & s' & _ & _ & _ & -> & _ & _).
  assert (t < length h) as Hlt by (by eapply lookup_lt_Some).
  split.
  - intros a n0 cs Ha Hcs. exists n0. split; [| done].
    assert (a ≠ t) by (intros ->; congruence).
    by rewrite grouped_lookup_old by (done || by eapply lookup_lt_Some).
  - intros a n0 n' cs Ha Hl Ha' Hcs.
    destruct (decide (a = t)) as [-> | Hne].
    + assert (n0 = nt) as -> by congruence.
      rewrite Hs in Ha'. injection Ha' as <-. simpl in Hcs.
      injection Hcs as <-. done.
    + rewrite grouped_lookup_old in Ha'
        by (done || by eapply lookup_lt_Some).
      congruence.
Qed.

Lemma for_each_cascade (f : addr → M unit) (cs : list addr) :
  (∀ c, preserves (f c)) →
  (∀ c h r h', f c h = (Ok r, h') →
     keeps_children h h' ∧ leaves_grouped h h') →
  ∀ h r h', for_each f cs h = (Ok r, h') →
    keeps_children h h' ∧ leaves_grouped h h'.
Proof.
  intros Hpres Hf. induction cs as [|c cs IH]; intros h r h' H; simpl in H.
  - injection H as _ <-.
    split; [apply keeps_children_refl | apply leaves_grouped_refl].
  - apply bind_inv_ok in H as (r1 & h1 & H1 & H2).
    destruct (Hf _ _ _ _ H1) as [Hk1 Hl1].
    destruct (IH _ _ _ H2) as [Hk2 Hl2].
    pose proof (Hpres c h) as Hf1. rewrite H1 in Hf1.
    pose proof (preserves_for_each f cs Hpres h1) as Hf2. rewrite H2 in Hf2.
    by eapply leaves_grouped_trans.
Qed.

(** Whatever instance [group_hierarchy_by] is called on: when it returns,
    every instance that was a leaf and has been given children has them
    sorted by name and holding its items, and every instance that had
    children has the same children. *)
Lemma group_hierarchy_by_cascade fn nf : ∀ fuel self h r h',
  group_hierarchy_by py_exec dict_items fuel self fn nf h = (Ok r, h') →
  keeps_children h h' ∧ leaves_grouped h h'.
Proof.
  induction fuel as [|fuel IH]; intros self h r h' H; simpl in H; [done |].
  apply bind_inv_ok in H as (n & h0 & Hn & H).
  apply get_node_inv in Hn as [Hn ->].
  destruct (cls n).
  - destruct (children n) as [cs|] eqn:Ecs.
    + apply bind_inv_ok in H as ([] & h1 & H1 & Hr). injection Hr as _ <-.
      eapply for_each_cascade; [| | exact H1].
      * intros c. apply preserves_bind; [| intros; apply preserves_ret].
        apply preserves_group_hierarchy_by.
      * intros c h2 r2 h2' H2.
        apply bind_inv_ok in H2 as (r3 & h3 & H3 & Hr). injection Hr as _ <-.
        by eapply IH.
    + apply bind_inv_ok in H as ([] & h1 & H1 & Hr). injection Hr as _ <-.
      by eapply group_by_leaf_cascade.
  - apply bind_inv_ok in H as (c & h1 & Hm & H).
    apply bind_inv_ok in H as (r2 & h2 & Hg & Hr). injection Hr as _ <-.
    unfold mutable in Hm.
    rewrite (bind_ok _ _ _ _ _ (get_node_ok _ _ _ Hn)) in Hm.
    apply init_ok in Hm as (-> & nd & -> & _).
    destruct (IH _ _ _ _ Hg) as [Hk2 Hl2].
    pose proof (preserves_group_hierarchy_by py_exec dict_items fuel
                  (length h) fn nf (h ++ [nd])) as Hf2.
    rewrite Hg in Hf2.
    eapply leaves_grouped_trans;
      eauto using frame_app, keeps_children_app, leaves_grouped_app.
Qed.
End Cascade.

(** ** What [get_child] returns *)

(** With a name given, the key plays no part in matching. *)
Lemma matches_name nm ky ky' cn :
  nm ≠ PNone → matches nm ky cn = matches nm ky' cn.
Proof.
  intros Hnm. destruct cn. unfold matches.
  apply py_eq_false in Hnm. unfold py_ne. by rewrite Hnm.
Qed.

Lemma find_matches_name h nm ky ky' rec : ∀ d cs,
  nm ≠ PNone →
  find_matches h d nm ky rec cs = find_matches h d nm ky' rec cs.
Proof.
  induction d as [d IH] using lt_wf_ind. intros cs Hnm.
  rewrite !(find_matches_eq h d). induction cs as [|c cs IHcs]; simpl; [done |].
  rewrite IHcs. f_equal. destruct (h !! c) as [cn|]; [| done].
  rewrite (matches_name nm ky ky') by done. f_equal.
  destruct rec; [| done]. destruct (children cn); [| done].
  destruct d as [|d']; [done |]. apply IH; [lia | done].
Qed.

Section FirstMatch.
Variables (h : heap) (nm ky : pyval).
Hypothesis Hcrit : nm ≠ PNone ∨ ky ≠ PNone.

(** The body of the loop for a child [c], from the matches [acc1] so far. *)
Lemma get_children_body rec d c cn acc1 tmp :
  h !! c = Some cn → depth_le h d c = true →
  ∃ tmp1,
    ((if rec && negb (is_None (children cn))
      then r ← get_children d c nm ky rec false;
           rn ← get_node r;
           match children rn with
           | Some l => ret (acc1 ++ l)
           | None => raise TypeError
           end
      else ret acc1) : M (list addr)) (h ++ tmp)
    = (Ok (acc1 ++
           (if rec
            then match children cn, d with
                 | Some l, S d' => find_matches h d' nm ky rec l
                 | _, _ => []
                 end
            else [])),
       h ++ tmp ++ tmp1).
Proof.
  intros Hcn Hc. destruct rec; simpl.
  - destruct (children cn) as [l|] eqn:El; simpl.
    + destruct d as [|d'].
      { simpl in Hc. by rewrite Hcn, El in Hc. }
      assert (forallb (depth_le h d') l = true) as Hl.
      { simpl in Hc. by rewrite Hcn, El in Hc. }
      destruct (get_children_spec h nm ky Hcrit true d' c cn l tmp Hcn El Hl)
        as (tmp1 & Hrun).
      eexists (tmp1 ++ [_]).
      rewrite (bind_ok _ _ _ _ _ Hrun).
      rewrite (bind_ok _ _ _ _ _
                 (get_node_ok _ _ _ (list_lookup_middle _ _ _ _ eq_refl))).
      simpl. unfold ret. by rewrite <- !app_assoc.
    + exists []. unfold ret. by rewrite !app_nil_r.
  - exists []. unfold ret. by rewrite !app_nil_r.
Qed.

(** The loop that stops at the first child with a match, started with no
    match: what it returns begins with the first match of the search that
    visits every child. *)
Lemma get_children_loop_first rec d :
  ∀ cs tmp,
    forallb (depth_le h d) cs = true →
    ∃ res tmp',
      get_children_loop (λ c, get_children d c nm ky rec false)
        nm ky rec true cs [] (h ++ tmp)
      = (Ok res, h ++ tmp ++ tmp') ∧
      head res = head (find_matches h d nm ky rec cs) ∧
      Forall (λ c, is_Some (h !! c)) res.
Proof.
  induction cs as [|c cs IHcs]; intros tmp Hcs.
  - exists [], []. rewrite find_matches_eq. simpl. by rewrite !app_nil_r.
  - pose proof (find_matches_exist h nm ky rec d [c]) as Hex.
    simpl in Hcs. apply andb_prop in Hcs as [Hc Hcs].
    pose proof (depth_le_is_Some _ _ _ Hc) as [cn Hcn].
    rewrite find_matches_eq in Hex. simpl in Hex. rewrite Hc, Hcn in Hex.
    rewrite app_nil_r in Hex. specialize (Hex eq_refl).
    rewrite find_matches_eq. simpl. rewrite <- find_matches_eq. rewrite Hcn.
    rewrite (bind_ok _ _ _ _ _
               (get_node_ok _ _ _ (lookup_app_l_Some _ tmp _ _ Hcn))).
    destruct (get_children_body rec d c cn
                (if matches nm ky cn then [c] else []) tmp Hcn Hc)
      as (tmp1 & Hbody).
    rewrite (bind_ok _ _ _ _ _ Hbody).
    set (found := (if matches nm ky cn then [c] else []) ++
                  (if rec
                   then match children cn, d with
                        | Some l, S d' => find_matches h d' nm ky rec l
                        | _, _ => []
                        end
                   else [])) in *.
    destruct found as [|x found'] eqn:Efound; simpl.
    + destruct (IHcs (tmp ++ tmp1) Hcs) as (res & tmp2 & Hrun & Hhead & Hall).
      rewrite <- app_assoc in Hrun. rewrite Hrun.
      by exists res, (tmp1 ++ tmp2).
    + by exists (x :: found'), tmp1.
Qed.

(** [get_children] with [_first_only]: the first child of what it returns
    is the first match of the full search, if there is one. *)
Lemma get_children_first rec d self n cs :
  h !! self = Some n → children n = Some cs →
  forallb (depth_le h d) cs = true →
  ∃ r h' nd res,
    get_children (S d) self nm ky rec true h = (Ok r, h') ∧
    h' !! r = Some nd ∧ children nd = Some res ∧
    head res = head (find_matches h d nm ky rec cs).
Proof.
  intros Hn Hcs Hdepth.
  destruct (get_children_loop_first rec d cs [] Hdepth)
    as (res & tmp' & Hloop & Hhead & Hall).
  rewrite !app_nil_r in Hloop. simpl in Hloop.
  cbn [get_children]. unfold asrt. rewrite (criterion_given _ _ Hcrit).
  rewrite ret_bind.
  rewrite (bind_ok _ _ _ _ _ (get_node_ok _ _ _ Hn)). rewrite Hcs.
  rewrite (bind_ok _ _ _ _ _ Hloop).
  unfold RollerUpper_init. rewrite init_children_ok.
  - eexists _, _, _, res. split; [done |]. split.
    + by apply list_lookup_middle.
    + done.
  - eapply Forall_impl; [exact Hall |]. intros c [x Hx].
    exists x. by apply lookup_app_l_Some.
Qed.
End FirstMatch.

(** With a name given, [get_child] returns the first match of the search
    through all descendants, or nothing when there is none, whatever its
    argument [recursive] is. *)
Lemma get_child_first_match h self n cs nm recursive d :
  nm ≠ PNone →
  h !! self = Some n → children n = Some cs →
  forallb (depth_le h d) cs = true →
  (get_child (S d) self nm recursive h).1
  = Ok (head (find_matches h d nm PNone true cs)).
Proof.
  intros Hnm Hn Hcs Hdepth. unfold get_child.
  destruct (get_children_first h nm (py_bool recursive) (or_introl Hnm)
              true d self n cs Hn Hcs Hdepth)
    as (r & h' & nd & res & Hrun & Hr & Hres & Hhead).
  rewrite (bind_ok _ _ _ _ _ Hrun).
  rewrite (bind_ok _ _ _ _ _ (get_node_ok _ _ _ Hr)). rewrite Hres.
  rewrite <- (find_matches_name h nm (py_bool recursive) PNone true d cs Hnm).
  rewrite <- Hhead. by destruct res.
Qed.

(** ** The generator and the four comparisons of GenericComparator *)

Lemma list_eq_zip (k1 k2 : list pyval) :
  length k1 = length k2 →
  list_eq k1 k2 = forallb (λ p, py_eq p.1 p.2) (zip k1 k2).
Proof.
  unfold list_eq. revert k2.
  induction k1 as [|x k1 IH]; intros [|y k2] Hlen; simpl in *; try done.
  injection Hlen as Hlen. rewrite <- (IH k2 Hlen).
  destruct (decide (x = y)) as [->|Hxy].
  - rewrite py_eq_refl. simpl. apply bool_decide_ext. split; congruence.
  - apply py_eq_false in Hxy as Hxy'. rewrite Hxy'. simpl.
    apply bool_decide_eq_false. congruence.
Qed.

Section ComparatorFields.
Context {O : Type} `{HasAttr O}.
Variable fs : list string.

Lemma yield_of_keys (l : list string) (o1 o2 : O) (k1 k2 : list pyval) :
  GenericComparator._key_of l o1 = Ok k1 →
  GenericComparator._key_of l o2 = Ok k2 →
  GenericComparator._yield_field_values_of l o1 o2 = (zip k1 k2, None).
Proof.
  revert k1 k2. induction l as [|x l IH]; intros k1 k2; simpl.
  - by intros [= <-] [= <-].
  - destruct (getattr o1 x) as [v1|]; simpl; [| done].
    destruct (GenericComparator._key_of l o1) as [k1'|]; simpl; [| done].
    intros [= <-].
    destruct (getattr o2 x) as [v2|]; simpl; [| done].
    destruct (GenericComparator._key_of l o2) as [k2'|]; simpl; [| done].
    intros [= <-]. by rewrite (IH k1' k2').
Qed.

Lemma keys_of_yield (l : list string) (o1 o2 : O) (ys : list (pyval * pyval)) :
  GenericComparator._yield_field_values_of l o1 o2 = (ys, None) →
  ∃ k1 k2,
    GenericComparator._key_of l o1 = Ok k1 ∧
    GenericComparator._key_of l o2 = Ok k2.
Proof.
  revert ys. induction l as [|x l IH]; intros ys; simpl.
  - intros _. by exists [], [].
  - destruct (getattr o1 x) as [v1|]; simpl; [| done].
    destruct (getattr o2 x) as [v2|]; simpl; [| done].
    destruct (GenericComparator._yield_field_values_of l o1 o2)
      as [rest e] eqn:E.
    simpl. intros [= <- ->].
    destruct (IH rest eq_refl) as (k1 & k2 & -> & ->). simpl. eauto.
Qed.

(** X1: the generator [_yield_field_values] ends without an exception
    exactly when the configured fields of both objects can be read; the
    pairs it yields are then the elements of the two keys, position by
    position, and [eq] returns whether the two values of every pair are
    equal. *)
Theorem yield_field_values_keys (o1 o2 : O) (ys : list (pyval * pyval)) :
  GenericComparator._yield_field_values fs o1 o2 = (ys, None) ↔
  ∃ k1 k2,
    GenericComparator._key fs o1 = Ok k1 ∧
    GenericComparator._key fs o2 = Ok k2 ∧
    ys = zip k1 k2 ∧
    GenericComparator.eq fs o1 o2 = Ok (forallb (λ p, py_eq p.1 p.2) ys).
Proof.
  unfold GenericComparator._yield_field_values, GenericComparator._key,
    GenericComparator.eq, GenericComparator._key.
  split.
  - intros Hy. destruct (keys_of_yield _ _ _ _ Hy) as (k1 & k2 & Hk1 & Hk2).
    rewrite (yield_of_keys _ _ _ _ _ Hk1 Hk2) in Hy. injection Hy as <-.
    exists k1, k2. rewrite Hk1, Hk2. simpl.
    repeat split. f_equal. apply list_eq_zip.
    rewrite (_key_of_length _ _ _ Hk1). by rewrite (_key_of_length _ _ _ Hk2).
  - intros (k1 & k2 & Hk1 & Hk2 & -> & _). by apply yield_of_keys.
Qed.

(** X2: when the configured fields of both objects can be read, [gt] is
    [lt] with the arguments exchanged, [eq] does not depend on the order of
    its arguments, and [eq] and [ne] return, [ne] the negation of [eq]:
    they do not raise where the values of a field are not ordered. *)
Theorem comparisons_agree (o1 o2 : O) (k1 k2 : list pyval) :
  GenericComparator._key fs o1 = Ok k1 →
  GenericComparator._key fs o2 = Ok k2 →
  GenericComparator.gt fs o1 o2 = GenericComparator.lt fs o2 o1 ∧
  GenericComparator.eq fs o1 o2 = GenericComparator.eq fs o2 o1 ∧
  ∃ b, GenericComparator.eq fs o1 o2 = Ok b ∧
       GenericComparator.ne fs o1 o2 = Ok (negb b).
Proof.
  intros Hk1 Hk2.
  unfold GenericComparator.gt, GenericComparator.lt, GenericComparator.eq,
    GenericComparator.ne.
  rewrite Hk1, Hk2. simpl. split; [apply list_gt_lt |]. split.
  - f_equal. unfold list_eq. apply bool_decide_ext. split; congruence.
  - by eexists.
Qed.
End ComparatorFields.

Lemma comparisons_agree_witness :
  GenericComparator.gt ["a"; "b"] (point 1 3) (point 1 2)
  = GenericComparator.lt ["a"; "b"] (point 1 2) (point 1 3) ∧
  GenericComparator.eq ["a"; "b"] (point 1 3) (point 1 2)
  = GenericComparator.eq ["a"; "b"] (point 1 2) (point 1 3) ∧
  ∃ b, GenericComparator.eq ["a"; "b"] (point 1 3) (point 1 2) = Ok b ∧
       GenericComparator.ne ["a"; "b"] (point 1 3) (point 1 2) = Ok (negb b).
Proof.
  exact (comparisons_agree ["a"; "b"] (point 1 3) (point 1 2)
           [PInt 1; PInt 3] [PInt 1; PInt 2] eq_refl eq_refl).
Defined.

(** ** Copies of an ImmutableRollerUpper *)

(** X4: an ImmutableRollerUpper constructed from children that hold at
    least one item cannot be copied or grouped: [mutable] hands both the
    items and the children to the constructor, which raises a
    ConfigurationError; no instance is made and none is changed. *)
Theorem immutable_internal_not_grouped py_exec dict_items
    (fuel : nat) (nm : pyval) (d : option (list pyval)) (cs : list addr)
    (h : heap) (r : addr) (h' : heap) (fn : string) (nf : option string) :
  ImmutableRollerUpper_init nm d (Some cs) h = (Ok r, h') →
  children_items h cs ≠ [] →
  mutable r h'
  = (Raise (ConfigurationError "data or children must be specified, not both"),
     h') ∧
  group_hierarchy_by py_exec dict_items (S fuel) r fn nf h'
  = (Raise (ConfigurationError "data or children must be specified, not both"),
     h').
Proof.
  intros Hinit Hitems. unfold ImmutableRollerUpper_init in Hinit.
  apply init_ok in Hinit
    as (-> & nd & -> & Hcls & Hname & Hkey & Hkids & Hall & Hdata).
  assert ((h ++ [nd]) !! length h = Some nd) as Hnd
    by (by apply list_lookup_middle).
  assert (mutable (length h) (h ++ [nd])
          = (Raise (ConfigurationError
                      "data or children must be specified, not both"),
             h ++ [nd])) as Hmut.
  { unfold mutable. rewrite (bind_ok _ _ _ _ _ (get_node_ok _ _ _ Hnd)).
    rewrite Hkids, Hdata. unfold RollerUpper_init, __init__.
    destruct cs as [|c cs]; [done |].
    destruct (children_items h (c :: cs)) as [|x l]; done. }
  split; [done |]. simpl.
  rewrite (bind_ok _ _ _ _ _ (get_node_ok _ _ _ Hnd)). rewrite Hcls.
  by rewrite (bind_raise _ _ _ _ _ Hmut).
Qed.

Lemma immutable_internal_not_grouped_witness :
  ImmutableRollerUpper_init (PStr "n") None (Some [0])
    [Node ClsRollerUpper (PStr "c") PNone sample_items None]
  = (Ok 1, immutable_store) ∧
  mutable 1 immutable_store
  = (Raise (ConfigurationError "data or children must be specified, not both"),
     immutable_store) ∧
  group_hierarchy_by attr_chain insertion_order 1 1 "year" None immutable_store
  = (Raise (ConfigurationError "data or children must be specified, not both"),
     immutable_store).
Proof.
  split; [vm_compute; reflexivity |].
  apply (immutable_internal_not_grouped attr_chain insertion_order 0
           (PStr "n") None [0]
           [Node ClsRollerUpper (PStr "c") PNone sample_items None]
           1 immutable_store "year" None).
  - vm_compute. reflexivity.
  - vm_compute. congruence.
Defined.

(** X5: grouping an ImmutableRollerUpper that is a leaf returns a new
    RollerUpper with the name and the items of the leaf, with no key, and
    with the children made by grouping; the store is the old one extended
    by the copy and its children, so the leaf and every other instance are
    as they were. *)
Theorem immutable_leaf_copy py_exec dict_items
    (fuel : nat) (h : heap) (self : addr) (n : node) (fn : string)
    (nf : option string) (r : option addr) (h' : heap) :
  h !! self = Some n → cls n = ClsImmutableRollerUpper → children n = None →
  group_hierarchy_by py_exec dict_items fuel self fn nf h = (Ok r, h') →
  ∃ kids extra,
    r = Some (length h) ∧
    h' = h ++ Node ClsRollerUpper (name n) PNone (data n) (Some kids) :: extra ∧
    Forall (λ c, length h < c < length h') kids.
Proof.
  intros Hn Hcls Hleaf H.
  destruct (group_leaf_inv _ _ _ _ _ _ _ _ _ _ Hn Hleaf H)
    as (h0 & nt & Ht & _ & _ & _ & Hg & Hr).
  rewrite Hcls in Hr. destruct Hr as [-> ->]. simpl in Hg, Ht.
  apply group_by_inv in Hg as (n0 & g & ns & s & Hn0 & _ & _ & -> & Hp & _).
  rewrite Ht in Hn0. injection Hn0 as <-.
  rewrite list_lookup_middle in Ht by done. injection Ht as <-.
  exists s, (ns ++ unknown_child (dict_items g)).
  split; [done |]. split.
  - unfold grouped. rewrite <- app_assoc.
    rewrite insert_app_r_alt by lia. by rewrite Nat.sub_diag.
  - apply Forall_forall. intros c Hc. rewrite Hp in Hc.
    apply elem_of_seq in Hc. rewrite !length_app in Hc. simpl in Hc.
    unfold grouped. rewrite length_insert, !length_app. simpl. lia.
Qed.

Lemma immutable_leaf_copy_witness :
  ∃ kids extra,
    (group_hierarchy_by attr_chain insertion_order 2 0 "year" None
       [Node ClsImmutableRollerUpper (PStr "n") PNone sample_items None]).1
    = Ok (Some 1) ∧
    (group_hierarchy_by attr_chain insertion_order 2 0 "year" None
       [Node ClsImmutableRollerUpper (PStr "n") PNone sample_items None]).2
    = [Node ClsImmutableRollerUpper (PStr "n") PNone sample_items None] ++
      Node ClsRollerUpper (PStr "n") PNone sample_items (Some kids) :: extra.
Proof.
  destruct (immutable_leaf_copy attr_chain insertion_order 2
              [Node ClsImmutableRollerUpper (PStr "n") PNone sample_items None]
              0 (Node ClsImmutableRollerUpper (PStr "n") PNone sample_items None)
              "year" None (Some 1)
              (group_hierarchy_by attr_chain insertion_order 2 0 "year" None
                 [Node ClsImmutableRollerUpper (PStr "n") PNone sample_items
                    None]).2
              eq_refl eq_refl eq_refl)
    as (kids & extra & _ & Hh & _).
  - vm_compute. reflexivity.
  - exists kids, extra. split; [vm_compute; reflexivity | exact Hh].
Defined.

(** ** When grouping returns and what a failure leaves *)

Lemma dict_append_keys (k d : pyval) (g g' : dict) :
  dict_append k d g = Ok g' → dict_keys g' = dict_keys g.
Proof.
  unfold dict_keys. revert g'.
  induction g as [|[k' v'] g IH]; intros g'; simpl; [done |].
  destruct (py_eq k k'); [by intros [= <-] |].
  destruct (dict_append k d g) as [g''|]; simpl; [| done].
  intros [= <-]. simpl. f_equal. by apply IH.
Qed.

Lemma dict_setitem_keys (k : pyval) (v : list pyval) (g : dict) (x : pyval) :
  x ∈ dict_keys (dict_setitem k v g) → x = k ∨ x ∈ dict_keys g.
Proof.
  unfold dict_keys. induction g as [|[k' v'] g IH]; simpl.
  - intros Hx. apply list_elem_of_singleton in Hx. by left.
  - destruct (py_eq k k'); simpl; [by right |].
    rewrite !elem_of_cons. intros [-> | Hx]; [by right; left |].
    destruct (IH Hx); [by left | by right; right].
Qed.

Section GroupReturns.
Variable py_exec : string → pyval → res pyval.
Variable dict_items : dict → dict.
Hypothesis dict_items_perm : ∀ g, dict_items g ≡ₚ g.
Variable fn : string.


(** Every key of the dictionary is the grouping value of an item. *)
Lemma group_loop_keys (ds : list pyval) (g g' : dict) :
  group_loop py_exec fn ds g = Ok g' →
  ∀ k, k ∈ dict_keys g' → k ∈ dict_keys g ∨ value_occurs py_exec fn ds k.
Proof.
  revert g. induction ds as [|d ds IH]; intros g; simpl.
  - intros [= <-] k Hk. by left.
  - destruct (eval_field py_exec fn d) as [val|] eqn:Hd; simpl; [| done].
    destruct (dict_append val d _) as [g1|] eqn:Hg1; simpl; [| done].
    intros Hloop k Hk.
    destruct (IH _ Hloop k Hk) as [Hin | (d' & Hd' & Hv)].
    + rewrite (dict_append_keys _ _ _ _ Hg1) in Hin.
      destruct (negb (py_in val (dict_keys g))); [| by left].
      apply dict_setitem_keys in Hin as [-> | Hin]; [| by left].
      right. exists d. split; [by left | done].
    + right. exists d'. split; [by right | done].
Qed.



End GroupReturns.



(** ** A failure while the children are made *)

Section HalfGrouped.
Variables (self : addr) (n : node) (h : heap).
Hypothesis Hself : self < length h.

Lemma children_loop_raise (nf : option string) (items : dict) (e : exn) :
  ∀ kids extra u,
    new_children nf items = Raise e →
    ∃ kids' extra',
      children_loop self nf items u (grouped self n kids h extra)
      = (Raise e, grouped self n kids' h extra').
Proof.
  induction items as [|[k v] items IH]; intros kids extra u; simpl; [done |].
  destruct (py_eq k PNone); [apply IH |].
  destruct (child_name_key nf k) as [nk|e'] eqn:Enk; simpl.
  - destruct (new_children nf items) as [rest|e'] eqn:Erest; simpl; [done |].
    intros [= ->]. unfold mbind, M_bind, bind, lift.
    unfold RollerUpper_init. rewrite init_leaf_ok, grouped_alloc by done.
    rewrite grouped_append_child by done. by apply IH.
  - intros [= ->]. unfold mbind, M_bind, bind, lift. eauto.
Qed.
End HalfGrouped.

Section GroupValues.
Variable py_exec : string → pyval → res pyval.
Variable dict_items : dict → dict.
Hypothesis dict_items_perm : ∀ g, dict_items g ≡ₚ g.
Variable fn : string.


Lemma new_children_values (nf : option string) (ds : list pyval)
    (items : dict) (ns : list node) :
  (∀ k v, (k, v) ∈ items →
     v = filter (λ d, has_value py_exec fn k d = true) ds) →
  new_children nf items = Ok ns →
  (∀ k v, (k, v) ∈ items → k ≠ PNone →
     ∃ nd, nd ∈ ns ∧ child_of_value py_exec fn nf ds k = Ok nd) ∧
  (∀ nd, nd ∈ ns →
     ∃ k, k ≠ PNone ∧ k ∈ dict_keys items ∧
          child_of_value py_exec fn nf ds k = Ok nd).
Proof.
  unfold dict_keys, child_of_value. revert ns.
  induction items as [|[k v] items IH]; intros ns Hfil; simpl.
  - intros [= <-]. split.
    + intros k v Hin. by apply elem_of_nil in Hin.
    + intros nd Hin. by apply elem_of_nil in Hin.
  - assert (∀ k v, (k, v) ∈ items →
              v = filter (λ d, has_value py_exec fn k d = true) ds) as Hfil'.
    { intros k' v' Hin. apply Hfil. by right. }
    destruct (py_eq k PNone) eqn:Ek.
    + apply py_eq_true in Ek. subst k. intros Hns.
      destruct (IH ns Hfil' Hns) as [IH1 IH2]. split.
      * intros k v' Hin Hk. apply elem_of_cons in Hin as [[= -> ->] | Hin];
          [done | by eapply IH1].
      * intros nd Hnd. destruct (IH2 nd Hnd) as (k & Hk & Hin & Hc).
        exists k. split; [done |]. split; [by right | done].
    + apply py_eq_false in Ek.
      destruct (child_name_key nf k) as [nk|] eqn:Enk; simpl; [| done].
      destruct (new_children nf items) as [rest|] eqn:Erest; simpl; [| done].
      intros [= <-]. destruct (IH rest Hfil' eq_refl) as [IH1 IH2].
      assert (v = filter (λ d, has_value py_exec fn k d = true) ds) as Hv
        by (apply Hfil; by left).
      split.
      * intros k' v' Hin Hk'. apply elem_of_cons in Hin as [[= -> ->] | Hin].
        -- eexists. split; [by left |]. rewrite Enk. simpl. by rewrite <- Hv.
        -- destruct (IH1 k' v' Hin Hk') as (nd & Hnd & Hc).
           exists nd. split; [by right | done].
      * intros nd Hnd. apply elem_of_cons in Hnd as [-> | Hnd].
        -- exists k. split; [done |]. split; [by left |].
           rewrite Enk. simpl. by rewrite <- Hv.
        -- destruct (IH2 nd Hnd) as (k' & Hk' & Hin & Hc).
           exists k'. split; [done |]. split; [by right | done].
Qed.

(** The children that [_group_by] leaves, one by one. *)
Lemma group_by_child_nodes (nf : option string) (h : heap) (t : addr)
    (nt : node) (h' : heap) :
  h !! t = Some nt →
  _group_by py_exec dict_items t fn nf h = (Ok tt, h') →
  ∃ cs,
    h' !! t = Some (set_kids nt (Some cs)) ∧
    (∀ k, k ≠ PNone → value_occurs py_exec fn (data nt) k →
       ∃ c nd, c ∈ cs ∧ h' !! c = Some nd ∧
               child_of_value py_exec fn nf (data nt) k = Ok nd) ∧
    Forall (λ c, ∃ nd, h' !! c = Some nd ∧
              ((nd = Node ClsRollerUpper (PStr "Unknown") PNone
                       (null_items py_exec fn (data nt)) None ∧
                null_items py_exec fn (data nt) ≠ []) ∨
               ∃ k, k ≠ PNone ∧ value_occurs py_exec fn (data nt) k ∧
                    child_of_value py_exec fn nf (data nt) k = Ok nd)) cs.
Proof.
  intros Ht Hg.
  assert (t < length h) as Hlt by (by eapply lookup_lt_Some).
  apply group_by_inv in Hg as (n0 & g & ns & s & Hn0 & Hg & Hns & -> & Hp & _).
  assert (n0 = nt) as -> by congruence.
  pose proof (groups_of_perm _ _ _ _ _ (dict_items_perm g)
                (group_loop_groups _ _ _ _ Hg)) as Hgroups.
  pose proof Hgroups as (_ & Hfil & Hcov & _).
  destruct (new_children_values nf (data nt) _ _ Hfil Hns) as [Hvals Hnodes].
  set (all := ns ++ unknown_child (dict_items g)) in *.
  exists s. split; [by apply grouped_lookup_self |]. split.
  - intros k Hk (d & Hd & Hv).
    destruct (Hcov d Hd) as (k' & Hk' & Hin).
    assert (k' = k) as -> by congruence.
    unfold dict_keys in Hin.
    apply list_elem_of_fmap in Hin as ([k' v] & -> & Hin).
    destruct (Hvals _ _ Hin Hk) as (nd & Hnd & Hc).
    apply list_elem_of_lookup in Hnd as [i Hi].
    exists (length h + i), nd. split; [| split; [| done]].
    + rewrite Hp. apply elem_of_seq. apply lookup_lt_Some in Hi.
      unfold all. rewrite length_app. lia.
    + rewrite grouped_lookup_new by done. unfold all.
      by apply lookup_app_l_Some.
  - apply Forall_forall. intros c Hc. rewrite Hp in Hc.
    apply elem_of_seq in Hc as [Hlo Hhi].
    replace c with (length h + (c - length h)) by lia.
    rewrite grouped_lookup_new by done.
    destruct (all !! (c - length h)) as [nd|] eqn:E;
      [| apply lookup_ge_None in E; lia].
    exists nd. split; [done |].
    apply list_elem_of_lookup_2 in E. unfold all in E.
    apply elem_of_app in E as [E | E].
    + right. destruct (Hnodes nd E) as (k & Hk & Hin & Hch).
      exists k. split; [done |]. split; [| done].
      unfold dict_keys in Hin.
      apply list_elem_of_fmap in Hin as ([k' v] & -> & Hin).
      rewrite (dict_items_perm g) in Hin.
      destruct (group_loop_keys py_exec fn _ _ _ Hg k') as [Hk' | Hocc];
        [| by apply elem_of_nil in Hk' | done].
      unfold dict_keys. apply list_elem_of_fmap. by exists (k', v).
    + left. unfold unknown_child in E.
      rewrite (unknown_data_of_groups _ _ _ _ Hgroups) in E.
      destruct (null_items py_exec fn (data nt)) as [|x l] eqn:Enull;
        [by apply elem_of_nil in E |].
      apply list_elem_of_singleton in E. by subst nd.
Qed.

(** X9: after grouping a leaf, every grouping value other than [None]
    that an item has is held by a child: the child holds exactly the items
    with that value, in the order they have in the leaf; without a name
    field its key is the value and its name the text of the value, with a
    name field its key is that field of the value and its name the text of
    the key.  Every child is such a child or the child "Unknown" with key
    [None]. *)
Theorem grouped_children_hold_values (nf : option string) (fuel : nat)
    (h : heap) (self : addr) (n : node) (r : option addr) (h' : heap) :
  h !! self = Some n → children n = None →
  group_hierarchy_by py_exec dict_items fuel self fn nf h = (Ok r, h') →
  ∃ n' cs,
    h' !! default self r = Some n' ∧ children n' = Some cs ∧
    (∀ k, k ≠ PNone → value_occurs py_exec fn (data n) k →
       ∃ c nd, c ∈ cs ∧ h' !! c = Some nd ∧
               child_of_value py_exec fn nf (data n) k = Ok nd) ∧
    Forall (λ c, ∃ nd, h' !! c = Some nd ∧
              (is_unknown_child nd ∨
               ∃ k, k ≠ PNone ∧ value_occurs py_exec fn (data n) k ∧
                    child_of_value py_exec fn nf (data n) k = Ok nd)) cs.
Proof.
  intros Hn Hleaf H.
  destruct (group_leaf_inv _ _ _ _ _ _ _ _ _ _ Hn Hleaf H)
    as (h0 & nt & Ht & Hdata & _ & _ & Hg & _).
  destruct (group_by_child_nodes nf _ _ _ _ Ht Hg) as (cs & Hcs & Hvals & Hall).
  rewrite Hdata in Hvals, Hall.
  exists (set_kids nt (Some cs)), cs.
  split; [done |]. split; [done |]. split; [done |].
  eapply Forall_impl; [exact Hall |].
  intros c (nd & Hnd & [[Hu _] | Hk]); exists nd; (split; [done |]).
  - left. by rewrite Hu.
  - by right.
Qed.
End GroupValues.


Lemma grouped_children_hold_values_witness :
  let h' := (group_hierarchy_by attr_chain insertion_order 1 0 "year" None
               sample_store).2 in
  ∃ n' cs c,
    h' !! 0 = Some n' ∧ children n' = Some cs ∧ c ∈ cs ∧
    h' !! c = Some (Node ClsRollerUpper (PStr "2021") (PInt 2021)
                      [tx 1 (PInt 2021) (PStr "b"); tx 3 (PInt 2021) (PStr "a")]
                      None).
Proof.
  intros h'.
  assert (group_hierarchy_by attr_chain insertion_order 1 0 "year" None
            sample_store = (Ok None, h')) as Hrun by (vm_compute; reflexivity).
  destruct (grouped_children_hold_values attr_chain insertion_order
              insertion_order_perm "year" None 1 sample_store 0 sample_root
              None h' eq_refl eq_refl Hrun)
    as (n' & cs & Hn' & Hcs & Hvals & _).
  destruct (Hvals (PInt 2021)) as (c & nd & Hc & Hnd & Hchild); [done | |].
  { exists (tx 1 (PInt 2021) (PStr "b")). split; [by left | reflexivity]. }
  exists n', cs, c. repeat split; try done.
  rewrite Hnd. f_equal. vm_compute in Hchild. by injection Hchild as <-.
Defined.

(** ** Resetting and grouping again *)

Lemma reset_ok (h : heap) (self : addr) (n : node) :
  h !! self = Some n → cls n = ClsRollerUpper →
  reset self h = (Ok tt, <[self := set_kids n None]> h).
Proof.
  intros Hn Hcls. unfold reset.
  rewrite (bind_ok _ _ _ _ _ (get_node_ok _ _ _ Hn)). rewrite Hcls.
  by apply set_children_ok.
Qed.

Section Reset.
Variable py_exec : string → pyval → res pyval.
Variable dict_items : dict → dict.
Hypothesis dict_items_perm : ∀ g, dict_items g ≡ₚ g.

(** X10: [reset] undoes the grouping of a RollerUpper leaf: after
    [group_hierarchy_by] and [reset] every instance that was in the store is
    exactly as it was before the two calls; the children that grouping made
    are still in the store and are leaves, and no instance refers to
    them. *)
Theorem group_then_reset (fuel : nat) (h : heap) (self : addr) (n : node)
    (fn : string) (nf : option string) (r : option addr) (h1 : heap) :
  h !! self = Some n → cls n = ClsRollerUpper → children n = None →
  group_hierarchy_by py_exec dict_items fuel self fn nf h = (Ok r, h1) →
  ∃ extra,
    reset self h1 = (Ok tt, h ++ extra) ∧
    Forall (λ nd, children nd = None) extra.
Proof.
  intros Hn Hcls Hleaf H.
  destruct (group_leaf_inv _ _ _ _ _ _ _ _ _ _ Hn Hleaf H)
    as (h0 & nt & Ht & _ & _ & _ & Hg & Hr).
  rewrite Hcls in Hr. destruct Hr as [-> ->]. simpl in Hg, Ht.
  assert (nt = n) as -> by congruence.
  assert (self < length h) as Hlt by (by eapply lookup_lt_Some).
  apply group_by_inv in Hg as (n0 & g & ns & s & Hn0 & _ & Hns & -> & _ & _).
  assert (n0 = n) as -> by congruence.
  exists (ns ++ unknown_child (dict_items g)). split.
  - rewrite (reset_ok _ _ (set_kids n (Some s)));
      [| by apply grouped_lookup_self | done].
    unfold grouped. rewrite list_insert_insert_eq, set_kids_set_kids.
    rewrite (set_kids_id n None Hleaf). f_equal.
    apply list_insert_id. by apply lookup_app_l_Some.
  - apply Forall_app. split;
      [by eapply new_children_leaves | apply unknown_child_leaves].
Qed.

(** X11: whatever children a RollerUpper has, [reset] followed by
    [group_hierarchy_by] groups its own items anew: its children are then
    instances made by this call, sorted by name, and their items taken
    together are the items of the instance. *)
Theorem reset_then_group (fuel : nat) (h : heap) (self : addr) (n : node)
    (fn : string) (nf : option string) (r : option addr) (h2 : heap) :
  h !! self = Some n → cls n = ClsRollerUpper →
  (reset self ≫= λ _, group_hierarchy_by py_exec dict_items fuel self fn nf) h
  = (Ok r, h2) →
  ∃ cs,
    h2 !! self = Some (set_kids n (Some cs)) ∧
    Forall (λ c, h !! c = None) cs ∧
    children_items h2 cs ≡ₚ data n ∧
    sorted_by_name h2 cs.
Proof.
  intros Hn Hcls H.
  assert (self < length h) as Hlt by (by eapply lookup_lt_Some).
  rewrite (bind_ok _ _ _ _ _ (reset_ok _ _ _ Hn Hcls)) in H.
  set (h1 := <[self := set_kids n None]> h) in *.
  assert (h1 !! self = Some (set_kids n None)) as Hn1
    by (by apply list_lookup_insert_eq).
  destruct (group_leaf_inv _ _ _ _ _ _ _ _ _ _ Hn1 eq_refl H)
    as (h0 & nt & Ht & _ & _ & _ & Hg & Hr).
  simpl in Hr. rewrite Hcls in Hr. destruct Hr as [-> ->]. simpl in Hg, Ht.
  assert (nt = set_kids n None) as -> by congruence.
  destruct (group_by_children py_exec dict_items dict_items_perm
              _ _ _ _ _ _ Ht Hg) as (s & Hs & Hp & Hsorted & _).
  apply group_by_inv in Hg as (n0 & g & ns & s' & _ & _ & _ & -> & Hperm & _).
  rewrite grouped_lookup_self in Hs
    by (unfold h1; by rewrite length_insert).
  assert (s' = s) as -> by (unfold set_kids in Hs; congruence).
  exists s. split.
  { rewrite grouped_lookup_self by (unfold h1; by rewrite length_insert).
    done. }
  split; [| done].
  apply Forall_forall. intros c Hc. rewrite Hperm in Hc.
  apply elem_of_seq in Hc as [Hlo _]. unfold h1 in Hlo.
  rewrite length_insert in Hlo. by apply lookup_ge_None.
Qed.
End Reset.

Lemma group_then_reset_witness :
  ∃ extra,
    reset 0 (group_hierarchy_by attr_chain insertion_order 1 0 "year" None
               sample_store).2
    = (Ok tt, sample_store ++ extra) ∧
    Forall (λ nd, children nd = None) extra.
Proof.
  apply (group_then_reset attr_chain insertion_order 1 sample_store 0
           sample_root "year" None None); vm_compute; reflexivity.
Defined.

Lemma reset_then_group_witness :
  let h := (group_hierarchy_by attr_chain insertion_order 1 0 "year" None
              sample_store).2 in
  let h2 := ((reset 0 ≫= λ _,
                group_hierarchy_by attr_chain insertion_order 1 0
                  "category" None) h).2 in
  ∃ cs,
    h2 !! 0 = Some (Node ClsRollerUpper (PStr "root") PNone sample_items
                      (Some cs)) ∧
    Forall (λ c, h !! c = None) cs ∧
    children_items h2 cs ≡ₚ sample_items ∧
    sorted_by_name h2 cs.
Proof.
  intros h h2.
  apply (reset_then_group attr_chain insertion_order insertion_order_perm 1 h 0
           (Node ClsRollerUpper (PStr "root") PNone sample_items
              (Some [2; 1])) "category" None None h2).
  - vm_compute. reflexivity.
  - reflexivity.
  - vm_compute. reflexivity.
Defined.

(** ** The names of the children *)




(** ** What a search visits and what it leaves *)

Lemma find_matches_descendants (h : heap) (nm ky : pyval) : ∀ d cs,
  find_matches h d nm ky true cs
  = filter (λ c, node_matches h nm ky c = true) (descendants h d cs).
Proof.
  induction d as [d IH] using lt_wf_ind. intros cs.
  rewrite find_matches_eq.
  assert (descendants h d cs =
          flat_map
            (λ c, c :: match h !! c with
                       | Some cn =>
                           match children cn, d with
                           | Some l, S d' => descendants h d' l
                           | _, _ => []
                           end
                       | None => []
                       end) cs) as -> by (by destruct d).
  induction cs as [|c cs IHcs]; [done |].
  cbn [flat_map app]. rewrite filter_cons, filter_app, <- IHcs.
  assert (node_matches h nm ky c
          = match h !! c with
            | Some cn => matches nm ky cn
            | None => false
            end) as Hm by done.
  destruct (h !! c) as [cn|] eqn:Hc.
  - assert (match children cn, d with
            | Some l, S d' => find_matches h d' nm ky true l
            | _, _ => []
            end
            = filter (λ c, node_matches h nm ky c = true)
                match children cn, d with
                | Some l, S d' => descendants h d' l
                | _, _ => []
                end) as <-.
    { destruct (children cn) as [l|]; [| done].
      destruct d as [|d']; [done |]. apply IH. lia. }
    destruct (matches nm ky cn).
    + rewrite decide_True by done. by rewrite <- app_assoc.
    + rewrite decide_False by (by rewrite Hm). by rewrite <- app_assoc.
  - by rewrite decide_False by (by rewrite Hm).
Qed.

Lemma find_matches_children (h : heap) (nm ky : pyval) (d : nat)
    (cs : list addr) :
  find_matches h d nm ky false cs
  = filter (λ c, node_matches h nm ky c = true) cs.
Proof.
  rewrite find_matches_eq.
  induction cs as [|c cs IH]; [done |].
  cbn [flat_map app]. rewrite filter_cons, IH.
  assert (node_matches h nm ky c
          = match h !! c with
            | Some cn => matches nm ky cn
            | None => false
            end) as Hm by done.
  destruct (h !! c) as [cn|]; [| by rewrite decide_False by (by rewrite Hm)].
  rewrite app_nil_r. destruct (matches nm ky cn).
  - by rewrite decide_True by done.
  - by rewrite decide_False by (by rewrite Hm).
Qed.

(** X13: a search returns a new instance whose children are, in the order
    of the tree, the instances that match: among the children of the
    instance when the search is not recursive, among all the instances
    below it when it is.  The items of the new instance are the items of
    the matches, one after the other. *)
Theorem search_finds_matching_descendants (h : heap) (self : addr) (n : node)
    (cs : list addr) (nm ky : pyval) (rec : bool) (d : nat) :
  h !! self = Some n → children n = Some cs →
  forallb (depth_le h d) cs = true →
  nm ≠ PNone ∨ ky ≠ PNone →
  ∃ r h' found,
    get_children (S d) self nm ky rec false h = (Ok r, h') ∧
    found = filter (λ c, node_matches h nm ky c = true)
              (if rec then descendants h d cs else cs) ∧
    h' !! r = Some (Node ClsRollerUpper nm ky (children_items h found)
                      (Some found)).
Proof.
  intros Hn Hcs Hdepth Hcrit.
  destruct (get_children_spec h nm ky Hcrit rec d self n cs [] Hn Hcs Hdepth)
    as (tmp' & Hrun).
  rewrite !app_nil_r in Hrun. simpl in Hrun.
  eexists _, _, _. split; [exact Hrun |]. split; [reflexivity |].
  rewrite list_lookup_middle by done. do 2 f_equal.
  - f_equal. destruct rec;
      [apply find_matches_descendants | apply find_matches_children].
  - f_equal. destruct rec;
      [apply find_matches_descendants | apply find_matches_children].
Qed.

Lemma search_finds_matching_descendants_witness :
  ∃ r h',
    get_children 2 2 (PStr "x") PNone true false nested_store = (Ok r, h') ∧
    h' !! r = Some (Node ClsRollerUpper (PStr "x") PNone sample_items
                      (Some [0])).
Proof.
  assert (PStr "x" ≠ PNone ∨ PNone ≠ PNone) as Hcrit by (by left).
  pose proof (search_finds_matching_descendants nested_store 2
                (Node ClsRollerUpper (PStr "root") (PInt 0) sample_items
                   (Some [1]))
                [1] (PStr "x") PNone true 1 eq_refl eq_refl eq_refl Hcrit)
    as (r & h' & found & Hrun & Hfound & Hr).
  exists r, h'. split; [exact Hrun |].
  rewrite Hr, Hfound. vm_compute. reflexivity.
Defined.

(** X14: with a name given, [get_child] returns the first instance, in
    the order of the tree, among all the instances below the one it is
    called on whose name has the text of the given name, and [None] when
    there is none; it returns the same for [recursive = True] and for
    [recursive = False]. *)
Theorem get_child_first_descendant (h : heap) (self : addr) (n : node)
    (cs : list addr) (nm : pyval) (recursive : bool) (d : nat) :
  nm ≠ PNone →
  h !! self = Some n → children n = Some cs →
  forallb (depth_le h d) cs = true →
  (get_child (S d) self nm recursive h).1
  = Ok (head (filter (λ c, node_matches h nm PNone c = true)
                (descendants h d cs))) ∧
  (get_child (S d) self nm recursive h).1
  = (get_child (S d) self nm (negb recursive) h).1.
Proof.
  intros Hnm Hn Hcs Hdepth.
  rewrite !(get_child_first_match h self n cs nm _ d Hnm Hn Hcs Hdepth).
  by rewrite find_matches_descendants.
Qed.

Lemma get_child_first_descendant_witness :
  (get_child 2 2 (PStr "x") false nested_store).1 = Ok (Some 0) ∧
  (get_child 2 2 (PStr "x") false nested_store).1
  = (get_child 2 2 (PStr "x") true nested_store).1.
Proof.
  destruct (get_child_first_descendant nested_store 2
              (Node ClsRollerUpper (PStr "root") (PInt 0) sample_items
                 (Some [1]))
              [1] (PStr "x") false 1 ltac:(discriminate) eq_refl eq_refl
              eq_refl) as [Hfirst Hflag].
  split; [| exact Hflag].
  rewrite Hfirst. vm_compute. reflexivity.
Defined.

(** *** A search changes no instance *)

Lemma extends_ret {A} (a : A) : extends_store (ret a).
Proof. intros h. exists []. simpl. by rewrite app_nil_r. Qed.

Lemma extends_raise {A} (e : exn) : extends_store (raise e : M A).
Proof. intros h. exists []. simpl. by rewrite app_nil_r. Qed.

Lemma extends_bind {A B} (m : M A) (f : A → M B) :
  extends_store m → (∀ a, extends_store (f a)) → extends_store (m ≫= f).
Proof.
  intros Hm Hf h. unfold mbind, M_bind, bind.
  destruct (Hm h) as [t Ht]. destruct (m h) as [[a|e] h1]; simpl in *; subst.
  - destruct (Hf a (h ++ t)) as [t' Ht']. exists (t ++ t').
    by rewrite Ht', app_assoc.
  - by exists t.
Qed.

Lemma extends_get_node (a : addr) : extends_store (get_node a).
Proof.
  intros h. exists []. unfold get_node.
  destruct (h !! a); simpl; by rewrite app_nil_r.
Qed.

Lemma extends_alloc (n : node) : extends_store (alloc n).
Proof. intros h. by exists [n]. Qed.

Lemma extends_asrt (c : bool) (msg : string) : extends_store (asrt c msg).
Proof. destruct c; [apply extends_ret | apply extends_raise]. Qed.

Lemma extends_collect_data (cs : list addr) : extends_store (collect_data cs).
Proof.
  induction cs as [|c cs IH]; simpl; [apply extends_ret |].
  apply extends_bind; [apply extends_get_node | intros n].
  apply extends_bind; [apply IH | intros rest]. apply extends_ret.
Qed.

Lemma extends_init (c : pyclass) (nm ky : pyval) (d : option (list pyval))
    (cs : option (list addr)) :
  extends_store (__init__ c nm ky d cs).
Proof.
  unfold __init__.
  apply extends_bind; [apply extends_asrt | intros _].
  apply extends_bind; [apply extends_asrt | intros _].
  destruct cs as [l|].
  - apply extends_bind; [apply extends_collect_data | intros dd].
    apply extends_alloc.
  - destruct d; [apply extends_alloc | apply extends_raise].
Qed.

Lemma extends_get_children_loop (recurse : addr → M addr) (nm ky : pyval)
    (rec fo : bool) (cs : list addr) :
  (∀ c, extends_store (recurse c)) →
  ∀ acc, extends_store (get_children_loop recurse nm ky rec fo cs acc).
Proof.
  intros Hrec. induction cs as [|c cs IH]; intros acc; simpl;
    [apply extends_ret |].
  apply extends_bind; [apply extends_get_node | intros cn].
  apply extends_bind.
  - destruct (rec && negb (is_None (children cn))); [| apply extends_ret].
    apply extends_bind; [apply Hrec | intros r].
    apply extends_bind; [apply extends_get_node | intros rn].
    destruct (children rn); [apply extends_ret | apply extends_raise].
  - intros res. destruct (fo && nonempty res); [apply extends_ret | apply IH].
Qed.

Lemma extends_get_children (nm ky : pyval) (rec : bool) :
  ∀ fuel self fo, extends_store (get_children fuel self nm ky rec fo).
Proof.
  induction fuel as [|fuel IH]; intros self fo; simpl; [apply extends_raise |].
  apply extends_bind; [apply extends_asrt | intros _].
  apply extends_bind; [apply extends_get_node | intros n].
  destruct (children n) as [cs|]; [| apply extends_raise].
  apply extends_bind; [| intros res; apply extends_init].
  apply extends_get_children_loop. intros c. apply IH.
Qed.

(** X15: a search changes no instance, however it ends: [get_children]
    and [get_child] leave the store they found, with the instances they
    have made added at its end; they return a result or raise without
    having assigned an attribute of an instance that was there. *)
Theorem search_changes_no_instance (fuel : nat) (self : addr)
    (nm ky : pyval) (rec fo : bool) :
  extends_store (get_children fuel self nm ky rec fo) ∧
  extends_store (get_child fuel self nm rec).
Proof.
  split; [apply extends_get_children |].
  unfold get_child.
  apply extends_bind; [apply extends_get_children | intros r].
  apply extends_bind; [apply extends_get_node | intros rn].
  destruct (children rn) as [[|c l]|]; apply extends_ret.
Qed.

(** ** Looking up a group by its value *)

Lemma matches_by_name (nm ky : pyval) (cn : node) :
  nm ≠ PNone → matches nm ky cn = String.eqb (py_str (name cn)) (py_str nm).
Proof.
  intros Hnm. destruct cn. unfold matches. simpl.
  apply py_eq_false in Hnm. unfold py_ne. by rewrite Hnm.
Qed.

Lemma depth_le_leaf (h : heap) (d : nat) (c : addr) (nd : node) :
  h !! c = Some nd → children nd = None → depth_le h d c = true.
Proof. intros Hc Hl. destruct d; simpl; by rewrite Hc, Hl. Qed.

Lemma find_matches_leaves (h : heap) (nm ky : pyval) (rec : bool) (d : nat)
    (cs : list addr) :
  Forall (λ c, ∃ nd, h !! c = Some nd ∧ children nd = None) cs →
  find_matches h d nm ky rec cs
  = filter (λ c, node_matches h nm ky c = true) cs.
Proof.
  intros Hcs. rewrite <- find_matches_children with (d := d).
  rewrite !find_matches_eq.
  induction Hcs as [|c cs (nd & Hc & Hl) _ IH]; [done |].
  cbn [flat_map]. rewrite IH, Hc, Hl. by destruct rec.
Qed.

Lemma head_filter_elem {A} (P : A → Prop) `{∀ x, Decision (P x)}
    (l : list A) (x : A) :
  x ∈ l → P x → ∃ y, head (filter P l) = Some y ∧ y ∈ l ∧ P y.
Proof.
  intros Hx HP.
  assert (x ∈ filter P l) as Hin by (by apply list_elem_of_filter).
  destruct (filter P l) as [|y l'] eqn:E; [by apply elem_of_nil in Hin |].
  exists y. split; [done |].
  assert (y ∈ filter P l) as Hy by (rewrite E; by left).
  apply list_elem_of_filter in Hy as [? ?]. done.
Qed.

(** X16: a group can be looked up by its value.  After grouping a
    RollerUpper leaf without a name field, [get_child] with a grouping
    value [k] that an item has, and that no other value shares its text
    with, returns the child that holds exactly the items with the value
    [k], in the order they have in the leaf. *)
Theorem group_then_get_child py_exec dict_items
    (dict_items_perm : ∀ g, dict_items g ≡ₚ g)
    (fn : string) (fuel : nat) (h : heap) (self : addr) (n : node)
    (r : option addr) (h' : heap) (k : pyval) (recursive : bool) (d : nat) :
  h !! self = Some n → cls n = ClsRollerUpper → children n = None →
  group_hierarchy_by py_exec dict_items fuel self fn None h = (Ok r, h') →
  k ≠ PNone → value_occurs py_exec fn (data n) k →
  (∀ k', k' ≠ PNone → value_occurs py_exec fn (data n) k' →
         py_str k' = py_str k → k' = k) →
  (py_str k = "Unknown" → null_items py_exec fn (data n) = []) →
  ∃ c,
    (get_child (S d) self k recursive h').1 = Ok (Some c) ∧
    h' !! c = Some (Node ClsRollerUpper (PStr (py_str k)) k
                      (filter (λ x, has_value py_exec fn k x = true) (data n))
                      None).
Proof.
  intros Hn Hcls Hleaf H Hk Hocc Huniq Hunk.
  destruct (group_leaf_inv _ _ _ _ _ _ _ _ _ _ Hn Hleaf H)
    as (h0 & nt & Ht & _ & _ & _ & Hg & Hr).
  rewrite Hcls in Hr. destruct Hr as [-> ->]. simpl in Hg, Ht.
  assert (nt = n) as -> by congruence.
  destruct (group_by_child_nodes py_exec dict_items dict_items_perm fn None
              _ _ _ _ Hn Hg) as (cs & Hcs & Hvals & Hall).
  assert (∀ k', child_of_value py_exec fn None (data n) k'
                = Ok (Node ClsRollerUpper (PStr (py_str k')) k'
                        (filter (λ x, has_value py_exec fn k' x = true)
                           (data n)) None)) as Hchild by done.
  destruct (Hvals k Hk Hocc) as (c0 & nd0 & Hc0 & Hnd0 & Hch0).
  rewrite Hchild in Hch0. injection Hch0 as <-.
  assert (Forall (λ c, ∃ nd, h' !! c = Some nd ∧ children nd = None) cs)
    as Hleaves.
  { eapply Forall_impl; [exact Hall |].
    intros c (nd & Hc & [[-> _] | (k' & _ & _ & Hch)]); [by eexists |].
    rewrite Hchild in Hch. injection Hch as <-. by eexists. }
  assert (forallb (depth_le h' d) cs = true) as Hdepth.
  { apply forallb_forall. intros c Hc. apply list_elem_of_In in Hc.
    rewrite Forall_forall in Hleaves.
    destruct (Hleaves c Hc) as (nd & Hnd & Hl). by eapply depth_le_leaf. }
  rewrite (get_child_first_match h' self _ cs k recursive d Hk Hcs eq_refl
             Hdepth).
  rewrite (find_matches_leaves _ _ _ _ _ _ Hleaves).
  destruct (head_filter_elem (λ c, node_matches h' k PNone c = true) cs c0)
    as (c & -> & Hc & Hm); [done | |].
  { unfold node_matches. rewrite Hnd0, matches_by_name by done. simpl.
    apply String.eqb_refl. }
  exists c. split; [done |].
  rewrite Forall_forall in Hall.
  destruct (Hall c Hc) as (nd & Hnd & Hcase).
  unfold node_matches in Hm. rewrite Hnd, matches_by_name in Hm by done.
  apply String.eqb_eq in Hm. rewrite Hnd. f_equal.
  destruct Hcase as [[-> Hnull] | (k' & Hk' & Hocc' & Hch)].
  - simpl in Hm. symmetry in Hm. by apply Hunk in Hm.
  - rewrite Hchild in Hch. injection Hch as <-. simpl in Hm.
    by rewrite (Huniq k' Hk' Hocc' Hm).
Qed.

Lemma group_then_get_child_witness :
  let h' := (group_hierarchy_by attr_chain insertion_order 1 0 "year" None
               sample_store).2 in
  ∃ c,
    (get_child 1 0 (PInt 2021) false h').1 = Ok (Some c) ∧
    h' !! c = Some (Node ClsRollerUpper (PStr "2021") (PInt 2021)
                      [tx 1 (PInt 2021) (PStr "b"); tx 3 (PInt 2021) (PStr "a")]
                      None).
Proof.
  intros h'.
  assert (group_hierarchy_by attr_chain insertion_order 1 0 "year" None
            sample_store = (Ok None, h')) as Hrun by (vm_compute; reflexivity).
  assert (value_occurs attr_chain "year" sample_items (PInt 2021)) as Hocc.
  { exists (tx 1 (PInt 2021) (PStr "b")). split; [by left | reflexivity]. }
  assert (∀ k', k' ≠ PNone → value_occurs attr_chain "year" sample_items k' →
                py_str k' = py_str (PInt 2021) → k' = PInt 2021) as Huniq.
  { intros k' _ (x & Hx & Hv) Htext.
    repeat (apply elem_of_cons in Hx as [-> | Hx]);
      [| | | by apply elem_of_nil in Hx];
      vm_compute in Hv; injection Hv as <-; [done | | done].
    vm_compute in Htext. discriminate. }
  pose proof (group_then_get_child attr_chain insertion_order
                insertion_order_perm "year" 1 sample_store 0 sample_root None
                h' (PInt 2021) false 0 eq_refl eq_refl eq_refl Hrun
                ltac:(discriminate) Hocc Huniq) as (c & Hget & Hc).
  { vm_compute. discriminate. }
  exists c. split; [exact Hget |]. rewrite Hc. f_equal.
Defined.

(** ** Reading a field of the items *)

Lemma get_all_loop_ok (f : string) (ds acc vs : list pyval) :
  Forall2 (λ d v, getattr d f = Ok v) ds vs →
  get_all_loop f ds acc = Ok (acc ++ vs).
Proof.
  intros Hvs. revert acc.
  induction Hvs as [|d v ds vs Hd _ IH]; intros acc; simpl.
  - by rewrite app_nil_r.
  - rewrite Hd. simpl. rewrite IH. by rewrite <- app_assoc.
Qed.

Lemma get_all_loop_inv (f : string) (ds acc l : list pyval) :
  get_all_loop f ds acc = Ok l →
  ∃ vs, l = acc ++ vs ∧ Forall2 (λ d v, getattr d f = Ok v) ds vs.
Proof.
  revert acc. induction ds as [|d ds IH]; intros acc; simpl.
  - intros [= <-]. exists []. by rewrite app_nil_r.
  - destruct (getattr d f) as [v|] eqn:Hd; simpl; [| done].
    intros Hl. destruct (IH _ Hl) as (vs & -> & Hvs).
    exists (v :: vs). rewrite <- app_assoc. split; [done |]. by constructor.
Qed.




Lemma get_all_inv (h : heap) (x : addr) (f : string) (vs : list pyval)
    (h' : heap) :
  get_all x f h = (Ok vs, h') →
  ∃ nx, h !! x = Some nx ∧ Forall2 (λ d v, getattr d f = Ok v) (data nx) vs.
Proof.
  unfold get_all. intros H. apply bind_inv_ok in H as (nx & h1 & Hx & H).
  apply get_node_inv in Hx as [Hx ->]. unfold lift in H.
  injection H as H _. apply get_all_loop_inv in H as (vs' & -> & Hvs).
  by exists nx.
Qed.

(** X18: for an instance constructed from children, [get_all] returns the
    concatenation, in the order of the children, of what [get_all] returns
    for each child. *)
Theorem get_all_of_children (c : pyclass) (nm ky : pyval)
    (d : option (list pyval)) (cs : list addr) (h : heap) (r : addr)
    (h' : heap) (f : string) (vss : list (list pyval)) :
  __init__ c nm ky d (Some cs) h = (Ok r, h') →
  Forall2 (λ x vs, get_all x f h' = (Ok vs, h')) cs vss →
  get_all r f h' = (Ok (concat vss), h').
Proof.
  intros Hinit Hvss.
  apply init_ok in Hinit as (-> & nd & -> & _ & _ & _ & _ & Hall & Hdata).
  unfold get_all at 1.
  rewrite (bind_ok _ _ _ _ _
             (get_node_ok _ _ _ (list_lookup_middle _ _ _ _ eq_refl))).
  unfold lift. rewrite Hdata.
  rewrite (get_all_loop_ok f (children_items h cs) [] (concat vss)); [done |].
  clear Hdata. unfold children_items.
  induction Hvss as [|x vs cs vss Hx _ IH]; simpl; [constructor |].
  apply Forall_cons in Hall as [[nx Hnx] Hall].
  apply Forall2_app; [| by apply IH].
  apply get_all_inv in Hx as (nx' & Hx' & Hvs).
  rewrite (lookup_app_l_Some _ _ _ _ Hnx) in Hx'. injection Hx' as <-.
  unfold items_of. by rewrite Hnx.
Qed.

Lemma get_all_of_children_witness :
  let h' := sample_store ++
              [Node ClsRollerUpper (PStr "top") PNone
                 (sample_items ++ sample_items) (Some [0; 0])] in
  get_all 1 "id" h'
  = (Ok (concat [[PInt 1; PInt 2; PInt 3]; [PInt 1; PInt 2; PInt 3]]), h').
Proof.
  intros h'.
  apply (get_all_of_children ClsRollerUpper (PStr "top") PNone None [0; 0]
           sample_store 1 h' "id").
  - vm_compute. reflexivity.
  - repeat constructor.
Defined.

(** ** The leaves of a tree *)







(** ** The text of an instance *)

Section ReprFacts.
Variable py_repr : pyval → string.
Variable h : heap.

Lemma reprs_loop_ok (recurse : addr → M string) (cs : list addr) :
  Forall (λ c, ∃ s, recurse c h = (Ok s, h)) cs →
  ∃ rs, reprs_loop recurse cs h = (Ok rs, h).
Proof.
  induction 1 as [|c cs [s Hs] _ [rs IH]]; simpl; [by eexists |].
  rewrite (bind_ok _ _ _ _ _ Hs). rewrite (bind_ok _ _ _ _ _ IH).
  by eexists.
Qed.

Lemma reprs_loop_raise (recurse : addr → M string) (cs : list addr) :
  Forall (λ c, recurse c h = (Raise TypeError, h) ∨
               ∃ s, recurse c h = (Ok s, h)) cs →
  Exists (λ c, recurse c h = (Raise TypeError, h)) cs →
  reprs_loop recurse cs h = (Raise TypeError, h).
Proof.
  induction 1 as [|c cs Hc _ IH]; intros Hex; simpl.
  - by apply Exists_nil in Hex.
  - destruct Hc as [Hc | [s Hs]].
    + by rewrite (bind_raise _ _ _ _ _ Hc).
    + rewrite (bind_ok _ _ _ _ _ Hs).
      apply Exists_cons in Hex as [Hex | Hex]; [congruence |].
      by rewrite (bind_raise _ _ _ _ _ (IH Hex)).
Qed.

(** X20: [__repr__] returns a text exactly when no instance at or below
    the instance is a leaf.  On a leaf it raises a TypeError, where it
    takes the maximum of the children, which are [None], and the empty
    list; on an instance with children it asks every child for its text
    and so raises as soon as there is a leaf below.  It changes
    nothing. *)
Theorem repr_needs_no_leaf : ∀ (d : nat) (a : addr),
  depth_le h d a = true →
  if has_leaf h d a
  then __repr__ py_repr (S d) a h = (Raise TypeError, h)
  else ∃ s, __repr__ py_repr (S d) a h = (Ok s, h).
Proof.
  induction d as [d IH] using lt_wf_ind. intros a Ha.
  pose proof (depth_le_is_Some _ _ _ Ha) as [n Hn].
  assert (has_leaf h d a
          = match children n with
            | None => true
            | Some cs =>
                match d with
                | O => false
                | S d' => existsb (has_leaf h d') cs
                end
            end) as -> by (destruct d; simpl; by rewrite Hn).
  cbn [__repr__]. rewrite (bind_ok _ _ _ _ _ (get_node_ok _ _ _ Hn)).
  destruct (children n) as [cs|] eqn:Ecs; [| done].
  destruct d as [|d'].
  { simpl in Ha. by rewrite Hn, Ecs in Ha. }
  assert (forallb (depth_le h d') cs = true) as Hcs.
  { simpl in Ha. by rewrite Hn, Ecs in Ha. }
  assert (Forall (λ c, if has_leaf h d' c
                       then __repr__ py_repr (S d') c h = (Raise TypeError, h)
                       else ∃ s, __repr__ py_repr (S d') c h = (Ok s, h)) cs)
    as Hall.
  { apply Forall_forall. intros c Hc. apply IH; [lia |].
    rewrite forallb_forall in Hcs. apply Hcs. by apply list_elem_of_In. }
  destruct (existsb (has_leaf h d') cs) eqn:Eex.
  - assert (reprs_loop (__repr__ py_repr (S d')) cs h = (Raise TypeError, h))
      as Hloop.
    { apply reprs_loop_raise.
      - eapply Forall_impl; [exact Hall |]. intros c Hc. cbv beta in Hc.
        destruct (has_leaf h d' c); [by left | by right].
      - apply existsb_exists in Eex as (c & Hc & Hleaf).
        apply Exists_exists. exists c. split; [by apply list_elem_of_In |].
        rewrite Forall_forall in Hall. apply list_elem_of_In in Hc.
        specialize (Hall c Hc). cbv beta in Hall. by rewrite Hleaf in Hall. }
    by rewrite (bind_raise _ _ _ _ _ Hloop).
  - destruct (reprs_loop_ok (__repr__ py_repr (S d')) cs) as [rs Hrs].
    + apply Forall_forall. intros c Hc. rewrite Forall_forall in Hall.
      specialize (Hall c Hc). cbv beta in Hall.
      destruct (has_leaf h d' c) eqn:Hleaf; [| done].
      assert (existsb (has_leaf h d') cs = true) as Hex; [| congruence].
      apply existsb_exists. exists c. split; [by apply list_elem_of_In | done].
    + rewrite (bind_ok _ _ _ _ _ Hrs). by eexists.
Qed.
End ReprFacts.

Lemma repr_needs_no_leaf_witness :
  __repr__ py_str 3 2 nested_store = (Raise TypeError, nested_store).
Proof.
  exact (repr_needs_no_leaf py_str nested_store 2 2 eq_refl).
Defined.

(** The text of an instance that has an empty list of children, as grouping
    leaves a leaf without items. *)
Example repr_of_empty_group :
  __repr__ py_str 1 0 [Node ClsRollerUpper (PStr "root") PNone [] (Some [])]
  = (Ok "RollerUpper[name=root,len_children=0,len_data=0,children=[],data=[]]",
     [Node ClsRollerUpper (PStr "root") PNone [] (Some [])]).
Proof. vm_compute. reflexivity. Qed.

(** ** Grouping a hierarchy *)

Lemma below_keeps_children (h h' : heap) (a b : addr) :
  keeps_children h h' → below h a b → below h' a b.
Proof.
  intros Hk. induction 1 as [a | a n cs c b Ha Hcs Hc _ IH].
  - constructor.
  - destruct (Hk _ _ _ Ha Hcs) as (n' & Ha' & Hcs').
    by eapply below_step.
Qed.

Lemma new_children_cls (nf : option string) (g : dict) (ns : list node) :
  new_children nf g = Ok ns → only_rollerupper ns.
Proof.
  unfold only_rollerupper. revert ns.
  induction g as [|[k v] g IH]; intros ns; simpl.
  - intros [= <-]. constructor.
  - destruct (py_eq k PNone); [apply IH |].
    destruct (child_name_key nf k); simpl; [| done].
    destruct (new_children nf g); simpl; [| done].
    intros [= <-]. constructor; eauto.
Qed.

Lemma unknown_child_cls (g : dict) : only_rollerupper (unknown_child g).
Proof. unfold unknown_child. destruct (nonempty _); repeat constructor. Qed.

Section Hierarchy.
Variable py_exec : string → pyval → res pyval.
Variable dict_items : dict → dict.
Hypothesis dict_items_perm : ∀ g, dict_items g ≡ₚ g.
Variables (fn : string) (nf : option string).

Lemma group_by_only_rollerupper (t : addr) (h h' : heap) :
  only_rollerupper h →
  _group_by py_exec dict_items t fn nf h = (Ok tt, h') →
  only_rollerupper h'.
Proof.
  intros Hru H.
  apply group_by_inv in H as (n & g & ns & s & Hn & _ & Hns & -> & _ & _).
  unfold grouped, only_rollerupper in *. apply Forall_insert.
  - apply Forall_app. split; [done |]. apply Forall_app.
    split; [by eapply new_children_cls | apply unknown_child_cls].
  - simpl. rewrite Forall_forall in Hru. apply Hru.
    by eapply list_elem_of_lookup_2.
Qed.

Lemma for_each_only_rollerupper (f : addr → M unit) (cs : list addr) :
  (∀ c h r h', only_rollerupper h → f c h = (Ok r, h') →
               only_rollerupper h') →
  ∀ h r h', only_rollerupper h → for_each f cs h = (Ok r, h') →
            only_rollerupper h'.
Proof.
  intros Hf. induction cs as [|c cs IH]; intros h r h' Hru H; simpl in H.
  - by injection H as _ <-.
  - apply bind_inv_ok in H as (r1 & h1 & H1 & H2). eauto.
Qed.

Lemma group_hierarchy_by_only_rollerupper : ∀ fuel self h r h',
  only_rollerupper h →
  group_hierarchy_by py_exec dict_items fuel self fn nf h = (Ok r, h') →
  only_rollerupper h'.
Proof.
  induction fuel as [|fuel IH]; intros self h r h' Hru H; simpl in H; [done |].
  apply bind_inv_ok in H as (n & h0 & Hn & H).
  apply get_node_inv in Hn as [Hn ->].
  destruct (cls n).
  - destruct (children n) as [cs|].
    + apply bind_inv_ok in H as ([] & h1 & H1 & Hr). injection Hr as _ <-.
      eapply for_each_only_rollerupper; [| exact Hru | exact H1].
      intros c h2 r2 h2' Hru2 H2.
      apply bind_inv_ok in H2 as (r3 & h3 & H3 & Hr). injection Hr as _ <-.
      by eapply IH.
    + apply bind_inv_ok in H as ([] & h1 & H1 & Hr). injection Hr as _ <-.
      by eapply group_by_only_rollerupper.
  - apply bind_inv_ok in H as (c & h1 & Hm & H).
    apply bind_inv_ok in H as (r2 & h2 & Hg & Hr). injection Hr as _ <-.
    unfold mutable in Hm.
    rewrite (bind_ok _ _ _ _ _ (get_node_ok _ _ _ Hn)) in Hm.
    apply init_ok in Hm as (-> & nd & -> & Hcls & _).
    eapply IH; [| exact Hg].
    apply Forall_app. split; [done |]. by repeat constructor.
Qed.

(** The recursive call on a child, as the loop of [group_hierarchy_by] has
    it. *)
Let visit (fuel : nat) (c : addr) : M unit :=
  group_hierarchy_by py_exec dict_items fuel c fn nf;; ret tt.

Lemma visit_cascade (fuel : nat) (c : addr) (h : heap) (r : unit) (h' : heap) :
  visit fuel c h = (Ok r, h') →
  frame h h' ∧ keeps_children h h' ∧ leaves_grouped h h'.
Proof.
  intros H. unfold visit in H.
  apply bind_inv_ok in H as (r1 & h1 & H1 & Hr). injection Hr as _ <-.
  split.
  - pose proof (preserves_group_hierarchy_by py_exec dict_items fuel c fn nf h)
      as Hf. by rewrite H1 in Hf.
  - by eapply group_hierarchy_by_cascade.
Qed.

Lemma visits_cascade (fuel : nat) (cs : list addr) (h : heap) (r : unit)
    (h' : heap) :
  for_each (visit fuel) cs h = (Ok r, h') →
  frame h h' ∧ keeps_children h h'.
Proof.
  intros H. split.
  - pose proof (preserves_for_each (visit fuel) cs) as Hp.
    assert (∀ x, preserves (visit fuel x)) as Hv.
    { intros x. unfold visit.
      apply preserves_bind; [| intros; apply preserves_ret].
      apply preserves_group_hierarchy_by. }
    specialize (Hp Hv h). by rewrite H in Hp.
  - eapply (for_each_cascade (visit fuel) cs); [| | exact H].
    + intros x. unfold visit.
      apply preserves_bind; [| intros; apply preserves_ret].
      apply preserves_group_hierarchy_by.
    + intros c h2 r2 h2' H2. by apply visit_cascade in H2 as (_ & ? & ?).
Qed.

(** Every leaf at or below the instance has children once the call has
    returned. *)
Lemma leaves_get_children : ∀ fuel self h r h',
  only_rollerupper h →
  group_hierarchy_by py_exec dict_items fuel self fn nf h = (Ok r, h') →
  ∀ l nl, below h self l → h !! l = Some nl → children nl = None →
    ∃ n' cs, h' !! l = Some n' ∧ children n' = Some cs.
Proof.
  induction fuel as [|fuel IH]; intros self h r h' Hru H; simpl in H; [done |].
  apply bind_inv_ok in H as (n & h0 & Hn & H).
  apply get_node_inv in Hn as [Hn ->].
  assert (cls n = ClsRollerUpper) as Hcls.
  { unfold only_rollerupper in Hru. rewrite Forall_forall in Hru.
    apply Hru. by eapply list_elem_of_lookup_2. }
  rewrite Hcls in H.
  destruct (children n) as [cs|] eqn:Ecs.
  - apply bind_inv_ok in H as ([] & h1 & H1 & Hr). injection Hr as _ <-.
    change (for_each (visit fuel) cs h = (Ok tt, h1)) in H1.
    intros l nl Hbelow Hl Hleaf.
    assert (∃ c, c ∈ cs ∧ below h c l) as (c & Hc & Hcl).
    { inversion Hbelow as [a | a n0 cs0 c b Ha Hcs0 Hc Hcb]; subst.
      - congruence.
      - exists c. split; [| done]. congruence. }
    clear Hbelow Hn Ecs Hcls.
    revert h Hru H1 nl Hl Hleaf Hcl.
    induction cs as [|c0 cs IHcs]; intros h Hru H1 nl Hl Hleaf Hcl;
      [by apply elem_of_nil in Hc |].
    simpl in H1. apply bind_inv_ok in H1 as ([] & h2 & H2 & H3).
    destruct (visit_cascade _ _ _ _ _ H2) as (Hf12 & Hk12 & _).
    destruct (visits_cascade _ _ _ _ _ H3) as (_ & Hk2).
    assert (only_rollerupper h2) as Hru2.
    { unfold visit in H2.
      apply bind_inv_ok in H2 as (r3 & h3 & H2 & Hr). injection Hr as <-.
      by eapply group_hierarchy_by_only_rollerupper. }
    destruct (Hf12 _ _ Hl) as (nl2 & Hl2 & _).
    destruct (children nl2) as [cs2|] eqn:Ecs2.
    { destruct (Hk2 _ _ _ Hl2 Ecs2) as (n' & Hn' & Hcs'). eauto. }
    apply elem_of_cons in Hc as [-> | Hc].
    + unfold visit in H2.
      apply bind_inv_ok in H2 as (r3 & h3 & H2 & Hr). injection Hr as <-.
      destruct (IH _ _ _ _ Hru H2 l nl Hcl Hl Hleaf) as (n' & cs' & Hn' & Hcs').
      congruence.
    + apply (IHcs Hc h2 Hru2 H3 nl2 Hl2 Ecs2).
      by eapply below_keeps_children.
  - apply bind_inv_ok in H as ([] & h1 & H1 & Hr). injection Hr as _ <-.
    intros l nl Hbelow Hl Hleaf.
    assert (l = self) as ->.
    { inversion Hbelow as [a | a n0 cs0 c b Ha Hcs0 Hc Hcb]; subst;
        [done | congruence]. }
    destruct (group_by_children py_exec dict_items dict_items_perm
                _ _ _ _ _ _ Hn H1) as (s & Hs & _).
    by exists (set_kids n (Some s)), s.
Qed.

(** X21: [group_hierarchy_by] on the root of a hierarchy of RollerUpper
    instances groups every leaf of the hierarchy and nothing else: when it
    returns, every instance that had children has the same children, and
    every leaf at or below the root has children that are sorted by name
    and whose items, taken together, are the items of the leaf; its own
    items, name and key are as they were. *)
Theorem grouping_groups_every_leaf (fuel : nat) (self : addr) (h : heap)
    (r : option addr) (h' : heap) :
  only_rollerupper h →
  group_hierarchy_by py_exec dict_items fuel self fn nf h = (Ok r, h') →
  keeps_children h h' ∧
  ∀ l nl, below h self l → h !! l = Some nl → children nl = None →
    ∃ cs, h' !! l = Some (set_kids nl (Some cs)) ∧
          sorted_by_name h' cs ∧
          children_items h' cs ≡ₚ data nl.
Proof.
  intros Hru H.
  destruct (group_hierarchy_by_cascade py_exec dict_items dict_items_perm
              fn nf _ _ _ _ _ H) as [Hk Hg].
  split; [done |]. intros l nl Hbelow Hl Hleaf.
  destruct (leaves_get_children _ _ _ _ _ Hru H l nl Hbelow Hl Hleaf)
    as (n' & cs & Hn' & Hcs).
  destruct (Hg _ _ _ _ Hl Hleaf Hn' Hcs) as (Hsorted & _ & Hitems).
  exists cs. split; [| done].
  pose proof (preserves_group_hierarchy_by py_exec dict_items fuel self fn nf h)
    as Hf. rewrite H in Hf. simpl in Hf.
  destruct (Hf _ _ Hl) as (n2 & Hn2 & Hc & Hnm & Hky & Hd).
  rewrite Hn' in Hn2. injection Hn2 as <-. rewrite Hn'. f_equal.
  destruct n', nl. simpl in *. by subst.
Qed.
End Hierarchy.

Lemma grouping_groups_every_leaf_witness :
  let h' := (group_hierarchy_by attr_chain insertion_order 3 2 "year" None
               nested_store).2 in
  keeps_children nested_store h' ∧
  ∃ cs, h' !! 0 = Some (Node ClsRollerUpper (PStr "x") (PInt 2) sample_items
                          (Some cs)) ∧
        sorted_by_name h' cs ∧
        children_items h' cs ≡ₚ sample_items.
Proof.
  intros h'.
  assert (group_hierarchy_by attr_chain insertion_order 3 2 "year" None
            nested_store = (Ok None, h')) as Hrun by (vm_compute; reflexivity).
  assert (only_rollerupper nested_store) as Hru by (by repeat constructor).
  destruct (grouping_groups_every_leaf attr_chain insertion_order
              insertion_order_perm "year" None 3 2 nested_store None h'
              Hru Hrun) as [Hk Hleaves].
  split; [exact Hk |].
  apply (Hleaves 0 (Node ClsRollerUpper (PStr "x") (PInt 2) sample_items None)).
  - eapply below_step; [reflexivity | reflexivity | by left |].
    eapply below_step; [reflexivity | reflexivity | by left |].
    constructor.
  - reflexivity.
  - reflexivity.
Defined.

(** ** An ImmutableRollerUpper leaf is never changed *)

Lemma sort_children_touches (self : addr) (n : node) (h : heap)
    (kids : list addr) (extra : list node) :
  self < length h →
  ∃ kids',
    (sort_children self (grouped self n kids h extra)).2
    = grouped self n kids' h extra.
Proof.
  intros Hself. unfold sort_children.
  rewrite (bind_ok _ _ _ _ _
             (get_node_ok _ _ _ (grouped_lookup_self _ _ _ Hself _ _))).
  simpl. unfold mbind, M_bind, bind, sort_addrs.
  destruct (list_sort _ kids) as [s|e].
  - rewrite grouped_set_children by done. by exists s.
  - by exists kids.
Qed.

(** However [_group_by] ends, it has changed at most the instance it was
    called on, and added instances. *)
Lemma group_by_touches py_exec dict_items (t : addr) (n : node)
    (fn : string) (nf : option string) (h : heap) :
  h !! t = Some n →
  (_group_by py_exec dict_items t fn nf h).2 = h ∨
  ∃ kids extra,
    (_group_by py_exec dict_items t fn nf h).2 = grouped t n kids h extra.
Proof.
  intros Hn. assert (t < length h) as Hlt by (by eapply lookup_lt_Some).
  destruct (group_loop py_exec fn (data n) []) as [g|e] eqn:Hg.
  - right. destruct (new_children nf (dict_items g)) as [ns|e] eqn:Hns.
    + unfold _group_by.
      rewrite (bind_ok _ _ _ _ _
                 (build_children_ok py_exec dict_items _ _ _ _ _ _ _ Hn Hg Hns)).
      destruct (sort_children_touches t n h
                  (seq (length h)
                     (length (ns ++ unknown_child (dict_items g))))
                  (ns ++ unknown_child (dict_items g)) Hlt) as [kids' Hk].
      eauto.
    + destruct (children_loop_raise t n h Hlt nf (dict_items g) e [] [] [] Hns)
        as (kids & extra & Hloop).
      exists kids, extra.
      assert (build_children py_exec dict_items t fn nf h
              = (Raise e, grouped t n kids h extra)) as Hbuild.
      { unfold build_children.
        rewrite (bind_ok _ _ _ _ _ (get_node_ok _ _ _ Hn)).
        unfold mbind at 1, M_bind at 1, bind at 1, lift at 1. rewrite Hg.
        rewrite (bind_ok _ _ _ _ _ (set_children_ok _ _ _ (Some []) Hn)).
        replace (<[t := set_kids n (Some [])]> h)
          with (grouped t n [] h [])
          by (unfold grouped; by rewrite app_nil_r).
        by rewrite (bind_raise _ _ _ _ _ Hloop). }
      unfold _group_by. by rewrite (bind_raise _ _ _ _ _ Hbuild).
  - left.
    assert (build_children py_exec dict_items t fn nf h = (Raise e, h))
      as Hbuild.
    { unfold build_children.
      rewrite (bind_ok _ _ _ _ _ (get_node_ok _ _ _ Hn)).
      unfold mbind, M_bind, bind, lift. by rewrite Hg. }
    unfold _group_by. by rewrite (bind_raise _ _ _ _ _ Hbuild).
Qed.

(** X22: an ImmutableRollerUpper that is a leaf is not changed by its own
    methods, however they end: [group_hierarchy_by], whether it returns or
    raises, leaves the store it found, with instances added at its end, and
    [reset] leaves the store as it is. *)
Theorem immutable_leaf_never_changed py_exec dict_items (fuel : nat)
    (h : heap) (self : addr) (n : node) (fn : string) (nf : option string) :
  h !! self = Some n → cls n = ClsImmutableRollerUpper → children n = None →
  (∃ t, (group_hierarchy_by py_exec dict_items fuel self fn nf h).2 = h ++ t) ∧
  reset self h = (Ok tt, h).
Proof.
  intros Hn Hcls Hleaf. split.
  - destruct fuel as [|fuel]; simpl.
    { exists []. by rewrite app_nil_r. }
    rewrite (bind_ok _ _ _ _ _ (get_node_ok _ _ _ Hn)). rewrite Hcls.
    set (copy := Node ClsRollerUpper (name n) PNone (data n) None).
    assert (mutable self h = (Ok (length h), h ++ [copy])) as Hmut.
    { unfold mutable. rewrite (bind_ok _ _ _ _ _ (get_node_ok _ _ _ Hn)).
      rewrite Hleaf. apply init_leaf_ok. }
    rewrite (bind_ok _ _ _ _ _ Hmut).
    assert ((h ++ [copy]) !! length h = Some copy) as Hcopy
      by (by apply list_lookup_middle).
    destruct fuel as [|fuel]; simpl.
    { by exists [copy]. }
    unfold mbind at 1, M_bind at 1, bind at 1.
    rewrite (bind_ok _ _ _ _ _ (get_node_ok _ _ _ Hcopy)). simpl.
    destruct (group_by_touches py_exec dict_items _ _ fn nf _ Hcopy)
      as [Hsame | (kids & extra & Hgrouped)].
    + destruct (_group_by py_exec dict_items (length h) fn nf (h ++ [copy]))
        as [[[]|e] h2] eqn:E; simpl in Hsame; subst h2.
      * rewrite (bind_ok _ _ _ _ _ E). simpl. by exists [copy].
      * rewrite (bind_raise _ _ _ _ _ E). by exists [copy].
    + assert (grouped (length h) copy kids (h ++ [copy]) extra
              = h ++ set_kids copy (Some kids) :: extra) as Hshape.
      { unfold grouped. rewrite <- app_assoc.
        rewrite insert_app_r_alt by lia. by rewrite Nat.sub_diag. }
      destruct (_group_by py_exec dict_items (length h) fn nf (h ++ [copy]))
        as [[[]|e] h2] eqn:E; simpl in Hgrouped; subst h2.
      * rewrite (bind_ok _ _ _ _ _ E). simpl. rewrite Hshape. by eexists.
      * rewrite (bind_raise _ _ _ _ _ E). simpl. rewrite Hshape. by eexists.
  - unfold reset. rewrite (bind_ok _ _ _ _ _ (get_node_ok _ _ _ Hn)).
    by rewrite Hcls.
Qed.

Lemma immutable_leaf_never_changed_witness :
  let h := [Node ClsImmutableRollerUpper (PStr "n") PNone
              [tx 1 (PInt 2021) PNone; PInt 7] None] in
  (∃ t, (group_hierarchy_by attr_chain insertion_order 2 0 "year" None h).2
        = h ++ t) ∧
  reset 0 h = (Ok tt, h).
Proof.
  intros h.
  exact (immutable_leaf_never_changed attr_chain insertion_order 2 h 0
           (Node ClsImmutableRollerUpper (PStr "n") PNone
              [tx 1 (PInt 2021) PNone; PInt 7] None)
           "year" None eq_refl eq_refl eq_refl).
Defined.

(** ** One child for each grouping value *)

Lemma child_of_value_data py_exec (fn : string) (nf : option string)
    (ds : list pyval) (k : pyval) (nd : node) :
  child_of_value py_exec fn nf ds k = Ok nd →
  data nd = filter (λ d, has_value py_exec fn k d = true) ds.
Proof.
  unfold child_of_value. destruct (child_name_key nf k); simpl; [| done].
  by intros [= <-].
Qed.

Lemma filter_singleton {A} (P : A → Prop) `{∀ x, Decision (P x)}
    (l : list A) (x : A) :
  x ∈ l → P x → (∀ y, y ∈ l → P y → y = x) → NoDup l → filter P l = [x].
Proof.
  intros Hx HP Huniq Hnd. induction Hnd as [|y l Hy Hnd IH].
  - by apply elem_of_nil in Hx.
  - rewrite filter_cons. apply elem_of_cons in Hx as [<- | Hx].
    + rewrite decide_True by done. f_equal.
      apply filter_none, Forall_forall. intros z Hz HPz.
      apply Hy. rewrite <- (Huniq z); [done | by right | done].
    + rewrite decide_False.
      * apply IH; [done |]. intros z Hz. apply Huniq. by right.
      * intros HPy. apply Hy. rewrite (Huniq y); [done | by left | done].
Qed.

Section Distinct.
Variable py_exec : string → pyval → res pyval.
Variable fn : string.
Variable ds : list pyval.

Lemma groups_disjoint (k1 k2 : pyval) :
  filter (λ d, has_value py_exec fn k1 d = true) ds
  = filter (λ d, has_value py_exec fn k2 d = true) ds →
  filter (λ d, has_value py_exec fn k1 d = true) ds ≠ [] →
  k1 = k2.
Proof.
  intros Heq Hne.
  destruct (filter (λ d, has_value py_exec fn k1 d = true) ds) as [|d l] eqn:E;
    [done |].
  assert (d ∈ filter (λ d, has_value py_exec fn k1 d = true) ds) as H1
    by (rewrite E; by left).
  assert (d ∈ filter (λ d, has_value py_exec fn k2 d = true) ds) as H2
    by (rewrite <- Heq; by left).
  apply list_elem_of_filter in H1 as [H1 _].
  apply list_elem_of_filter in H2 as [H2 _].
  apply has_value_true in H1, H2. congruence.
Qed.

(** The instances made from the groups are pairwise different and as many
    as the groups. *)
Lemma new_children_distinct (nf : option string) (items : dict)
    (ns : list node) :
  NoDup (dict_keys items) →
  (∀ k v, (k, v) ∈ items →
     v = filter (λ d, has_value py_exec fn k d = true) ds ∧ v ≠ []) →
  new_children nf items = Ok ns →
  NoDup (ns ++ unknown_child items) ∧
  length (ns ++ unknown_child items) = length items.
Proof.
  revert ns. induction items as [|[k v] items IH]; intros ns Hnd Hgr; simpl.
  - intros [= <-]. split; [constructor | done].
  - unfold dict_keys in Hnd. simpl in Hnd.
    apply NoDup_cons in Hnd as [Hk Hnd].
    destruct (Hgr k v) as [Hv Hne]; [by left |].
    assert (∀ k' v', (k', v') ∈ items →
              v' = filter (λ d, has_value py_exec fn k' d = true) ds ∧
              v' ≠ []) as Hgr'.
    { intros k' v' Hin. apply Hgr. by right. }
    assert (∀ k' v', (k', v') ∈ items →
              v' = filter (λ d, has_value py_exec fn k' d = true) ds)
      as Hfil'.
    { intros k' v' Hin. by apply Hgr'. }
    destruct (py_eq k PNone) eqn:Ek.
    + apply py_eq_true in Ek. subst k. intros Hns.
      destruct (IH ns Hnd Hgr' Hns) as [IHnd IHlen].
      pose proof (unknown_data_of_notin items Hk) as Hnone.
      unfold unknown_child in *. simpl. rewrite ?py_eq_refl.
      rewrite Hnone in *. rewrite app_nil_r in *. simpl in *.
      destruct v as [|x v]; [done |]. simpl. split.
      * apply NoDup_app. split; [done |]. split; [| apply NoDup_singleton].
        intros nd Hin Hu. apply list_elem_of_singleton in Hu. subst nd.
        destruct (new_children_values py_exec fn nf ds items ns Hfil' Hns)
          as [_ Hnodes].
        destruct (Hnodes _ Hin) as (k' & Hk' & _ & Hch).
        apply child_of_value_data in Hch. simpl in Hch.
        apply Hk'. symmetry. apply groups_disjoint; [| by rewrite <- Hv].
        by rewrite <- Hv.
      * rewrite length_app. simpl. lia.
    + assert (unknown_child ((k, v) :: items) = unknown_child items) as ->.
      { unfold unknown_child. simpl. by rewrite Ek. }
      apply py_eq_false in Ek.
      destruct (child_name_key nf k) as [nk|] eqn:Enk; simpl; [| done].
      destruct (new_children nf items) as [rest|] eqn:Erest; simpl; [| done].
      intros [= <-]. destruct (IH rest Hnd Hgr' eq_refl) as [IHnd IHlen].
      split; [| simpl; by rewrite IHlen].
      simpl. apply NoDup_cons. split; [| done].
      intros Hin. apply elem_of_app in Hin as [Hin | Hin].
      * destruct (new_children_values py_exec fn nf ds items rest Hfil' Erest)
          as [_ Hnodes].
        destruct (Hnodes _ Hin) as (k' & Hk' & Hkin & Hch).
        apply child_of_value_data in Hch. simpl in Hch.
        assert (k = k') as <-.
        { apply groups_disjoint; by rewrite <- Hv. }
        done.
      * unfold unknown_child in Hin.
        destruct (decide (PNone ∈ dict_keys items)) as [Hnone | Hnone].
        -- unfold dict_keys in Hnone.
           apply list_elem_of_fmap in Hnone as ([k' v'] & Hk' & Hkv).
           simpl in Hk'. subst k'.
           rewrite (unknown_data_of_in _ _ Hnd Hkv) in Hin.
           destruct (nonempty v'); [| by apply elem_of_nil in Hin].
           apply list_elem_of_singleton in Hin. injection Hin as _ _ Hdata.
           apply Ek. apply groups_disjoint; [| by rewrite <- Hv].
           rewrite <- Hv, Hdata. by apply Hfil'.
        -- rewrite (unknown_data_of_notin _ Hnone) in Hin.
           by apply elem_of_nil in Hin.
Qed.
End Distinct.

Section OneChildPerValue.
Variable py_exec : string → pyval → res pyval.
Variable dict_items : dict → dict.
Hypothesis dict_items_perm : ∀ g, dict_items g ≡ₚ g.
Variable fn : string.

Lemma group_by_children_distinct (nf : option string) (h : heap) (t : addr)
    (nt : node) (h' : heap) :
  h !! t = Some nt →
  _group_by py_exec dict_items t fn nf h = (Ok tt, h') →
  ∃ cs ks,
    h' !! t = Some (set_kids nt (Some cs)) ∧
    NoDup cs ∧ NoDup ks ∧
    (∀ k, k ∈ ks ↔ value_occurs py_exec fn (data nt) k) ∧
    length cs = length ks ∧
    (∀ c1 c2, c1 ∈ cs → c2 ∈ cs → h' !! c1 = h' !! c2 → c1 = c2).
Proof.
  intros Ht Hg.
  assert (t < length h) as Hlt by (by eapply lookup_lt_Some).
  apply group_by_inv in Hg as (n0 & g & ns & s & Hn0 & Hg & Hns & -> & Hp & _).
  assert (n0 = nt) as -> by congruence.
  pose proof (group_loop_groups _ _ _ _ Hg) as (Hnd & _ & Hcov & _).
  pose proof (groups_of_perm _ _ _ _ _ (dict_items_perm g)
                (group_loop_groups _ _ _ _ Hg)) as (Hnd' & Hfil' & _ & _).
  assert (∀ k, k ∈ dict_keys g ↔ value_occurs py_exec fn (data nt) k)
    as Hkeys.
  { intros k. split.
    - intros Hk.
      destruct (group_loop_keys py_exec fn _ _ _ Hg k Hk) as [Hin | Hocc];
        [by apply elem_of_nil in Hin | done].
    - intros (d & Hd & Hv). destruct (Hcov d Hd) as (k' & Hk' & Hin).
      congruence. }
  destruct (new_children_distinct py_exec fn (data nt) nf (dict_items g) ns)
    as [Hall Hlen]; [done | | done |].
  { intros k v Hkv. split; [by apply Hfil' |].
    assert (k ∈ dict_keys g) as Hk.
    { unfold dict_keys. apply list_elem_of_fmap. exists (k, v).
      split; [done |]. by rewrite <- (dict_items_perm g). }
    apply Hkeys in Hk as (d & Hd & Hv).
    rewrite (Hfil' k v Hkv). intros Hnil.
    assert (d ∈ filter (λ d, has_value py_exec fn k d = true) (data nt))
      as Hin by (apply list_elem_of_filter; by rewrite has_value_true).
    rewrite Hnil in Hin. by apply elem_of_nil in Hin. }
  set (all := ns ++ unknown_child (dict_items g)) in *.
  exists s, (dict_keys g).
  split; [by apply grouped_lookup_self |].
  split; [rewrite Hp; apply NoDup_seq |].
  split; [done |]. split; [done |]. split.
  - rewrite Hp, length_seq, Hlen. unfold dict_keys. rewrite length_fmap.
    by rewrite (dict_items_perm g).
  - intros c1 c2 Hc1 Hc2. rewrite Hp in Hc1, Hc2.
    apply elem_of_seq in Hc1 as [Hlo1 Hhi1].
    apply elem_of_seq in Hc2 as [Hlo2 Hhi2].
    replace c1 with (length h + (c1 - length h)) at 1 by lia.
    replace c2 with (length h + (c2 - length h)) at 1 by lia.
    rewrite !grouped_lookup_new by done. intros Heq.
    destruct (all !! (c1 - length h)) as [nd|] eqn:E1;
      [| apply lookup_ge_None in E1; lia].
    symmetry in Heq.
    pose proof (NoDup_lookup _ _ _ _ Hall E1 Heq). lia.
Qed.

(** X23: grouping a leaf makes one child for each grouping value that an
    item has, [None] included, with or without a name field: the children
    are pairwise different instances and there are as many of them as there
    are distinct grouping values.  Values that get the same name through the
    name field are not merged. *)
Theorem one_child_per_value (nf : option string) (fuel : nat) (h : heap)
    (self : addr) (n : node) (r : option addr) (h' : heap) :
  h !! self = Some n → children n = None →
  group_hierarchy_by py_exec dict_items fuel self fn nf h = (Ok r, h') →
  ∃ n' cs ks,
    h' !! default self r = Some n' ∧ children n' = Some cs ∧
    NoDup cs ∧ NoDup ks ∧
    (∀ k, k ∈ ks ↔ value_occurs py_exec fn (data n) k) ∧
    length cs = length ks.
Proof.
  intros Hn Hleaf H.
  destruct (group_leaf_inv _ _ _ _ _ _ _ _ _ _ Hn Hleaf H)
    as (h0 & nt & Ht & Hdata & _ & _ & Hg & _).
  destruct (group_by_children_distinct nf _ _ _ _ Ht Hg)
    as (cs & ks & Hcs & Hnd & Hks & Hocc & Hlen & _).
  rewrite Hdata in Hocc.
  by exists (set_kids nt (Some cs)), cs, ks.
Qed.

(** X24: a group can be found by its key.  After grouping a RollerUpper
    leaf without a name field, a search by key for a grouping value [k]
    (not [None]) that an item has returns an instance with one child, the
    child with key [k], and with the items of that child: the items with the
    value [k], in the order they have in the leaf. *)
Theorem group_then_find_by_key (fuel : nat) (h : heap) (self : addr)
    (n : node) (r : option addr) (h' : heap) (k : pyval) (rec : bool)
    (d : nat) :
  h !! self = Some n → cls n = ClsRollerUpper → children n = None →
  group_hierarchy_by py_exec dict_items fuel self fn None h = (Ok r, h') →
  k ≠ PNone → value_occurs py_exec fn (data n) k →
  ∃ found h2 c,
    get_children (S d) self PNone k rec false h' = (Ok found, h2) ∧
    h' !! c = Some (Node ClsRollerUpper (PStr (py_str k)) k
                      (filter (λ x, has_value py_exec fn k x = true) (data n))
                      None) ∧
    h2 !! found
    = Some (Node ClsRollerUpper PNone k
              (filter (λ x, has_value py_exec fn k x = true) (data n))
              (Some [c])).
Proof.
  intros Hn Hcls Hleaf H Hk Hocc.
  destruct (group_leaf_inv _ _ _ _ _ _ _ _ _ _ Hn Hleaf H)
    as (h0 & nt & Ht & _ & _ & _ & Hg & Hr).
  rewrite Hcls in Hr. destruct Hr as [-> ->]. simpl in Hg, Ht.
  assert (nt = n) as -> by congruence.
  destruct (group_by_child_nodes py_exec dict_items dict_items_perm fn None
              _ _ _ _ Hn Hg) as (cs & Hcs & Hvals & Hall).
  destruct (group_by_children_distinct None _ _ _ _ Hn Hg)
    as (cs' & ks & Hcs' & Hnd & _ & _ & _ & Hinj).
  assert (cs' = cs) as -> by (unfold set_kids in *; congruence).
  assert (∀ k', child_of_value py_exec fn None (data n) k'
                = Ok (Node ClsRollerUpper (PStr (py_str k')) k'
                        (filter (λ x, has_value py_exec fn k' x = true)
                           (data n)) None)) as Hchild by done.
  destruct (Hvals k Hk Hocc) as (c & nd & Hc & Hnd0 & Hch).
  rewrite Hchild in Hch. injection Hch as <-.
  assert (Forall (λ c, ∃ nd, h' !! c = Some nd ∧ children nd = None) cs)
    as Hleaves.
  { eapply Forall_impl; [exact Hall |].
    intros c0 (nd & Hc0 & [[-> _] | (k' & _ & _ & Hch)]); [by eexists |].
    rewrite Hchild in Hch. injection Hch as <-. by eexists. }
  assert (forallb (depth_le h' d) cs = true) as Hdepth.
  { apply forallb_forall. intros c0 Hc0. apply list_elem_of_In in Hc0.
    rewrite Forall_forall in Hleaves.
    destruct (Hleaves c0 Hc0) as (nd & Hnd1 & Hl). by eapply depth_le_leaf. }
  destruct (get_children_spec h' PNone k (or_intror Hk) rec d self _ cs []
              Hcs eq_refl Hdepth) as (tmp' & Hrun).
  rewrite !app_nil_r in Hrun. simpl in Hrun.
  assert (find_matches h' d PNone k rec cs = [c]) as Hfound.
  { rewrite (find_matches_leaves _ _ _ _ _ _ Hleaves).
    apply filter_singleton; [done | | | done].
    - unfold node_matches. rewrite Hnd0. unfold matches. simpl.
      apply py_eq_false in Hk. unfold py_ne. rewrite Hk. simpl.
      apply py_eq_refl.
    - intros c0 Hc0 Hm. apply Hinj; [done | done |].
      rewrite Forall_forall in Hall.
      destruct (Hall c0 Hc0) as (nd & Hnd1 & Hcase).
      unfold node_matches in Hm. rewrite Hnd1 in Hm. rewrite Hnd1, Hnd0.
      f_equal.
      destruct Hcase as [[-> _] | (k' & Hk' & _ & Hch)].
      + unfold matches in Hm. simpl in Hm.
        apply py_eq_false in Hk as Hk2. unfold py_ne in Hm.
        rewrite Hk2 in Hm. simpl in Hm. apply py_eq_true in Hm. done.
      + rewrite Hchild in Hch. injection Hch as <-.
        unfold matches in Hm. simpl in Hm.
        apply py_eq_false in Hk as Hk2. unfold py_ne in Hm.
        rewrite Hk2 in Hm. simpl in Hm. apply py_eq_true in Hm. by subst k'. }
  rewrite Hfound in Hrun.
  eexists _, _, c. split; [exact Hrun |]. split; [done |].
  rewrite list_lookup_middle by done. do 2 f_equal.
  unfold children_items. simpl. unfold items_of. rewrite Hnd0. simpl.
  apply app_nil_r.
Qed.
End OneChildPerValue.

Lemma one_child_per_value_witness :
  let h' := (group_hierarchy_by attr_chain insertion_order 1 0 "category" None
               sample_store).2 in
  ∃ n' cs ks,
    h' !! 0 = Some n' ∧ children n' = Some cs ∧
    NoDup cs ∧ NoDup ks ∧
    (∀ k, k ∈ ks ↔ value_occurs attr_chain "category" sample_items k) ∧
    length cs = length ks.
Proof.
  intros h'.
  assert (group_hierarchy_by attr_chain insertion_order 1 0 "category" None
            sample_store = (Ok None, h')) as Hrun by (vm_compute; reflexivity).
  exact (one_child_per_value attr_chain insertion_order insertion_order_perm
           "category" None 1 sample_store 0 sample_root None h'
           eq_refl eq_refl Hrun).
Defined.

Lemma group_then_find_by_key_witness :
  let h' := (group_hierarchy_by attr_chain insertion_order 1 0 "year" None
               sample_store).2 in
  ∃ found h2 c,
    get_children 1 0 PNone (PInt 2021) false false h' = (Ok found, h2) ∧
    h2 !! found
    = Some (Node ClsRollerUpper PNone (PInt 2021)
              [tx 1 (PInt 2021) (PStr "b"); tx 3 (PInt 2021) (PStr "a")]
              (Some [c])).
Proof.
  intros h'.
  assert (group_hierarchy_by attr_chain insertion_order 1 0 "year" None
            sample_store = (Ok None, h')) as Hrun by (vm_compute; reflexivity).
  assert (value_occurs attr_chain "year" sample_items (PInt 2021)) as Hocc.
  { exists (tx 1 (PInt 2021) (PStr "b")). split; [by left | reflexivity]. }
  pose proof (group_then_find_by_key attr_chain insertion_order
                insertion_order_perm "year" 1 sample_store 0 sample_root None
                h' (PInt 2021) false 0 eq_refl eq_refl eq_refl Hrun
                ltac:(discriminate) Hocc) as (found & h2 & c & Hget & _ & Hf).
  exists found, h2, c. split; [exact Hget |]. rewrite Hf. f_equal.
Defined.
